(** * QGroundControl parameter meta data and parameter loader

    A shallow embedding of [PX4ParameterMetaData.cc] (the PX4 parameter
    meta data loader) and of the [ParameterLoader] class declared in
    [ParameterLoader.h], with the properties stated about them.

    Layout: the Qt values the code manipulates (QVariant, QXmlStreamReader),
    then the meta data loader, then the parameter loader engine, then the
    theorems. *)

From Stdlib Require Import ZArith Lia Ascii String DecimalString DecimalZ.
From stdpp Require Import base gmap strings list fin_maps fin_sets sorting.

Local Open Scope Z_scope.
Local Open Scope string_scope.
Local Open Scope list_scope.

(* ===================================================================== *)
(** ** Qt values *)
(* ===================================================================== *)

(** [FactMetaData::ValueType_t], the eight scalar types named by the
    switch of [_stringToTypedVariant]. *)
Inductive ValueType_t :=
| valueTypeUint8 | valueTypeInt8
| valueTypeUint16 | valueTypeInt16
| valueTypeUint32 | valueTypeInt32
| valueTypeFloat | valueTypeDouble.

#[global] Instance ValueType_t_eq_dec : EqDecision ValueType_t.
Proof. solve_decision. Defined.

(** The QVariant type ids the code converts to. *)
Inductive QVariantType :=
| QVariant_Int | QVariant_UInt | QMetaType_Float | QVariant_Double.

(** A QVariant. Integers are kept as [Z] together with the 32-bit carrier
    they live in; floating point values are kept as their bit pattern,
    which is all the code needs (it only moves them around). *)
Inductive QVariant :=
| QInvalid
| QStringV (s : string)
| QUIntV (z : Z)
| QIntV (z : Z)
| QFloatV (bits : Z)
| QDoubleV (bits : Z).

#[global] Instance QVariant_eq_dec : EqDecision QVariant.
Proof. solve_decision. Defined.

(** The decimal notation of an integer, as [QString::number] writes
    it. *)
Definition string_of_Z (z : Z) : string :=
  NilZero.string_of_int (Z.to_int z).

(** [QChar::isSpace] on the characters of a Latin-1 text: the tab, the
    line feed, the vertical tab, the form feed, the carriage return, the
    space, the next line character and the no-break space. *)
Definition isSpace (c : ascii) : bool :=
  let n := N_of_ascii c in
  ((9 <=? n) && (n <=? 13) || (n =? 32) || (n =? 133) || (n =? 160))%N.

Definition isDigit (c : ascii) : bool :=
  let n := N_of_ascii c in ((48 <=? n) && (n <=? 57))%N.

Fixpoint skip_spaces (s : string) : string :=
  match s with
  | String c rest => if isSpace c then skip_spaces rest else s
  | EmptyString => EmptyString
  end.

(** The decimal digits at the head of a text, and what follows them. *)
Fixpoint read_digits (s : string) : string * string :=
  match s with
  | String c rest =>
      if isDigit c
      then let '(digits, more) := read_digits rest in (String c digits, more)
      else (EmptyString, s)
  | EmptyString => (EmptyString, EmptyString)
  end.

Definition read_sign (s : string) : bool * string :=
  match s with
  | String "-" rest => (true, rest)
  | String "+" rest => (false, rest)
  | _ => (false, s)
  end.

(** Qt's reading of an integer text in base 10, the work of
    [QLocaleData::numberToCLocale] and of [qstrtoll] and [qstrtoull]
    under [QString::toLongLong] and [QString::toULongLong]: the white
    space before and after the number is passed over; a sign may come
    first; then comes at least one decimal digit, and nothing else. The
    result: whether a minus sign was read, and the number the digits
    denote. *)
Definition integer_text (s : string) : option (bool * Z) :=
  let '(minus, s1) := read_sign (skip_spaces s) in
  let '(digits, rest) := read_digits s1 in
  match digits, skip_spaces rest with
  | String _ _, EmptyString =>
      option_map (fun d => (minus, Z.of_uint d)) (NilEmpty.uint_of_string digits)
  | _, _ => None
  end.

(** [QString::toLongLong]: the text is read as a 64-bit integer, and the
    call fails outside that range. *)
Definition QString_toLongLong (s : string) : option Z :=
  match integer_text s with
  | Some (minus, n) =>
      let z := if minus then - n else n in
      if decide (- 2 ^ 63 <= z < 2 ^ 63) then Some z else None
  | None => None
  end.

(** [QString::toULongLong]: a text with a minus sign is refused whatever
    the digits are ([qstrtoull] takes no negative number), and so is a
    number of more than 64 bits. *)
Definition QString_toULongLong (s : string) : option Z :=
  match integer_text s with
  | Some (false, n) => if decide (n < 2 ^ 64) then Some n else None
  | _ => None
  end.

(** [QString::toInt]: the text is read by [toLongLong], and the call
    fails when the value read is no [int]. *)
Definition QString_toInt (s : string) : option Z :=
  match QString_toLongLong s with
  | Some z => if decide (- 2 ^ 31 <= z < 2 ^ 31) then Some z else None
  | None => None
  end.

(** Narrowing casts [uint(x)] and [int(x)] of a 64-bit value. *)
Definition to_uint (z : Z) : Z := z mod 2 ^ 32.
Definition to_int (z : Z) : Z := (z + 2 ^ 31) mod 2 ^ 32 - 2 ^ 31.

(** Parsing of floating point text is Qt's business; the result is the
    bit pattern of the number read. *)
Class QtFloat := {
  QString_toFloat : string -> option Z;
  QString_toDouble : string -> option Z
}.

(** [QVariant(string).convert(t)]: Qt reads a string as a 64-bit integer
    and narrows it to the 32-bit carrier (an overflow of the carrier is
    not reported, as Qt's documentation of [QVariant::toInt] warns); on
    failure the variant is cleared to the null value of the target. *)
Definition QVariant_convert `{QtFloat} (s : string) (t : QVariantType)
  : QVariant * bool :=
  match t with
  | QVariant_UInt =>
      match QString_toULongLong s with
      | Some z => (QUIntV (to_uint z), true)
      | None => (QUIntV 0, false)
      end
  | QVariant_Int =>
      match QString_toLongLong s with
      | Some z => (QIntV (to_int z), true)
      | None => (QIntV 0, false)
      end
  | QMetaType_Float =>
      match QString_toFloat s with
      | Some b => (QFloatV b, true)
      | None => (QFloatV 0, false)
      end
  | QVariant_Double =>
      match QString_toDouble s with
      | Some b => (QDoubleV b, true)
      | None => (QDoubleV 0, false)
      end
  end.

(** [QVariant(text).toUInt(&ok)]. *)
Definition QVariant_toUInt (s : string) : Z * bool :=
  match QString_toULongLong s with
  | Some z => (to_uint z, true)
  | None => (0, false)
  end.

(** [PX4ParameterMetaData::_stringToTypedVariant]: the pair of the
    returned variant and of [*convertOk]. *)
Definition _stringToTypedVariant `{QtFloat} (str : string) (type : ValueType_t)
  : QVariant * bool :=
  let convertTo :=
    match type with
    | valueTypeUint8 | valueTypeUint16 | valueTypeUint32 => QVariant_UInt
    | valueTypeInt8 | valueTypeInt16 | valueTypeInt32 => QVariant_Int
    | valueTypeFloat => QMetaType_Float
    | valueTypeDouble => QVariant_Double
    end in
  QVariant_convert str convertTo.

(** The range of values of a declared type, for the integer types. *)
Definition type_range (type : ValueType_t) : option (Z * Z) :=
  match type with
  | valueTypeUint8 => Some (0, 2 ^ 8 - 1)
  | valueTypeInt8 => Some (- 2 ^ 7, 2 ^ 7 - 1)
  | valueTypeUint16 => Some (0, 2 ^ 16 - 1)
  | valueTypeInt16 => Some (- 2 ^ 15, 2 ^ 15 - 1)
  | valueTypeUint32 => Some (0, 2 ^ 32 - 1)
  | valueTypeInt32 => Some (- 2 ^ 31, 2 ^ 31 - 1)
  | valueTypeFloat | valueTypeDouble => None
  end.

Definition is_unsigned (type : ValueType_t) : bool :=
  match type with
  | valueTypeUint8 | valueTypeUint16 | valueTypeUint32 => true
  | _ => false
  end.

Definition is_signed (type : ValueType_t) : bool :=
  match type with
  | valueTypeInt8 | valueTypeInt16 | valueTypeInt32 => true
  | _ => false
  end.

(* ===================================================================== *)
(** ** The XML token stream *)
(* ===================================================================== *)

(** The tokens a [QXmlStreamReader] reports. *)
Inductive Token :=
| NoToken
| Invalid
| StartDocument
| EndDocument
| StartElement (name : string) (attributes : list (string * string))
| EndElement (name : string)
| Characters (text : string)
| Comment
| DTD
| EntityReference (text : string)
| ProcessingInstruction.

(** The reader: the token it stands on and the tokens still to come. An
    element is closed by the end element of the same name, which is what
    the reader guarantees for the streams it produces (see [well_nested]
    below); a parse error shows as [Invalid]. *)
Record QXmlStreamReader := {
  tokenType : Token;
  upcoming : list Token
}.

Definition QXmlStreamReader_new (data : list Token) : QXmlStreamReader :=
  {| tokenType := NoToken; upcoming := data |}.

(** [readNext()]: the next token; after an error the reader stays on
    [Invalid]. *)
Definition readNext (xml : QXmlStreamReader) : QXmlStreamReader :=
  match tokenType xml with
  | Invalid => xml
  | _ =>
      match upcoming xml with
      | [] => {| tokenType := Invalid; upcoming := [] |}
      | t :: ts => {| tokenType := t; upcoming := ts |}
      end
  end.

Definition atEnd (xml : QXmlStreamReader) : bool :=
  match tokenType xml with
  | Invalid | EndDocument => true
  | _ => false
  end.

Definition hasError (xml : QXmlStreamReader) : bool :=
  match tokenType xml with
  | Invalid => true
  | _ => false
  end.

(** [readElementText()] with the default behaviour: text is gathered up to
    the end element; a child element (or anything else unexpected) raises
    an error and the text read so far is returned. *)
Fixpoint readElementText_from (acc : string) (ts : list Token)
  : string * QXmlStreamReader :=
  match ts with
  | [] => (acc, {| tokenType := Invalid; upcoming := [] |})
  | t :: ts' =>
      match t with
      | Characters s | EntityReference s => readElementText_from (acc +:+ s) ts'
      | EndElement _ => (acc, {| tokenType := t; upcoming := ts' |})
      | ProcessingInstruction | Comment => readElementText_from acc ts'
      | _ => (acc, {| tokenType := Invalid; upcoming := ts' |})
      end
  end.

Definition readElementText (xml : QXmlStreamReader) : string * QXmlStreamReader :=
  match tokenType xml with
  | StartElement _ _ => readElementText_from "" (upcoming xml)
  | _ => ("", xml)
  end.

(** [QXmlStreamAttributes::hasAttribute] and [::value]. *)
Definition hasAttribute (attrs : list (string * string)) (n : string) : bool :=
  bool_decide (n ∈ attrs.*1).

Fixpoint attribute_value (attrs : list (string * string)) (n : string) : string :=
  match attrs with
  | [] => ""
  | (k, v) :: rest => if decide (k = n) then v else attribute_value rest n
  end.

(** [text.replace("\n", " ")]. *)
Fixpoint replace_newlines (s : string) : string :=
  match s with
  | EmptyString => EmptyString
  | String c rest =>
      String (if Ascii.eqb c "010"%char then " "%char else c) (replace_newlines rest)
  end.

(** [text.compare("true", Qt::CaseInsensitive) == 0]. *)
Definition lower (c : Ascii.ascii) : Ascii.ascii :=
  let n := Ascii.nat_of_ascii c in
  if (Nat.leb 65 n && Nat.leb n 90)%bool then Ascii.ascii_of_nat (n + 32) else c.

Fixpoint lowercase (s : string) : string :=
  match s with
  | EmptyString => EmptyString
  | String c rest => String (lower c) (lowercase rest)
  end.

Definition equals_true_nocase (s : string) : bool :=
  bool_decide (lowercase s = "true").

(* ===================================================================== *)
(** ** Meta data objects *)
(* ===================================================================== *)

(** Modelled from the spec: class [FactMetaData] ([FactMetaData.h] is not
    part of the sources). The record holds what the loader sets through
    the setters it calls, which are the attributes the specification
    lists for parameter meta data: type, minimum and maximum, default,
    enum labels, decimal precision, reboot-required flag and group name
    (with the name, the descriptions and the units the loader also sets).
    [None] stands for an attribute never set, left as the constructor
    made it. *)
Record FactMetaData := {
  md_type : ValueType_t;
  md_name : string;
  md_group : string;
  md_rawDefaultValue : option QVariant;
  md_shortDescription : string;
  md_longDescription : string;
  md_rawMin : option QVariant;
  md_rawMax : option QVariant;
  md_rawUnits : string;
  md_decimalPlaces : option Z;
  md_rebootRequired : bool;
  md_enumInfo : list (string * QVariant)
}.

(** [new FactMetaData(type)]: the generic meta data of a type. *)
Definition FactMetaData_new (type : ValueType_t) : FactMetaData :=
  {| md_type := type; md_name := ""; md_group := "";
     md_rawDefaultValue := None;
     md_shortDescription := ""; md_longDescription := "";
     md_rawMin := None; md_rawMax := None; md_rawUnits := "";
     md_decimalPlaces := None; md_rebootRequired := false;
     md_enumInfo := [] |}.

Definition setName (n : string) (m : FactMetaData) : FactMetaData :=
  {| md_type := md_type m; md_name := n; md_group := md_group m;
     md_rawDefaultValue := md_rawDefaultValue m;
     md_shortDescription := md_shortDescription m;
     md_longDescription := md_longDescription m;
     md_rawMin := md_rawMin m; md_rawMax := md_rawMax m;
     md_rawUnits := md_rawUnits m; md_decimalPlaces := md_decimalPlaces m;
     md_rebootRequired := md_rebootRequired m; md_enumInfo := md_enumInfo m |}.

Definition setGroup (grp : string) (m : FactMetaData) : FactMetaData :=
  {| md_type := md_type m; md_name := md_name m; md_group := grp;
     md_rawDefaultValue := md_rawDefaultValue m;
     md_shortDescription := md_shortDescription m;
     md_longDescription := md_longDescription m;
     md_rawMin := md_rawMin m; md_rawMax := md_rawMax m;
     md_rawUnits := md_rawUnits m; md_decimalPlaces := md_decimalPlaces m;
     md_rebootRequired := md_rebootRequired m; md_enumInfo := md_enumInfo m |}.

Definition setRawDefaultValue (v : QVariant) (m : FactMetaData) : FactMetaData :=
  {| md_type := md_type m; md_name := md_name m; md_group := md_group m;
     md_rawDefaultValue := Some v;
     md_shortDescription := md_shortDescription m;
     md_longDescription := md_longDescription m;
     md_rawMin := md_rawMin m; md_rawMax := md_rawMax m;
     md_rawUnits := md_rawUnits m; md_decimalPlaces := md_decimalPlaces m;
     md_rebootRequired := md_rebootRequired m; md_enumInfo := md_enumInfo m |}.

Definition setShortDescription (t : string) (m : FactMetaData) : FactMetaData :=
  {| md_type := md_type m; md_name := md_name m; md_group := md_group m;
     md_rawDefaultValue := md_rawDefaultValue m;
     md_shortDescription := t;
     md_longDescription := md_longDescription m;
     md_rawMin := md_rawMin m; md_rawMax := md_rawMax m;
     md_rawUnits := md_rawUnits m; md_decimalPlaces := md_decimalPlaces m;
     md_rebootRequired := md_rebootRequired m; md_enumInfo := md_enumInfo m |}.

Definition setLongDescription (t : string) (m : FactMetaData) : FactMetaData :=
  {| md_type := md_type m; md_name := md_name m; md_group := md_group m;
     md_rawDefaultValue := md_rawDefaultValue m;
     md_shortDescription := md_shortDescription m;
     md_longDescription := t;
     md_rawMin := md_rawMin m; md_rawMax := md_rawMax m;
     md_rawUnits := md_rawUnits m; md_decimalPlaces := md_decimalPlaces m;
     md_rebootRequired := md_rebootRequired m; md_enumInfo := md_enumInfo m |}.

Definition setRawMin (v : QVariant) (m : FactMetaData) : FactMetaData :=
  {| md_type := md_type m; md_name := md_name m; md_group := md_group m;
     md_rawDefaultValue := md_rawDefaultValue m;
     md_shortDescription := md_shortDescription m;
     md_longDescription := md_longDescription m;
     md_rawMin := Some v; md_rawMax := md_rawMax m;
     md_rawUnits := md_rawUnits m; md_decimalPlaces := md_decimalPlaces m;
     md_rebootRequired := md_rebootRequired m; md_enumInfo := md_enumInfo m |}.

Definition setRawMax (v : QVariant) (m : FactMetaData) : FactMetaData :=
  {| md_type := md_type m; md_name := md_name m; md_group := md_group m;
     md_rawDefaultValue := md_rawDefaultValue m;
     md_shortDescription := md_shortDescription m;
     md_longDescription := md_longDescription m;
     md_rawMin := md_rawMin m; md_rawMax := Some v;
     md_rawUnits := md_rawUnits m; md_decimalPlaces := md_decimalPlaces m;
     md_rebootRequired := md_rebootRequired m; md_enumInfo := md_enumInfo m |}.

Definition setRawUnits (t : string) (m : FactMetaData) : FactMetaData :=
  {| md_type := md_type m; md_name := md_name m; md_group := md_group m;
     md_rawDefaultValue := md_rawDefaultValue m;
     md_shortDescription := md_shortDescription m;
     md_longDescription := md_longDescription m;
     md_rawMin := md_rawMin m; md_rawMax := md_rawMax m;
     md_rawUnits := t; md_decimalPlaces := md_decimalPlaces m;
     md_rebootRequired := md_rebootRequired m; md_enumInfo := md_enumInfo m |}.

Definition setDecimalPlaces (d : Z) (m : FactMetaData) : FactMetaData :=
  {| md_type := md_type m; md_name := md_name m; md_group := md_group m;
     md_rawDefaultValue := md_rawDefaultValue m;
     md_shortDescription := md_shortDescription m;
     md_longDescription := md_longDescription m;
     md_rawMin := md_rawMin m; md_rawMax := md_rawMax m;
     md_rawUnits := md_rawUnits m; md_decimalPlaces := Some d;
     md_rebootRequired := md_rebootRequired m; md_enumInfo := md_enumInfo m |}.

Definition setRebootRequired (b : bool) (m : FactMetaData) : FactMetaData :=
  {| md_type := md_type m; md_name := md_name m; md_group := md_group m;
     md_rawDefaultValue := md_rawDefaultValue m;
     md_shortDescription := md_shortDescription m;
     md_longDescription := md_longDescription m;
     md_rawMin := md_rawMin m; md_rawMax := md_rawMax m;
     md_rawUnits := md_rawUnits m; md_decimalPlaces := md_decimalPlaces m;
     md_rebootRequired := b; md_enumInfo := md_enumInfo m |}.

Definition addEnumInfo (label : string) (v : QVariant) (m : FactMetaData)
  : FactMetaData :=
  {| md_type := md_type m; md_name := md_name m; md_group := md_group m;
     md_rawDefaultValue := md_rawDefaultValue m;
     md_shortDescription := md_shortDescription m;
     md_longDescription := md_longDescription m;
     md_rawMin := md_rawMin m; md_rawMax := md_rawMax m;
     md_rawUnits := md_rawUnits m; md_decimalPlaces := md_decimalPlaces m;
     md_rebootRequired := md_rebootRequired m;
     md_enumInfo := md_enumInfo m ++ [(label, v)] |}.

Definition defaultValueAvailable (m : FactMetaData) : bool :=
  match md_rawDefaultValue m with Some _ => true | None => false end.

(** The two operations of [FactMetaData] the loader calls and whose bodies
    are outside the sources: [FactMetaData::stringToType] (the type and
    the [unknownType] flag) and [convertAndValidateRaw] (the converted
    value, or the error string). *)
Class FactMetaDataOps := {
  stringToType : string -> ValueType_t * bool;
  convertAndValidateRaw :
    FactMetaData -> QVariant -> bool -> QVariant + string
}.

(* ===================================================================== *)
(** ** PX4ParameterMetaData: the meta data loader *)
(* ===================================================================== *)

(** Meta data objects live on the heap and are reached through pointers:
    the loader keeps the pointer [metaData] to the object it also stores
    in the name map, and writes through it. *)
Definition ptr := nat.

(** What the loader prints with [qWarning], [qCWarning] and [qDebug]
    (the purely informative traces are left out). *)
Inductive LogMsg :=
| BadlyFormedXML
| VersionTooOld (found : Z)
| VersionNotFound
| BadType (type name : string)
| DuplicateParameter (name : string)
| InvalidDefault (name : string) (error : string)
| InvalidMin (name : string) (text error : string)
| InvalidMax (name : string) (text error : string)
| InvalidDecimals (name : string) (text : string)
| InvalidEnumValue (name : string) (text error : string)
| UnknownElement (name : string).

(** The statics of the class, with the heap of meta data objects and the
    log. [_parameterMetaDataLoaded] starts [false] and the map empty. *)
Record MetaStore := {
  _parameterMetaDataLoaded : bool;
  _mapParameterName2FactMetaData : gmap string ptr;
  objects : gmap ptr FactMetaData;
  allocated : nat;
  messages : list LogMsg
}.

Definition MetaStore_init : MetaStore :=
  {| _parameterMetaDataLoaded := false;
     _mapParameterName2FactMetaData := ∅;
     objects := ∅; allocated := 0; messages := [] |}.

Definition set_loaded (g : MetaStore) : MetaStore :=
  {| _parameterMetaDataLoaded := true;
     _mapParameterName2FactMetaData := _mapParameterName2FactMetaData g;
     objects := objects g; allocated := allocated g;
     messages := messages g |}.

Definition say (m : LogMsg) (g : MetaStore) : MetaStore :=
  {| _parameterMetaDataLoaded := _parameterMetaDataLoaded g;
     _mapParameterName2FactMetaData := _mapParameterName2FactMetaData g;
     objects := objects g; allocated := allocated g;
     messages := messages g ++ [m] |}.

(** [new FactMetaData(...)]: the next free address receives the object. *)
Definition alloc (m : FactMetaData) (g : MetaStore) : ptr * MetaStore :=
  (allocated g,
   {| _parameterMetaDataLoaded := _parameterMetaDataLoaded g;
      _mapParameterName2FactMetaData := _mapParameterName2FactMetaData g;
      objects := <[allocated g := m]> (objects g);
      allocated := S (allocated g);
      messages := messages g |}).

(** [_mapParameterName2FactMetaData[name] = p]. *)
Definition map_set (name : string) (p : ptr) (g : MetaStore) : MetaStore :=
  {| _parameterMetaDataLoaded := _parameterMetaDataLoaded g;
     _mapParameterName2FactMetaData :=
       <[name := p]> (_mapParameterName2FactMetaData g);
     objects := objects g; allocated := allocated g;
     messages := messages g |}.

(** A write through the pointer [p]: [p->setter(...)]. *)
Definition poke (p : ptr) (f : FactMetaData -> FactMetaData) (g : MetaStore)
  : MetaStore :=
  {| _parameterMetaDataLoaded := _parameterMetaDataLoaded g;
     _mapParameterName2FactMetaData := _mapParameterName2FactMetaData g;
     objects := alter f p (objects g); allocated := allocated g;
     messages := messages g |}.

(** The states of the XML walk. *)
Inductive XmlState :=
| XmlStateNone
| XmlStateFoundParameters
| XmlStateFoundVersion
| XmlStateFoundGroup
| XmlStateFoundParameter.

#[global] Instance XmlState_eq_dec : EqDecision XmlState.
Proof. solve_decision. Defined.

(** The locals of [_loadParameterFactMetaData] that live across the
    iterations of its loop. *)
Record Locals := {
  factGroup : string;
  metaData : option ptr;
  xmlState : XmlState;
  badMetaData : bool
}.

Definition Locals_init : Locals :=
  {| factGroup := ""; metaData := None;
     xmlState := XmlStateNone; badMetaData := true |}.

Definition set_xmlState (s : XmlState) (l : Locals) : Locals :=
  {| factGroup := factGroup l; metaData := metaData l;
     xmlState := s; badMetaData := badMetaData l |}.

(** How one iteration of the loop ends: it goes on to [xml.readNext()],
    it returns from the function, or it dereferences a null pointer or
    fails a [Q_ASSERT]. *)
Inductive Flow :=
| Next (xml : QXmlStreamReader) (l : Locals) (g : MetaStore)
| Return (g : MetaStore)
| Abort.

(** [metaData->...]: the pointer must not be null. *)
Definition deref (l : Locals) (g : MetaStore)
  (k : ptr -> FactMetaData -> Flow) : Flow :=
  match metaData l with
  | None => Abort
  | Some p =>
      match objects g !! p with
      | None => Abort
      | Some m => k p m
      end
  end.

(** The element names the chains of [if (elementName == ...)] tell apart:
    first the elements of the document structure, then, inside a
    parameter, its meta data elements. *)
Inductive ElementKind :=
| parameters | version | group | parameter | other_element.

#[global] Instance ElementKind_eq_dec : EqDecision ElementKind.
Proof. solve_decision. Defined.

Definition element_kind (elementName : string) : ElementKind :=
  if decide (elementName = "parameters") then parameters
  else if decide (elementName = "version") then version
  else if decide (elementName = "group") then group
  else if decide (elementName = "parameter") then parameter
  else other_element.

Inductive MetaElement :=
| short_desc | long_desc | min_ | max_ | unit_ | decimal | reboot_required
| values | value | unknown_element.

Definition meta_element (elementName : string) : MetaElement :=
  if decide (elementName = "short_desc") then short_desc
  else if decide (elementName = "long_desc") then long_desc
  else if decide (elementName = "min") then min_
  else if decide (elementName = "max") then max_
  else if decide (elementName = "unit") then unit_
  else if decide (elementName = "decimal") then decimal
  else if decide (elementName = "reboot_required") then reboot_required
  else if decide (elementName = "values") then values
  else if decide (elementName = "value") then value
  else unknown_element.

Section Loader.

Context `{FactMetaDataOps}.

(** The branch of a [<parameter>] start element. *)
Definition start_parameter (xml : QXmlStreamReader)
  (attrs : list (string * string)) (l : Locals) (g : MetaStore) : Flow :=
  if decide (xmlState l ≠ XmlStateFoundGroup) then Return (say BadlyFormedXML g)
  else
    if (negb (hasAttribute attrs "name") || negb (hasAttribute attrs "type"))%bool
    then Return (say BadlyFormedXML g)
    else
      let name := attribute_value attrs "name" in
      let type := attribute_value attrs "type" in
      let strDefault := attribute_value attrs "default" in
      let '(foundType, unknownType) := stringToType type in
      if unknownType then Return (say (BadType type name) g)
      else
        let '(p, g) := alloc (FactMetaData_new foundType) g in
        if decide (is_Some (_mapParameterName2FactMetaData g !! name)) then
          let g := say (DuplicateParameter name) g in
          let g := map_set name p g in
          Next xml
            {| factGroup := factGroup l; metaData := Some p;
               xmlState := XmlStateFoundParameter; badMetaData := true |} g
        else
          let g := map_set name p g in
          let g := poke p (setName name) g in
          let g := poke p (setGroup (factGroup l)) g in
          let l' :=
            {| factGroup := factGroup l; metaData := Some p;
               xmlState := XmlStateFoundParameter;
               badMetaData := badMetaData l |} in
          if (hasAttribute attrs "default"
              && negb (bool_decide (strDefault = "")))%bool then
            match objects g !! p with
            | None => Abort
            | Some m =>
                match convertAndValidateRaw m (QStringV strDefault) false with
                | inl varDefault =>
                    Next xml l' (poke p (setRawDefaultValue varDefault) g)
                | inr errorString =>
                    Next xml l' (say (InvalidDefault name errorString) g)
                end
            end
          else Next xml l' g.

(** The last branch of the start element chain: a meta data element of
    the parameter being read. *)
Definition start_other (elementName : string) (xml : QXmlStreamReader)
  (attrs : list (string * string)) (l : Locals) (g : MetaStore) : Flow :=
  if decide (xmlState l ≠ XmlStateFoundParameter) then Return (say BadlyFormedXML g)
  else if badMetaData l then Next xml l g
  else
    match meta_element elementName with
    | short_desc =>
        deref l g (fun p _ =>
          let '(text, xml) := readElementText xml in
          Next xml l (poke p (setShortDescription (replace_newlines text)) g))
    | long_desc =>
        deref l g (fun p _ =>
          let '(text, xml) := readElementText xml in
          Next xml l (poke p (setLongDescription (replace_newlines text)) g))
    | min_ =>
        deref l g (fun p m =>
          let '(text, xml) := readElementText xml in
          match convertAndValidateRaw m (QStringV text) true with
          | inl varMin => Next xml l (poke p (setRawMin varMin) g)
          | inr errorString =>
              Next xml l (say (InvalidMin (md_name m) text errorString) g)
          end)
    | max_ =>
        deref l g (fun p m =>
          let '(text, xml) := readElementText xml in
          match convertAndValidateRaw m (QStringV text) true with
          | inl varMax => Next xml l (poke p (setRawMax varMax) g)
          | inr errorString =>
              Next xml l (say (InvalidMax (md_name m) text errorString) g)
          end)
    | unit_ =>
        deref l g (fun p _ =>
          let '(text, xml) := readElementText xml in
          Next xml l (poke p (setRawUnits text) g))
    | decimal =>
        deref l g (fun p m =>
          let '(text, xml) := readElementText xml in
          let '(varDecimals, convertOk) := QVariant_toUInt text in
          if convertOk
          then Next xml l (poke p (setDecimalPlaces (to_int varDecimals)) g)
          else Next xml l (say (InvalidDecimals (md_name m) text) g))
    | reboot_required =>
        deref l g (fun p _ =>
          let '(text, xml) := readElementText xml in
          if equals_true_nocase text
          then Next xml l (poke p (setRebootRequired true) g)
          else Next xml l g)
    | values => Next xml l g
    | value =>
        let enumValueStr := attribute_value attrs "code" in
        let '(enumString, xml) := readElementText xml in
        deref l g (fun p m =>
          match convertAndValidateRaw m (QStringV enumValueStr) false with
          | inl enumValue =>
              Next xml l (poke p (addEnumInfo enumString enumValue) g)
          | inr errorString =>
              Next xml l
                (say (InvalidEnumValue (md_name m) enumValueStr errorString) g)
          end)
    | unknown_element => Next xml l (say (UnknownElement elementName) g)
    end.

(** The start element chain of the loop body. *)
Definition start_element (elementName : string) (attrs : list (string * string))
  (xml : QXmlStreamReader) (l : Locals) (g : MetaStore) : Flow :=
  match element_kind elementName with
  | parameters =>
      if decide (xmlState l ≠ XmlStateNone) then Return (say BadlyFormedXML g)
      else Next xml (set_xmlState XmlStateFoundParameters l) g
  | version =>
      if decide (xmlState l ≠ XmlStateFoundParameters)
      then Return (say BadlyFormedXML g)
      else
        let l := set_xmlState XmlStateFoundVersion l in
        let '(strVersion, xml) := readElementText xml in
        match QString_toInt strVersion with
        | None => Return (say BadlyFormedXML g)
        | Some intVersion =>
            if decide (intVersion <= 2)
            then Return (say (VersionTooOld intVersion) g)
            else Next xml l g
        end
  | group =>
      if decide (xmlState l ≠ XmlStateFoundVersion)
      then Return (say VersionNotFound g)
      else
        let l := set_xmlState XmlStateFoundGroup l in
        if negb (hasAttribute attrs "name") then Return (say BadlyFormedXML g)
        else
          Next xml
            {| factGroup := attribute_value attrs "name";
               metaData := metaData l;
               xmlState := xmlState l; badMetaData := badMetaData l |} g
  | parameter => start_parameter xml attrs l g
  | other_element => start_other elementName xml attrs l g
  end.

(** The end element chain of the loop body. *)
Definition end_element (elementName : string) (xml : QXmlStreamReader)
  (l : Locals) (g : MetaStore) : Flow :=
  match element_kind elementName with
  | parameter =>
      deref l g (fun p m =>
        let g :=
          match md_rawDefaultValue m with
          | Some d =>
              match convertAndValidateRaw m d false with
              | inl _ => g
              | inr errorString => say (InvalidDefault (md_name m) errorString) g
              end
          | None => g
          end in
        Next xml
          {| factGroup := factGroup l; metaData := None;
             xmlState := XmlStateFoundGroup; badMetaData := false |} g)
  | group => Next xml (set_xmlState XmlStateFoundVersion l) g
  | parameters => Next xml (set_xmlState XmlStateFoundParameters l) g
  | _ => Next xml l g
  end.

(** One iteration of [while (!xml.atEnd())], up to [xml.readNext()]. *)
Definition loop_body (xml : QXmlStreamReader) (l : Locals) (g : MetaStore)
  : Flow :=
  match tokenType xml with
  | StartElement elementName attrs => start_element elementName attrs xml l g
  | EndElement elementName => end_element elementName xml l g
  | _ => Next xml l g
  end.

(** How the function ends. *)
Inductive Outcome :=
| Finished (g : MetaStore)
| Crashed
| OutOfFuel.

(** The loop. Each iteration moves the reader forward, so the number of
    tokens bounds the number of iterations ([parse_loop_total]). *)
Fixpoint parse_loop (fuel : nat) (xml : QXmlStreamReader) (l : Locals)
  (g : MetaStore) : Outcome :=
  match fuel with
  | O => OutOfFuel
  | S fuel =>
      if atEnd xml then Finished g
      else
        match loop_body xml l g with
        | Next xml l g => parse_loop fuel (readNext xml) l g
        | Return g => Finished g
        | Abort => Crashed
        end
  end.

(** The parameter file the function opens: unit test builds always take
    the resource, other builds take the downloaded file when it exists.
    The resource is compiled into the program, so the two assertions on
    the file hold. *)
Record Files := {
  runningUnitTests : bool;
  downloadedMetaData : option (list Token);
  resourceMetaData : list Token
}.

Definition parameterFile (fs : Files) : list Token :=
  if runningUnitTests fs then resourceMetaData fs
  else
    match downloadedMetaData fs with
    | Some data => data
    | None => resourceMetaData fs
    end.

(** [PX4ParameterMetaData::_loadParameterFactMetaData]. *)
Definition _loadParameterFactMetaData (fs : Files) (g : MetaStore) : Outcome :=
  if _parameterMetaDataLoaded g then Finished g
  else
    let g := set_loaded g in
    if decide (size (_mapParameterName2FactMetaData g) ≠ 0%nat) then Crashed
    else
      let xml := QXmlStreamReader_new (parameterFile fs) in
      if hasError xml then Finished (say BadlyFormedXML g)
      else parse_loop (2 + length (upcoming xml)) xml Locals_init g.

(** A [Fact] as far as the meta data code sees it. *)
Record Fact := {
  fact_name : string;
  fact_type : ValueType_t;
  fact_rawValue : QVariant;
  fact_metaData : option ptr
}.

Definition setMetaData (p : ptr) (f : Fact) : Fact :=
  {| fact_name := fact_name f; fact_type := fact_type f;
     fact_rawValue := fact_rawValue f; fact_metaData := Some p |}.

(** [PX4ParameterMetaData::addMetaDataToFact]: the fact and the statics
    after the call, or [None] when the load crashed. *)
Definition addMetaDataToFact (fs : Files) (fact : Fact) (g : MetaStore)
  : option (Fact * MetaStore) :=
  match _loadParameterFactMetaData fs g with
  | Finished g =>
      match _mapParameterName2FactMetaData g !! fact_name fact with
      | Some p => Some (setMetaData p fact, g)
      | None =>
          let '(p, g) := alloc (FactMetaData_new (fact_type fact)) g in
          Some (setMetaData p fact, g)
      end
  | _ => None
  end.

End Loader.

(* ===================================================================== *)
(** ** ParameterLoader: the synchronization engine *)
(* ===================================================================== *)

(** The member variables of [class ParameterLoader] as the header
    declares them ([QMap] as [gmap], the [Fact*] held in the variant map
    as the fact itself). *)
Record ParameterLoader := {
  _mapParameterName2Variant : gmap Z (gmap string Fact);
  _mapParameterId2Name : gmap Z (gmap Z string);
  _parametersReady : bool;
  _initialLoadComplete : bool;
  _defaultComponentId : Z;
  _paramCountMap : gmap Z Z;
  _waitingReadParamIndexMap : gmap Z (gmap Z Z);
  _waitingReadParamNameMap : gmap Z (gmap string Z);
  _waitingWriteParamNameMap : gmap Z (gmap string Z);
  _failedReadParamIndexMap : gmap Z (list Z);
  _totalParamCount : Z
}.

(** [static const int _maxInitialLoadRetry = 10]. *)
Definition _maxInitialLoadRetry : Z := 10.

(** [MAV_COMP_ID_ALL] of the MAVLink headers, and the id that asks for
    the default component ("-1=default component" in the header). *)
Definition MAV_COMP_ID_ALL : Z := 0.
Definition defaultComponentId : Z := -1.

(** The engine as its constructor leaves it: nothing known, not ready. *)
Definition ParameterLoader_new : ParameterLoader :=
  {| _mapParameterName2Variant := ∅; _mapParameterId2Name := ∅;
     _parametersReady := false; _initialLoadComplete := false;
     _defaultComponentId := defaultComponentId;
     _paramCountMap := ∅;
     _waitingReadParamIndexMap := ∅; _waitingReadParamNameMap := ∅;
     _waitingWriteParamNameMap := ∅; _failedReadParamIndexMap := ∅;
     _totalParamCount := 0 |}.

(** The signals of the header ([parametersReady]) and what the engine
    hands to the transport and reports. *)
Inductive Signal :=
| parametersReady (missingParameters : bool)
| RequestParameterList (componentId : Z)
| ReadByIndex (componentId : Z) (paramIndex : Z)
| ReadByName (componentId : Z) (paramName : string)
| WriteByName (componentId : Z) (paramName : string) (value : QVariant)
| WriteAbandoned (componentId : Z) (paramName : string)
| WriteMismatch (componentId : Z) (paramName : string)
| SaveToCache.

#[global] Instance Signal_eq_dec : EqDecision Signal.
Proof. solve_decision. Defined.

(** The keys of a [QMap<int, ...>], in the order [keys()] gives them. *)
Definition keys_sorted {V} (m : gmap Z V) : list Z :=
  merge_sort Z.le (elements (dom m)).

(** A map of components rebuilt component by component: [f c] for every
    [c] of [keys]. *)
Definition per_component {V} (keys : gset Z) (f : Z -> V) : gmap Z V :=
  set_to_map (fun c => (c, f c)) keys.

(** Modelled from the spec: the failed index set of a component (kept in
    the [QList] of the header): an index joins it once. *)
Definition add_failed (l : list Z) (i : Z) : list Z :=
  if decide (i ∈ l) then l else l ++ [i].

Definition add_all_failed (l : list Z) (idxs : list Z) : list Z :=
  foldl add_failed l idxs.

(** The indices a component's index-to-name map resolves to [name]. *)
Definition indices_of_name (m : gmap Z string) (name : string) : list Z :=
  filter (fun i => m !! i = Some name) (merge_sort Z.le (elements (dom m))).

(** Modelled from the spec: the retry step of the waiting parameter
    timeout on one pending map (the code is in [ParameterLoader.cc], not
    part of the sources): every retry count is incremented, and the
    entries whose count then exceeds the retry budget leave the map. *)
Definition bump `{Countable K} (m : gmap K Z) : gmap K Z :=
  filter (fun kv => kv.2 <= _maxInitialLoadRetry) (Z.succ <$> m).

(** Modelled from the spec: the entries that leave the map in that step. *)
Definition exhausted `{Countable K} (m : gmap K Z) : gmap K Z :=
  filter (fun kv => _maxInitialLoadRetry < kv.2) (Z.succ <$> m).

(** Modelled from the spec: the pending reads by index of a component on
    entry to bulk loading: every index of the announced count is awaited,
    with no retry yet. *)
Definition all_pending (count : Z) : gmap Z Z :=
  gset_to_gmap 0 (list_to_set (seqZ 0 count)).

Implicit Types (st : ParameterLoader) (c i : Z) (name : string).

(** Modelled from the spec: the state of index [i] of component [c], of
    the states a parameter passes through (Unrequested, Pending,
    Resolved or Failed): Pending while a read by index waits for it,
    Failed once in the failed set, Resolved when the index has its name
    and value and is neither. *)
Definition is_pending st c i : bool :=
  bool_decide (is_Some ((_waitingReadParamIndexMap st !!! c) !! i)).

Definition is_failed st c i : bool :=
  bool_decide (i ∈ _failedReadParamIndexMap st !!! c).

Definition is_resolved st c i : bool :=
  (bool_decide (is_Some ((_mapParameterId2Name st !!! c) !! i))
   && negb (is_pending st c i) && negb (is_failed st c i))%bool.

(** Modelled from the spec: the expected count of a component and the
    numbers of its resolved and failed indices. *)
Definition expected_count st c : Z := default 0 (_paramCountMap st !! c).

Definition resolved_count st c : Z :=
  Z.of_nat (length (filter (fun i => is_resolved st c i = true)
                           (seqZ 0 (expected_count st c)))).

Definition failed_count st c : Z :=
  Z.of_nat (length (_failedReadParamIndexMap st !!! c)).

(** Modelled from the spec: the completion condition: for every
    component with a known expected count the resolved and the failed
    count add up to it, and some count is known. A count is known only
    once a parameter arrived; while none has, the specification has the
    initial request issued again and the session not failed, so nothing
    is declared then. *)
Definition component_complete st c : bool :=
  bool_decide (resolved_count st c + failed_count st c = expected_count st c).

Definition all_complete st : bool :=
  bool_decide (_paramCountMap st ≠ ∅
               ∧ set_Forall (fun c => component_complete st c = true)
                            (dom (_paramCountMap st))).

(** Modelled from the spec: the missing parameters flag: some failed
    index exists, in any component. *)
Definition any_failed st : bool :=
  bool_decide (Exists (fun c => _failedReadParamIndexMap st !!! c ≠ [])
                      (keys_sorted (_failedReadParamIndexMap st))).

(** Modelled from the spec: the default component heuristic: the
    component that announced the richest parameter set (the smallest id
    among equals). *)
Definition richest_component st : Z :=
  (foldl (fun best c =>
            if decide (expected_count st best.1 < expected_count st c
                       ∨ best.2 = false)
            then (c, true) else best)
         (_defaultComponentId st, false)
         (keys_sorted (_paramCountMap st))).1.

(** Modelled from the spec: [_checkInitialLoadComplete], whose body is in
    [ParameterLoader.cc], not part of the sources. Readiness is declared
    once, when the completion condition holds; the flag of the signal is
    the missing parameters flag; without missing parameters the mirror
    is saved to the cache. *)
Definition _checkInitialLoadComplete st : ParameterLoader * list Signal :=
  if _initialLoadComplete st then (st, [])
  else if all_complete st then
    let missing := any_failed st in
    ({| _mapParameterName2Variant := _mapParameterName2Variant st;
        _mapParameterId2Name := _mapParameterId2Name st;
        _parametersReady := negb missing;
        _initialLoadComplete := true;
        _defaultComponentId := richest_component st;
        _paramCountMap := _paramCountMap st;
        _waitingReadParamIndexMap := _waitingReadParamIndexMap st;
        _waitingReadParamNameMap := _waitingReadParamNameMap st;
        _waitingWriteParamNameMap := _waitingWriteParamNameMap st;
        _failedReadParamIndexMap := _failedReadParamIndexMap st;
        _totalParamCount := _totalParamCount st |},
     parametersReady missing :: (if missing then [] else [SaveToCache]))
  else (st, []).

(** Modelled from the spec: [_actualComponentId] (body not part of the
    sources): the unspecified component id falls back to the default
    component. *)
Definition _actualComponentId st c : Z :=
  if decide (c = defaultComponentId) then _defaultComponentId st else c.

(** Modelled from the spec: the fact a notification stores: the name, the
    type and the value it carries, on the live object of the key when
    there is one. *)
Definition updated_fact (facts : gmap string Fact) name (type : ValueType_t)
  (value : QVariant) : Fact :=
  {| fact_name := name; fact_type := type; fact_rawValue := value;
     fact_metaData :=
       match facts !! name with
       | Some old => fact_metaData old
       | None => None
       end |}.

(** Modelled from the spec: the state after an inbound parameter
    notification, before the completion check ([_parameterUpdate], body
    not part of the sources). The first notification of a component
    announces its expected count, and every index of the component is
    then awaited; the notification resolves its index to its name if
    new, stores the value, and leaves whichever pending map it was in.
    A pending write is resolved by any notification of its name: the
    write map of the header keeps a retry count for a name and no value
    to compare an echo with, and the design notes of the specification
    give the policy of the source as accepting the echo as it is. *)
Definition update_state st (componentId : Z) (parameterName : string)
  (parameterCount parameterId : Z) (type : ValueType_t) (value : QVariant)
  : ParameterLoader :=
  let known : option Z := _paramCountMap st !! componentId in
  let waitingIndex : gmap Z Z :=
    match known with
    | Some _ => _waitingReadParamIndexMap st !!! componentId
    | None => all_pending parameterCount
    end in
  let id2name : gmap Z string := _mapParameterId2Name st !!! componentId in
  let facts : gmap string Fact := _mapParameterName2Variant st !!! componentId in
  {| _mapParameterName2Variant :=
       <[componentId :=
           <[parameterName := updated_fact facts parameterName type value]> facts]>
         (_mapParameterName2Variant st);
     _mapParameterId2Name :=
       <[componentId :=
           match id2name !! parameterId with
           | Some _ => id2name
           | None => <[parameterId := parameterName]> id2name
           end]> (_mapParameterId2Name st);
     _parametersReady := _parametersReady st;
     _initialLoadComplete := _initialLoadComplete st;
     _defaultComponentId := _defaultComponentId st;
     _paramCountMap :=
       match known with
       | Some _ => _paramCountMap st
       | None => <[componentId := parameterCount]> (_paramCountMap st)
       end;
     _waitingReadParamIndexMap :=
       <[componentId := delete parameterId waitingIndex]>
         (_waitingReadParamIndexMap st);
     _waitingReadParamNameMap :=
       <[componentId :=
           delete parameterName (_waitingReadParamNameMap st !!! componentId)]>
         (_waitingReadParamNameMap st);
     _waitingWriteParamNameMap :=
       <[componentId :=
           delete parameterName (_waitingWriteParamNameMap st !!! componentId)]>
         (_waitingWriteParamNameMap st);
     _failedReadParamIndexMap := _failedReadParamIndexMap st;
     _totalParamCount :=
       match known with
       | Some _ => _totalParamCount st
       | None => _totalParamCount st + parameterCount
       end |}.

(** Modelled from the spec: the echo of a pending write that differs from
    the value written is logged; the value of the remote is kept. *)
Definition update_mismatch st (componentId : Z) (parameterName : string)
  (value : QVariant) : list Signal :=
  match (_waitingWriteParamNameMap st !!! componentId) !! parameterName,
        (_mapParameterName2Variant st !!! componentId) !! parameterName with
  | Some _, Some fact =>
      if decide (fact_rawValue fact = value) then []
      else [WriteMismatch componentId parameterName]
  | _, _ => []
  end.

(** Modelled from the spec: [_parameterUpdate] (body not part of the
    sources): the state change above, then the completion check. *)
Definition _parameterUpdate st (componentId : Z) (parameterName : string)
  (parameterCount parameterId : Z) (type : ValueType_t) (value : QVariant)
  : ParameterLoader * list Signal :=
  let '(st', ready) :=
    _checkInitialLoadComplete
      (update_state st componentId parameterName parameterCount parameterId
         type value) in
  (st', update_mismatch st componentId parameterName value ++ ready).

(** Modelled from the spec: the failed set of a component after a
    timeout: the indices whose read by index ran out of retries join it,
    and so do the indices of the names whose read by name did. *)
Definition failed_after st c : list Z :=
  add_all_failed (_failedReadParamIndexMap st !!! c)
    (keys_sorted (exhausted (_waitingReadParamIndexMap st !!! c))
     ++ flat_map (indices_of_name (_mapParameterId2Name st !!! c))
                 (map_to_list (exhausted (_waitingReadParamNameMap st !!! c))).*1).

(** Modelled from the spec: what a timeout sends for one component: the
    pending reads and writes still within the budget are issued again,
    the writes out of it are reported as abandoned. *)
Definition reissued st c : list Signal :=
  (ReadByIndex c <$> keys_sorted (bump (_waitingReadParamIndexMap st !!! c)))
  ++ (ReadByName c <$> (map_to_list (bump (_waitingReadParamNameMap st !!! c))).*1)
  ++ flat_map (fun name =>
                 match (_mapParameterName2Variant st !!! c) !! name with
                 | Some fact => [WriteByName c name (fact_rawValue fact)]
                 | None => []
                 end)
              (map_to_list (bump (_waitingWriteParamNameMap st !!! c))).*1
  ++ (WriteAbandoned c <$>
        (map_to_list (exhausted (_waitingWriteParamNameMap st !!! c))).*1).

(** The components some pending or failed entry belongs to. *)
Definition waiting_components st : gset Z :=
  dom (_waitingReadParamIndexMap st) ∪ dom (_waitingReadParamNameMap st)
  ∪ dom (_waitingWriteParamNameMap st) ∪ dom (_failedReadParamIndexMap st).

(** Modelled from the spec: the state after the waiting parameter
    timeout, before the completion check ([_waitingParamTimeout], body
    not part of the sources): for every pending read or write the retry
    count is incremented; an entry whose count exceeds the budget leaves
    its pending map, a read becomes failed, a write is abandoned. *)
Definition timeout_state st : ParameterLoader :=
  {| _mapParameterName2Variant := _mapParameterName2Variant st;
     _mapParameterId2Name := _mapParameterId2Name st;
     _parametersReady := _parametersReady st;
     _initialLoadComplete := _initialLoadComplete st;
     _defaultComponentId := _defaultComponentId st;
     _paramCountMap := _paramCountMap st;
     _waitingReadParamIndexMap := bump <$> _waitingReadParamIndexMap st;
     _waitingReadParamNameMap := bump <$> _waitingReadParamNameMap st;
     _waitingWriteParamNameMap := bump <$> _waitingWriteParamNameMap st;
     _failedReadParamIndexMap :=
       per_component (waiting_components st) (failed_after st);
     _totalParamCount := _totalParamCount st |}.

(** Modelled from the spec: [_waitingParamTimeout] (body not part of the
    sources): the retry step above with its requests and reports, then
    the completion check. *)
Definition _waitingParamTimeout st : ParameterLoader * list Signal :=
  let '(st', ready) := _checkInitialLoadComplete (timeout_state st) in
  (st',
   flat_map (reissued st) (merge_sort Z.le (elements (waiting_components st)))
   ++ ready).

(** The scope of a refresh: all components, or the one named. *)
Definition targeted (componentID c : Z) : bool :=
  bool_decide (componentID = MAV_COMP_ID_ALL ∨ componentID = c).

(** Modelled from the spec: [refreshAllParameters] (body not part of the
    sources): the pending and failed state of the targeted scope is
    discarded, the engine is back in bulk loading with every index of
    the targeted components awaited anew, the readiness signal is armed
    again and the parameter list is requested. *)
Definition refreshAllParameters st (componentID : Z)
  : ParameterLoader * list Signal :=
  let comps := dom (_paramCountMap st) ∪ waiting_components st in
  ({| _mapParameterName2Variant := _mapParameterName2Variant st;
      _mapParameterId2Name := _mapParameterId2Name st;
      _parametersReady := false;
      _initialLoadComplete := false;
      _defaultComponentId := _defaultComponentId st;
      _paramCountMap := _paramCountMap st;
      _waitingReadParamIndexMap :=
        per_component comps (fun c =>
          if targeted componentID c then all_pending (expected_count st c)
          else _waitingReadParamIndexMap st !!! c);
      _waitingReadParamNameMap :=
        per_component comps (fun c =>
          if targeted componentID c then ∅
          else _waitingReadParamNameMap st !!! c);
      _waitingWriteParamNameMap :=
        per_component comps (fun c =>
          if targeted componentID c then ∅
          else _waitingWriteParamNameMap st !!! c);
      _failedReadParamIndexMap :=
        per_component comps (fun c =>
          if targeted componentID c then []
          else _failedReadParamIndexMap st !!! c);
      _totalParamCount := _totalParamCount st |},
   [RequestParameterList componentID]).

Definition set_waitingReadParamNameMap st (m : gmap Z (gmap string Z))
  : ParameterLoader :=
  {| _mapParameterName2Variant := _mapParameterName2Variant st;
     _mapParameterId2Name := _mapParameterId2Name st;
     _parametersReady := _parametersReady st;
     _initialLoadComplete := _initialLoadComplete st;
     _defaultComponentId := _defaultComponentId st;
     _paramCountMap := _paramCountMap st;
     _waitingReadParamIndexMap := _waitingReadParamIndexMap st;
     _waitingReadParamNameMap := m;
     _waitingWriteParamNameMap := _waitingWriteParamNameMap st;
     _failedReadParamIndexMap := _failedReadParamIndexMap st;
     _totalParamCount := _totalParamCount st |}.

(** Modelled from the spec: [refreshParameter] (body not part of the
    sources): a read by name, outside the index sweep. *)
Definition refreshParameter st (componentId : Z) name
  : ParameterLoader * list Signal :=
  let c := _actualComponentId st componentId in
  (set_waitingReadParamNameMap st
     (<[c := <[name := 0]> (_waitingReadParamNameMap st !!! c)]>
        (_waitingReadParamNameMap st)),
   [ReadByName c name]).

(** Modelled from the spec: [refreshParametersPrefix] (body not part of
    the sources): the same for every known name with the prefix. *)
Definition refreshParametersPrefix st (componentId : Z) (namePrefix : string)
  : ParameterLoader * list Signal :=
  let c := _actualComponentId st componentId in
  let names :=
    filter (fun n => String.prefix namePrefix n = true)
           (elements (dom (_mapParameterName2Variant st !!! c))) in
  (set_waitingReadParamNameMap st
     (<[c := gset_to_gmap 0 (list_to_set names)
             ∪ (_waitingReadParamNameMap st !!! c)]>
        (_waitingReadParamNameMap st)),
   ReadByName c <$> names).

(** Modelled from the spec: the validation of the write boundary (the
    code of [FactMetaData] is not part of the sources): the value must
    have the carrier of the declared type and, for the integer types,
    lie in the range of the type. *)
Definition validRaw (type : ValueType_t) (value : QVariant) : bool :=
  match value with
  | QUIntV z =>
      is_unsigned type
      && match type_range type with
         | Some (lo, hi) => bool_decide (lo <= z <= hi)
         | None => false
         end
  | QIntV z =>
      is_signed type
      && match type_range type with
         | Some (lo, hi) => bool_decide (lo <= z <= hi)
         | None => false
         end
  | QFloatV _ => bool_decide (type = valueTypeFloat)
  | QDoubleV _ => bool_decide (type = valueTypeDouble)
  | _ => false
  end.

Definition setRawValue (value : QVariant) (f : Fact) : Fact :=
  {| fact_name := fact_name f; fact_type := fact_type f;
     fact_rawValue := value; fact_metaData := fact_metaData f |}.

(** Modelled from the spec: the message of a rejected write or line,
    which names the component and the parameter. *)
Definition rejection (c : Z) name : string :=
  "Rejected " +:+ string_of_Z c +:+ ":" +:+ name +:+ ";".

(** Modelled from the spec: the write path, [writeParameterRaw] of the
    specification ([_valueUpdated] and [_writeParameterRaw] of the
    header; bodies not part of the sources): the value is validated
    against the type of the parameter; a valid value is taken by the
    fact, the name is marked pending in the write map with a fresh retry
    count and the write is sent; an invalid value is rejected at once,
    with its message and no traffic. *)
Definition writeParameterRaw st (componentId : Z) name (value : QVariant)
  : ParameterLoader * list Signal * option string :=
  let c := _actualComponentId st componentId in
  let facts : gmap string Fact := _mapParameterName2Variant st !!! c in
  match facts !! name with
  | None => (st, [], Some (rejection c name))
  | Some fact =>
      if validRaw (fact_type fact) value then
        ({| _mapParameterName2Variant :=
              <[c := <[name := setRawValue value fact]> facts]>
                (_mapParameterName2Variant st);
            _mapParameterId2Name := _mapParameterId2Name st;
            _parametersReady := _parametersReady st;
            _initialLoadComplete := _initialLoadComplete st;
            _defaultComponentId := _defaultComponentId st;
            _paramCountMap := _paramCountMap st;
            _waitingReadParamIndexMap := _waitingReadParamIndexMap st;
            _waitingReadParamNameMap := _waitingReadParamNameMap st;
            _waitingWriteParamNameMap :=
              <[c := <[name := 0]> (_waitingWriteParamNameMap st !!! c)]>
                (_waitingWriteParamNameMap st);
            _failedReadParamIndexMap := _failedReadParamIndexMap st;
            _totalParamCount := _totalParamCount st |},
         [WriteByName c name value], None)
      else (st, [], Some (rejection c name))
  end.

(** Modelled from the spec: [_initialRequestTimeout] (body not part of
    the sources): when no parameter arrived at all the bulk request is
    issued again; the session does not fail. *)
Definition _initialRequestTimeout st : ParameterLoader * list Signal :=
  if decide (_paramCountMap st = ∅)
  then (st, [RequestParameterList MAV_COMP_ID_ALL])
  else (st, []).

(** Modelled from the spec: what the Cache Store holds for a vehicle
    (its code and [_tryCacheHashLoad] are in [ParameterLoader.cc], not
    part of the sources): a parameter set that was synchronized in
    full, each component with its parameters in the order of their
    indices, and the hash stored with it. *)
Record CachedParameter := {
  cached_name : string;
  cached_type : ValueType_t;
  cached_value : QVariant
}.

Record CacheEntry := {
  cache_hash : QVariant;
  cache_set : gmap Z (list CachedParameter)
}.

(** Modelled from the spec: the facts of a component as a cached set
    gives them, on the live object of a key that has one. *)
Definition cached_facts (old : gmap string Fact) (ps : list CachedParameter)
  : gmap string Fact :=
  list_to_map
    ((fun p => (cached_name p,
                updated_fact old (cached_name p) (cached_type p)
                  (cached_value p))) <$> ps).

(** Modelled from the spec: the state after a cache hit, before the
    completion check: the cached set is loaded into the mirror and every
    parameter is resolved, the parameter at position [i] of a component
    under the index [i]; nothing is pending and nothing has failed. *)
Definition cache_state st (set : gmap Z (list CachedParameter))
  : ParameterLoader :=
  {| _mapParameterName2Variant :=
       map_imap (fun c ps =>
                   Some (cached_facts (_mapParameterName2Variant st !!! c) ps))
                set;
     _mapParameterId2Name := (fun ps => map_seqZ 0 (cached_name <$> ps)) <$> set;
     _parametersReady := _parametersReady st;
     _initialLoadComplete := _initialLoadComplete st;
     _defaultComponentId := _defaultComponentId st;
     _paramCountMap := (fun ps => Z.of_nat (length ps)) <$> set;
     _waitingReadParamIndexMap := ∅;
     _waitingReadParamNameMap := ∅;
     _waitingWriteParamNameMap := ∅;
     _failedReadParamIndexMap := ∅;
     _totalParamCount :=
       map_fold (fun _ ps total => total + Z.of_nat (length ps)) 0 set |}.

(** Modelled from the spec: [_tryCacheHashLoad] (body not part of the
    sources), the fast path: the hash the remote reports is compared
    with the hash of the store; when they match the cached set is
    loaded and the completion check declares readiness, with no read
    sent; when they differ, or nothing is stored, the engine goes on to
    bulk loading and requests the parameter list. *)
Definition _tryCacheHashLoad st (hash_value : QVariant)
  (stored : option CacheEntry) : ParameterLoader * list Signal :=
  match stored with
  | Some entry =>
      if decide (cache_hash entry = hash_value)
      then _checkInitialLoadComplete (cache_state st (cache_set entry))
      else (st, [RequestParameterList MAV_COMP_ID_ALL])
  | None => (st, [RequestParameterList MAV_COMP_ID_ALL])
  end.

(** Modelled from the spec: the cache timeout (the slot of
    [_cacheTimeoutTimer]; body not part of the sources): the hash of the
    remote did not arrive in time, the engine goes on to bulk loading
    and requests the parameter list. *)
Definition _cacheTimeout st : ParameterLoader * list Signal :=
  (st, [RequestParameterList MAV_COMP_ID_ALL]).

(** The events the engine reacts to: the notifications of the transport,
    the timers, the calls of its clients, and the answer of the remote
    to the request for its hash, with what the Cache Store holds. *)
Inductive Event :=
| ParameterUpdate (componentId : Z) (parameterName : string)
    (parameterCount parameterId : Z) (type : ValueType_t) (value : QVariant)
| WaitingParamTimeout
| InitialRequestTimeout
| RefreshAllParameters (componentID : Z)
| RefreshParameter (componentId : Z) (name : string)
| RefreshParametersPrefix (componentId : Z) (namePrefix : string)
| WriteParameterRaw (componentId : Z) (name : string) (value : QVariant)
| TryCacheHashLoad (hash_value : QVariant) (stored : option CacheEntry)
| CacheTimeout.

Definition step st (e : Event) : ParameterLoader * list Signal :=
  match e with
  | ParameterUpdate c n count i t v => _parameterUpdate st c n count i t v
  | WaitingParamTimeout => _waitingParamTimeout st
  | InitialRequestTimeout => _initialRequestTimeout st
  | RefreshAllParameters c => refreshAllParameters st c
  | RefreshParameter c n => refreshParameter st c n
  | RefreshParametersPrefix c p => refreshParametersPrefix st c p
  | WriteParameterRaw c n v => (writeParameterRaw st c n v).1
  | TryCacheHashLoad h stored => _tryCacheHashLoad st h stored
  | CacheTimeout => _cacheTimeout st
  end.

(** The engine run over a sequence of events: the final state and all
    the signals, in order. *)
Fixpoint run st (events : list Event) : ParameterLoader * list Signal :=
  match events with
  | [] => (st, [])
  | e :: rest =>
      let '(st1, out1) := step st e in
      let '(st2, out2) := run st1 rest in
      (st2, out1 ++ out2)
  end.

(* ===================================================================== *)
(** ** Predicates on the engine *)
(* ===================================================================== *)

(** The per component views of the state. *)
Definition pending_index st c : gmap Z Z := _waitingReadParamIndexMap st !!! c.
Definition pending_name st c : gmap string Z := _waitingReadParamNameMap st !!! c.
Definition pending_write st c : gmap string Z := _waitingWriteParamNameMap st !!! c.
Definition failed st c : list Z := _failedReadParamIndexMap st !!! c.
Definition id2name st c : gmap Z string := _mapParameterId2Name st !!! c.
Definition facts st c : gmap string Fact := _mapParameterName2Variant st !!! c.

(** The retry counts of all pending entries are within the budget. *)
Definition within_budget {K} `{Countable K} (m : gmap K Z) : Prop :=
  ∀ k r, m !! k = Some r → 0 <= r <= _maxInitialLoadRetry.

Definition retry_bounded st : Prop :=
  ∀ c, within_budget (pending_index st c)
       ∧ within_budget (pending_name st c)
       ∧ within_budget (pending_write st c).









Definition is_ready (s : Signal) : bool :=
  match s with parametersReady _ => true | _ => false end.


(** The triple of a parameter: two mirrors agree on a key when the values
    are the same. *)
Definition value_of st c name : option QVariant :=
  fact_rawValue <$> (facts st c !! name).



(** Modelled from the spec: the text form of the mirror (the format is
    in [ParameterLoader.cc], not part of the sources): one line per
    parameter, encoding the component id, the name, the type and the
    value. The fields of a line are separated by a tab and a line ends
    with a line feed; the component id and the code of the type are
    written in decimal notation, the value as [QVariant::toString]
    writes it. *)
Definition tab : ascii := "009"%char.
Definition line_feed : ascii := "010"%char.

(** [QString::split(sep)]. *)
Fixpoint split_on (sep : ascii) (s : string) : list string :=
  match s with
  | EmptyString => [EmptyString]
  | String a rest =>
      if Ascii.eqb a sep then EmptyString :: split_on sep rest
      else
        match split_on sep rest with
        | field :: fields => String a field :: fields
        | [] => [String a EmptyString]
        end
  end.

(** The lines [QTextStream::readLine] returns until [atEnd]. *)
Fixpoint text_lines (s : string) : list string :=
  match s with
  | EmptyString => []
  | String a rest =>
      if Ascii.eqb a line_feed then EmptyString :: text_lines rest
      else
        match text_lines rest with
        | line :: lines => String a line :: lines
        | [] => [String a EmptyString]
        end
  end.

Fixpoint join_tab (fields : list string) : string :=
  match fields with
  | [] => EmptyString
  | [field] => field
  | field :: rest => field +:+ String tab (join_tab rest)
  end.



(** [_factTypeToMavType] and [_mavTypeToFactType] of the header, on the
    codes [MAV_PARAM_TYPE] gives the types of a parameter (the MAVLink
    headers are not part of the sources). *)
Definition _factTypeToMavType (factType : ValueType_t) : Z :=
  match factType with
  | valueTypeUint8 => 1 | valueTypeInt8 => 2
  | valueTypeUint16 => 3 | valueTypeInt16 => 4
  | valueTypeUint32 => 5 | valueTypeInt32 => 6
  | valueTypeFloat => 9 | valueTypeDouble => 10
  end.

Definition _mavTypeToFactType (mavType : Z) : option ValueType_t :=
  if decide (mavType = 1) then Some valueTypeUint8
  else if decide (mavType = 2) then Some valueTypeInt8
  else if decide (mavType = 3) then Some valueTypeUint16
  else if decide (mavType = 4) then Some valueTypeInt16
  else if decide (mavType = 5) then Some valueTypeUint32
  else if decide (mavType = 6) then Some valueTypeInt32
  else if decide (mavType = 9) then Some valueTypeFloat
  else if decide (mavType = 10) then Some valueTypeDouble
  else None.

(** Writing floating point numbers is Qt's business, as reading them
    is: the text of the number with a given bit pattern. *)
Class QtFloatText := {
  float_text : Z -> string;
  double_text : Z -> string
}.

(** [QVariant::toString]. *)
Definition QVariant_toString `{QtFloatText} (v : QVariant) : string :=
  match v with
  | QInvalid => EmptyString
  | QStringV s => s
  | QUIntV z | QIntV z => string_of_Z z
  | QFloatV bits => float_text bits
  | QDoubleV bits => double_text bits
  end.

(** A line as the parser splits it: the four fields, the value still a
    text. *)
Record ParamLine := {
  line_componentId : Z;
  line_name : string;
  line_type : ValueType_t;
  line_value : string
}.

Definition line_text (l : ParamLine) : string :=
  join_tab [ string_of_Z (line_componentId l); line_name l;
             string_of_Z (_factTypeToMavType (line_type l)); line_value l ].

Definition parse_line (s : string) : option ParamLine :=
  match split_on tab s with
  | [componentId; paramName; mavType; valStr] =>
      match QString_toInt componentId,
            QString_toInt mavType ≫= _mavTypeToFactType with
      | Some c, Some type =>
          Some {| line_componentId := c; line_name := paramName;
                  line_type := type; line_value := valStr |}
      | _, _ => None
      end
  | _ => None
  end.

Section TextStream.

Context `{QtFloat} `{QtFloatText}.

(** Modelled from the spec: the lines of one component. *)
Definition lines_of (c : Z) (facts : gmap string Fact) : list ParamLine :=
  (fun kv =>
     {| line_componentId := c; line_name := kv.1;
        line_type := fact_type kv.2;
        line_value := QVariant_toString (fact_rawValue kv.2) |})
  <$> map_to_list facts.

(** Modelled from the spec: the lines of the mirror, one per parameter. *)
Definition export_lines st : list ParamLine :=
  flat_map (fun c => lines_of c (_mapParameterName2Variant st !!! c))
           (keys_sorted (_mapParameterName2Variant st)).

(** Modelled from the spec: [writeParametersToStream] (body not part of
    the sources): the text of the lines, each ended by a line feed. *)
Definition writeParametersToStream st : string :=
  foldr (fun l text => line_text l +:+ String line_feed text) EmptyString
        (export_lines st).

(** Modelled from the spec: the import of one line: the parameter must
    exist with the type of the line and the text of the value must
    convert to that type; the value then goes through the write path,
    validation included. Otherwise the line is rejected. *)
Definition read_line st (l : ParamLine)
  : ParameterLoader * list Signal * option string :=
  let c := line_componentId l in
  let rejected := (st, [], Some (rejection c (line_name l))) in
  match (_mapParameterName2Variant st !!! _actualComponentId st c)
          !! line_name l with
  | Some fact =>
      if decide (fact_type fact = line_type l) then
        match _stringToTypedVariant (line_value l) (line_type l) with
        | (var, true) => writeParameterRaw st c (line_name l) var
        | (_, false) => rejected
        end
      else rejected
  | None => rejected
  end.

(** Modelled from the spec: a line that does not split into the four
    fields is rejected as it is. *)
Definition malformed (line : string) : string :=
  "Rejected line " +:+ line +:+ ";".

(** Modelled from the spec: the import of one line of text. *)
Definition read_text_line st (line : string)
  : ParameterLoader * list Signal * option string :=
  match parse_line line with
  | Some l => read_line st l
  | None => (st, [], Some (malformed line))
  end.

(** Modelled from the spec: the import of the lines of a stream, one
    after the other; the messages add up and a rejected line does not
    stop the import. *)
Fixpoint read_lines st (lines : list string)
  : ParameterLoader * list Signal * string :=
  match lines with
  | [] => (st, [], EmptyString)
  | line :: rest =>
      let '(st1, out1, err) := read_text_line st line in
      let '(st2, out2, errors) := read_lines st1 rest in
      (st2, out1 ++ out2, default EmptyString err +:+ errors)
  end.

(** Modelled from the spec: [readParametersFromStream] (body not part of
    the sources): the stream is read line by line and every line is
    applied through the write path; the messages of the rejected lines
    are gathered in one string, and a rejected line does not stop the
    import. *)
Definition readParametersFromStream st (stream : string)
  : ParameterLoader * list Signal * string :=
  read_lines st (text_lines stream).

(** What the import makes of the text of a value of a type: the value
    it writes, if the text converts and the value passes the
    validation. *)
Definition imported (type : ValueType_t) (valStr : string) : option QVariant :=
  match _stringToTypedVariant valStr type with
  | (var, true) => if validRaw type var then Some var else None
  | (_, false) => None
  end.

Definition line_valid (l : ParamLine) : bool :=
  bool_decide (is_Some (imported (line_type l) (line_value l))).





End TextStream.


(** A Qt that writes every floating point number as 0; it serves where
    only the integer types matter. *)
Definition QtFloatText_none : QtFloatText :=
  {| float_text := fun _ => "0"; double_text := fun _ => "0" |}.

Section TextImport.

Context `{QtFloat}.


End TextImport.


(** A sample engine for the examples: component 1 announced three
    parameters and answered for the indices 0 and 2. *)
Definition sample_events : list Event :=
  [ ParameterUpdate 1 "BAT_N_CELLS" 3 0 valueTypeInt32 (QIntV 3);
    ParameterUpdate 1 "MC_ROLL_P" 3 2 valueTypeUint8 (QUIntV 300) ].

Definition sample_engine : ParameterLoader :=
  (run ParameterLoader_new sample_events).1.

(** A mirror with the parameters of the sample engine and other values. *)
Definition sample_target : ParameterLoader :=
  (run sample_engine
     [ ParameterUpdate 1 "BAT_N_CELLS" 3 0 valueTypeInt32 (QIntV 6);
       ParameterUpdate 1 "MC_ROLL_P" 3 2 valueTypeUint8 (QUIntV 7) ]).1.

(* ===================================================================== *)
(** ** Predicates used by the statements *)
(* ===================================================================== *)

(** [z] lies in the range of the declared type (the floating point types
    have no integer range). *)
Definition in_type_range (type : ValueType_t) (z : Z) : Prop :=
  match type_range type with
  | Some (lo, hi) => lo <= z <= hi
  | None => True
  end.

(** A Qt that reads no floating point text at all; it serves where only
    the integer types matter. *)
Definition QtFloat_none : QtFloat :=
  {| QString_toFloat := fun _ => None; QString_toDouble := fun _ => None |}.

(** The element names the XML walk gives a meaning to. *)
Definition structural (n : string) : Prop := element_kind n ≠ other_element.

#[global] Instance structural_dec n : Decision (structural n).
Proof. unfold structural. apply _. Defined.

(** The streams a [QXmlStreamReader] produces: an end element closes the
    innermost open element. [open] is the stack of open elements. *)
Fixpoint well_nested (open : list string) (ts : list Token) : bool :=
  match ts with
  | [] => true
  | StartElement n _ :: ts' => well_nested (n :: open) ts'
  | EndElement n :: ts' =>
      match open with
      | m :: open' => bool_decide (n = m) && well_nested open' ts'
      | [] => false
      end
  | _ :: ts' => well_nested open ts'
  end.

(** A token inside a parameter element that is not the start or the end
    of one of the structural elements, and not the end of the stream. *)
Definition meta_token (t : Token) : Prop :=
  match t with
  | StartElement n _ => ¬ structural n
  | EndElement n => ¬ structural n
  | Invalid | EndDocument => False
  | _ => True
  end.

(** A meta data object on which nothing but the name, the group and the
    default value was ever set. *)
Definition bare (m : FactMetaData) : Prop :=
  md_shortDescription m = "" ∧ md_longDescription m = ""
  ∧ md_rawMin m = None ∧ md_rawMax m = None ∧ md_rawUnits m = ""
  ∧ md_decimalPlaces m = None ∧ md_rebootRequired m = false
  ∧ md_enumInfo m = [].

(** The heap of meta data objects is consistent: the map points to live
    objects and the addresses in use are below the next free one. *)
Definition heap_ok (g : MetaStore) : Prop :=
  (∀ n p, _mapParameterName2FactMetaData g !! n = Some p →
          is_Some (objects g !! p))
  ∧ (∀ p, is_Some (objects g !! p) → (p < allocated g)%nat).

(** The statics are consistent: moreover an unloaded class has an empty
    map. *)
Definition store_wf (g : MetaStore) : Prop :=
  (_parameterMetaDataLoaded g = false → _mapParameterName2FactMetaData g = ∅)
  ∧ heap_ok g.

(** The pointer of the loop is null or points to a live object, and it is
    not null while a parameter is being read. *)
Definition ptr_ok (l : Locals) (g : MetaStore) : Prop :=
  (∀ p, metaData l = Some p → is_Some (objects g !! p))
  ∧ (xmlState l = XmlStateFoundParameter → is_Some (metaData l)).

(** What one iteration of the loop that goes on can do, case by case of
    the token it stands on. *)
Inductive body_step (xml : QXmlStreamReader) (l : Locals) (g : MetaStore)
  : QXmlStreamReader → Locals → MetaStore → Prop :=
| step_skip :
    (∀ n a, tokenType xml ≠ StartElement n a) →
    (∀ n, tokenType xml ≠ EndElement n) →
    body_step xml l g xml l g
| step_parameters n a :
    tokenType xml = StartElement n a → element_kind n = parameters →
    xmlState l = XmlStateNone →
    body_step xml l g xml (set_xmlState XmlStateFoundParameters l) g
| step_version n a text xml' :
    tokenType xml = StartElement n a → element_kind n = version →
    xmlState l = XmlStateFoundParameters →
    readElementText xml = (text, xml') →
    body_step xml l g xml' (set_xmlState XmlStateFoundVersion l) g
| step_group n a :
    tokenType xml = StartElement n a → element_kind n = group →
    xmlState l = XmlStateFoundVersion →
    body_step xml l g xml
      {| factGroup := attribute_value a "name"; metaData := metaData l;
         xmlState := XmlStateFoundGroup; badMetaData := badMetaData l |} g
| step_parameter n a m bad g' :
    tokenType xml = StartElement n a → element_kind n = parameter →
    xmlState l = XmlStateFoundGroup →
    bare m →
    objects g' = <[allocated g := m]> (objects g) →
    allocated g' = S (allocated g) →
    _parameterMetaDataLoaded g' = _parameterMetaDataLoaded g →
    _mapParameterName2FactMetaData g'
    = <[attribute_value a "name" := allocated g]>
        (_mapParameterName2FactMetaData g) →
    bad = true ∨ bad = badMetaData l →
    body_step xml l g xml
      {| factGroup := factGroup l; metaData := Some (allocated g);
         xmlState := XmlStateFoundParameter; badMetaData := bad |} g'
| step_other n a xml' g' :
    tokenType xml = StartElement n a → element_kind n = other_element →
    xmlState l = XmlStateFoundParameter →
    xml' = xml ∨ (∃ text, readElementText xml = (text, xml')) →
    g' = g ∨ (∃ msg, g' = say msg g)
    ∨ (badMetaData l = false
       ∧ ∃ p f, metaData l = Some p ∧ is_Some (objects g !! p)
                ∧ g' = poke p f g) →
    body_step xml l g xml' l g'
| step_end_parameter n p g' :
    tokenType xml = EndElement n → element_kind n = parameter →
    metaData l = Some p → is_Some (objects g !! p) →
    g' = g ∨ (∃ msg, g' = say msg g) →
    body_step xml l g xml
      {| factGroup := factGroup l; metaData := None;
         xmlState := XmlStateFoundGroup; badMetaData := false |} g'
| step_end_group n :
    tokenType xml = EndElement n → element_kind n = group →
    body_step xml l g xml (set_xmlState XmlStateFoundVersion l) g
| step_end_parameters n :
    tokenType xml = EndElement n → element_kind n = parameters →
    body_step xml l g xml (set_xmlState XmlStateFoundParameters l) g
| step_end_other n :
    tokenType xml = EndElement n →
    element_kind n = version ∨ element_kind n = other_element →
    body_step xml l g xml l g.

(** The stack of open elements the walk can be in: below a structural
    element no parameter element is open. *)
Definition has_param (open : list string) : bool :=
  existsb (fun n => bool_decide (element_kind n = parameter)) open.

Fixpoint shape_ok (open : list string) : bool :=
  match open with
  | [] => true
  | n :: rest =>
      match element_kind n with
      | other_element => shape_ok rest
      | _ => negb (has_param rest) && shape_ok rest
      end
  end.

(** The loop invariant of the walk over a well nested stream. *)
Definition walk_inv (open : list string) (xml : QXmlStreamReader) (l : Locals)
  : Prop :=
  tokenType xml = Invalid
  ∨ (well_nested open (tokenType xml :: upcoming xml) = true
     ∧ shape_ok open = true
     ∧ (has_param open = true → xmlState l = XmlStateFoundParameter)).

(** The invariant of the walk over a well nested stream. *)
Definition safe_inv (xml : QXmlStreamReader) (l : Locals) (g : MetaStore)
  : Prop :=
  heap_ok g ∧ ptr_ok l g ∧ ∃ open, walk_inv open xml l.

(** The invariant behind C5, with [p0] the first address the loader hands
    out: until an object lives there the flag is still set and the
    pointer null; from then on that object is bare, and the loop writes
    to no meta data element through a pointer to it. *)
Definition first_inv (p0 : ptr) (l : Locals) (g : MetaStore) : Prop :=
  (p0 ≤ allocated g)%nat
  ∧ (allocated g = p0 → badMetaData l = true ∧ metaData l = None)
  ∧ ((p0 < allocated g)%nat →
     (∃ m, objects g !! p0 = Some m ∧ bare m)
     ∧ (badMetaData l = true ∨ metaData l ≠ Some p0)).

(** The load called once for each element of a list of file systems, one
    call after the other. *)
Fixpoint load_all `{FactMetaDataOps} (fss : list Files) (g : MetaStore)
  : Outcome :=
  match fss with
  | [] => Finished g
  | fs :: rest =>
      match _loadParameterFactMetaData fs g with
      | Finished g1 => load_all rest g1
      | other => other
      end
  end.

(** *** A sample of the environment, for the examples

    The type names of the fact system read without regard to case, and a
    conversion that reads integers and checks the range of the type
    unless asked to convert only. *)
Definition sample_stringToType (s : string) : ValueType_t * bool :=
  let t := lowercase s in
  if decide (t = "uint8") then (valueTypeUint8, false)
  else if decide (t = "int8") then (valueTypeInt8, false)
  else if decide (t = "uint16") then (valueTypeUint16, false)
  else if decide (t = "int16") then (valueTypeInt16, false)
  else if decide (t = "uint32") then (valueTypeUint32, false)
  else if decide (t = "int32") then (valueTypeInt32, false)
  else if decide (t = "float") then (valueTypeFloat, false)
  else if decide (t = "double") then (valueTypeDouble, false)
  else (valueTypeDouble, true).

Definition sample_convertAndValidateRaw (m : FactMetaData) (v : QVariant)
  (convertOnly : bool) : QVariant + string :=
  match v with
  | QStringV s =>
      match @_stringToTypedVariant QtFloat_none s (md_type m) with
      | (QUIntV z, true) | (QIntV z, true) =>
          match type_range (md_type m) with
          | Some (lo, hi) =>
              if (convertOnly || bool_decide (lo <= z <= hi))%bool
              then inl (if is_unsigned (md_type m) then QUIntV z else QIntV z)
              else inr "Value out of range"
          | None => inr "Invalid number"
          end
      | _ => inr "Invalid number"
      end
  | other => inl other
  end.

Definition sample_ops : FactMetaDataOps :=
  {| stringToType := sample_stringToType;
     convertAndValidateRaw := sample_convertAndValidateRaw |}.

(** A parameter file with three parameters and a duplicate of the second
    one. *)
Definition sample_xml : list Token :=
  [ StartDocument;
    StartElement "parameters" [];
    StartElement "version" []; Characters "3"; EndElement "version";
    StartElement "group" [("name", "Attitude")];
    StartElement "parameter" [("default", "5"); ("name", "ATT_A"); ("type", "INT32")];
    StartElement "short_desc" []; Characters "First"; EndElement "short_desc";
    StartElement "min" []; Characters "0"; EndElement "min";
    EndElement "parameter";
    StartElement "parameter" [("default", "7"); ("name", "ATT_B"); ("type", "INT32")];
    StartElement "short_desc" []; Characters "Second"; EndElement "short_desc";
    StartElement "max" []; Characters "9"; EndElement "max";
    EndElement "parameter";
    StartElement "parameter" [("name", "ATT_B"); ("type", "UINT8")];
    StartElement "short_desc" []; Characters "Again"; EndElement "short_desc";
    EndElement "parameter";
    StartElement "parameter" [("name", "ATT_C"); ("type", "INT32")];
    StartElement "unit" []; Characters "deg"; EndElement "unit";
    EndElement "parameter";
    EndElement "group";
    EndElement "parameters";
    EndDocument ].

Definition sample_files : Files :=
  {| runningUnitTests := true; downloadedMetaData := None;
     resourceMetaData := sample_xml |}.

(** A parameter file of an old format: its version is 2. *)
Definition sample_old_xml : list Token :=
  [ StartDocument;
    StartElement "parameters" [];
    StartElement "version" []; Characters "2"; EndElement "version";
    StartElement "group" [("name", "Attitude")];
    StartElement "parameter" [("name", "ATT_A"); ("type", "INT32")];
    EndElement "parameter";
    EndElement "group";
    EndElement "parameters";
    EndDocument ].

Definition sample_old_files : Files :=
  {| runningUnitTests := true; downloadedMetaData := None;
     resourceMetaData := sample_old_xml |}.

(** The statics after the load of the sample file, a fact the file knows
    and one it does not, and the walk standing on the duplicate. *)
Definition sample_loaded : MetaStore :=
  match @_loadParameterFactMetaData sample_ops sample_files MetaStore_init with
  | Finished g => g
  | _ => MetaStore_init
  end.

Definition sample_fact : Fact :=
  {| fact_name := "ATT_C"; fact_type := valueTypeInt32;
     fact_rawValue := QIntV 1; fact_metaData := None |}.

Definition sample_unknown_fact : Fact :=
  {| fact_name := "SYS_X"; fact_type := valueTypeFloat;
     fact_rawValue := QFloatV 0; fact_metaData := None |}.

Definition sample_store : MetaStore :=
  {| _parameterMetaDataLoaded := true;
     _mapParameterName2FactMetaData := {[ "ATT_B" := 0%nat ]};
     objects :=
       {[ 0%nat := setShortDescription "Second"
                     (setGroup "Attitude"
                        (setName "ATT_B" (FactMetaData_new valueTypeInt32))) ]};
     allocated := 1; messages := [] |}.


(* ===================================================================== *)
(** ** Predicates on the walk of the loader *)
(* ===================================================================== *)

(** The messages that end the load, the message of a duplicate, and the
    messages that are only noted on the way. *)
Definition is_structural_message (msg : LogMsg) : bool :=
  match msg with
  | BadlyFormedXML | VersionTooOld _ | VersionNotFound | BadType _ _ => true
  | _ => false
  end.

Definition is_duplicate_message (msg : LogMsg) : bool :=
  match msg with
  | DuplicateParameter _ => true
  | _ => false
  end.

Definition is_note (msg : LogMsg) : bool :=
  negb (is_structural_message msg) && negb (is_duplicate_message msg).

(** The number of duplicates a log reports. *)
Definition duplicates (log : list LogMsg) : nat :=
  length (List.filter is_duplicate_message log).

(** The setters the loop calls on the object of the parameter being read
    when it meets one of its meta data elements. *)
Inductive meta_setter : (FactMetaData → FactMetaData) → Prop :=
| set_short text : meta_setter (setShortDescription (replace_newlines text))
| set_long text : meta_setter (setLongDescription (replace_newlines text))
| set_min v : meta_setter (setRawMin v)
| set_max v : meta_setter (setRawMax v)
| set_units text : meta_setter (setRawUnits text)
| set_decimals d : meta_setter (setDecimalPlaces d)
| set_reboot : meta_setter (setRebootRequired true)
| set_enum label v : meta_setter (addEnumInfo label v).

(** The statics after the branch of a parameter element of a new name,
    before its default value is looked at. *)
Definition named_store (name : string) (foundType : ValueType_t)
  (factGroup : string) (g : MetaStore) : MetaStore :=
  let p := allocated g in
  poke p (setGroup factGroup)
    (poke p (setName name)
       (map_set name p (alloc (FactMetaData_new foundType) g).2)).

(** The statics after the branch of a parameter element of a name the map
    already holds. *)
Definition duplicate_store (name : string) (foundType : ValueType_t)
  (g : MetaStore) : MetaStore :=
  map_set name (allocated g)
    (say (DuplicateParameter name) (alloc (FactMetaData_new foundType) g).2).

(** The elements whose text the loop reads with [readElementText]: the
    version, and the meta data elements other than [values] and the
    unknown ones. *)
Definition reads_text (n : string) : bool :=
  match element_kind n with
  | version => true
  | other_element =>
      match meta_element n with
      | values | unknown_element => false
      | _ => true
      end
  | _ => false
  end.

Section Iteration.

Context `{FactMetaDataOps}.

(** One iteration of the loop that goes on, branch by branch, with all
    that the branch does. *)
Inductive iteration (xml : QXmlStreamReader) (l : Locals) (g : MetaStore)
  : QXmlStreamReader → Locals → MetaStore → Prop :=
| iter_skip :
    (∀ n a, tokenType xml ≠ StartElement n a) →
    (∀ n, tokenType xml ≠ EndElement n) →
    iteration xml l g xml l g
| iter_parameters n a :
    tokenType xml = StartElement n a → element_kind n = parameters →
    xmlState l = XmlStateNone →
    iteration xml l g xml (set_xmlState XmlStateFoundParameters l) g
| iter_version n a v :
    tokenType xml = StartElement n a → element_kind n = version →
    xmlState l = XmlStateFoundParameters →
    QString_toInt (readElementText xml).1 = Some v → 2 < v →
    iteration xml l g (readElementText xml).2
      (set_xmlState XmlStateFoundVersion l) g
| iter_group n a :
    tokenType xml = StartElement n a → element_kind n = group →
    xmlState l = XmlStateFoundVersion →
    hasAttribute a "name" = true →
    iteration xml l g xml
      {| factGroup := attribute_value a "name"; metaData := metaData l;
         xmlState := XmlStateFoundGroup; badMetaData := badMetaData l |} g
| iter_duplicate n a foundType :
    tokenType xml = StartElement n a → element_kind n = parameter →
    xmlState l = XmlStateFoundGroup →
    stringToType (attribute_value a "type") = (foundType, false) →
    is_Some (_mapParameterName2FactMetaData g !! attribute_value a "name") →
    iteration xml l g xml
      {| factGroup := factGroup l; metaData := Some (allocated g);
         xmlState := XmlStateFoundParameter; badMetaData := true |}
      (duplicate_store (attribute_value a "name") foundType g)
| iter_named n a foundType g' :
    tokenType xml = StartElement n a → element_kind n = parameter →
    xmlState l = XmlStateFoundGroup →
    stringToType (attribute_value a "type") = (foundType, false) →
    _mapParameterName2FactMetaData g !! attribute_value a "name" = None →
    (let g2 := named_store (attribute_value a "name") foundType (factGroup l) g in
     g' = g2
     ∨ (∃ v, g' = poke (allocated g) (setRawDefaultValue v) g2)
     ∨ (∃ e, g' = say (InvalidDefault (attribute_value a "name") e) g2)) →
    iteration xml l g xml
      {| factGroup := factGroup l; metaData := Some (allocated g);
         xmlState := XmlStateFoundParameter; badMetaData := badMetaData l |} g'
| iter_meta_skipped n a :
    tokenType xml = StartElement n a → element_kind n = other_element →
    xmlState l = XmlStateFoundParameter → badMetaData l = true →
    iteration xml l g xml l g
| iter_meta_noted n a xml' g' :
    tokenType xml = StartElement n a → element_kind n = other_element →
    xmlState l = XmlStateFoundParameter → badMetaData l = false →
    xml' = xml ∨ (reads_text n = true ∧ xml' = (readElementText xml).2) →
    g' = g ∨ (∃ msg, is_note msg = true ∧ g' = say msg g) →
    iteration xml l g xml' l g'
| iter_meta_set n a p m f :
    tokenType xml = StartElement n a → element_kind n = other_element →
    xmlState l = XmlStateFoundParameter → badMetaData l = false →
    reads_text n = true →
    metaData l = Some p → objects g !! p = Some m → meta_setter f →
    iteration xml l g (readElementText xml).2 l (poke p f g)
| iter_end_parameter n p m g' :
    tokenType xml = EndElement n → element_kind n = parameter →
    metaData l = Some p → objects g !! p = Some m →
    g' = g ∨ (∃ msg, is_note msg = true ∧ g' = say msg g) →
    iteration xml l g xml
      {| factGroup := factGroup l; metaData := None;
         xmlState := XmlStateFoundGroup; badMetaData := false |} g'
| iter_end_group n :
    tokenType xml = EndElement n → element_kind n = group →
    iteration xml l g xml (set_xmlState XmlStateFoundVersion l) g
| iter_end_parameters n :
    tokenType xml = EndElement n → element_kind n = parameters →
    iteration xml l g xml (set_xmlState XmlStateFoundParameters l) g
| iter_end_other n :
    tokenType xml = EndElement n →
    element_kind n = version ∨ element_kind n = other_element →
    iteration xml l g xml l g.

End Iteration.

(** The reader stands in [data] with the tokens [pre] behind it; the
    reader starts on [NoToken], before the first token of the data. *)
Definition reader_at (data pre : list Token) (xml : QXmlStreamReader) : Prop :=
  NoToken :: data = pre ++ tokenType xml :: upcoming xml.

Definition is_start (t : Token) : bool :=
  match t with
  | StartElement _ _ => true
  | _ => false
  end.

(** A text without a line feed. *)
Fixpoint single_line (s : string) : bool :=
  match s with
  | EmptyString => true
  | String c rest => negb (Ascii.eqb c "010"%char) && single_line rest
  end.

(** An object with descriptions of one line. *)
Definition described (m : FactMetaData) : Prop :=
  single_line (md_shortDescription m) = true
  ∧ single_line (md_longDescription m) = true.

(** The text of an element is closed: text only up to an end element. *)
Fixpoint closes_text (ts : list Token) : bool :=
  match ts with
  | (Characters _ | EntityReference _ | ProcessingInstruction | Comment) :: ts' =>
      closes_text ts'
  | EndElement _ :: _ => true
  | _ => false
  end.

(** Every element whose text the loop reads holds text only. *)
Fixpoint text_elements_closed (ts : list Token) : bool :=
  match ts with
  | [] => true
  | StartElement n _ :: ts' =>
      (if reads_text n then closes_text ts' else true)
      && text_elements_closed ts'
  | _ :: ts' => text_elements_closed ts'
  end.

(** The name of the last group element among the tokens [pre], and [acc]
    when there is none. *)
Fixpoint last_group (acc : string) (pre : list Token) : string :=
  match pre with
  | [] => acc
  | StartElement n a :: rest =>
      last_group
        (if decide (element_kind n = group) then attribute_value a "name"
         else acc) rest
  | _ :: rest => last_group acc rest
  end.

(** The file holds a version element the loader accepts: its text reads
    as an integer above 2. *)
Definition accepted_version (data : list Token) : Prop :=
  ∃ pre elem attrs post v,
    data = pre ++ StartElement elem attrs :: post
    ∧ element_kind elem = version
    ∧ QString_toInt (readElementText_from "" post).1 = Some v
    ∧ 2 < v.

(** Where an entry of the map comes from: a parameter element of the
    file with the name of the entry and the type of its object; the
    object bears the name and the group of the element, the group being
    the one of the last group element before it, unless the name came
    twice, and then the object is the generic one of its type and the
    duplicate is in the log. *)
Definition entry_origin `{FactMetaDataOps} (data : list Token)
  (log : list LogMsg) (n : string) (m : FactMetaData) : Prop :=
  ∃ pre elem attrs post,
    data = pre ++ StartElement elem attrs :: post
    ∧ element_kind elem = parameter
    ∧ attribute_value attrs "name" = n
    ∧ stringToType (attribute_value attrs "type") = (md_type m, false)
    ∧ ((md_name m = n ∧ md_group m = last_group "" pre)
       ∨ (m = FactMetaData_new (md_type m) ∧ DuplicateParameter n ∈ log)).

(** The walk stands in the file, with the group of the last group
    element behind it. *)
Definition walk_at (data : list Token) (xml : QXmlStreamReader) (l : Locals)
  : Prop :=
  tokenType xml = Invalid
  ∨ ∃ pre, reader_at data pre xml ∧ factGroup l = last_group "" pre.

(** The invariant behind [entry_origin]: moreover the generic object of
    a duplicate is out of the reach of the loop. *)
Definition entry_inv `{FactMetaDataOps} (data : list Token) (l : Locals)
  (g : MetaStore) (n : string) (p : ptr) : Prop :=
  (p < allocated g)%nat
  ∧ ∃ m, objects g !! p = Some m
    ∧ ∃ pre elem attrs post,
        data = pre ++ StartElement elem attrs :: post
        ∧ element_kind elem = parameter
        ∧ attribute_value attrs "name" = n
        ∧ stringToType (attribute_value attrs "type") = (md_type m, false)
        ∧ ((md_name m = n ∧ md_group m = last_group "" pre)
           ∨ (m = FactMetaData_new (md_type m)
              ∧ DuplicateParameter n ∈ messages g
              ∧ (badMetaData l = true ∨ metaData l ≠ Some p))).

(** The walk before a version was accepted: nothing is loaded yet, and no
    group element is behind the reader. *)
Definition before_version (data : list Token) (g0 : MetaStore)
  (xml : QXmlStreamReader) (l : Locals) (g : MetaStore) : Prop :=
  (xmlState l = XmlStateNone ∨ xmlState l = XmlStateFoundParameters)
  ∧ metaData l = None
  ∧ _mapParameterName2FactMetaData g = ∅
  ∧ allocated g = allocated g0
  ∧ objects g = objects g0
  ∧ (tokenType xml = Invalid
     ∨ ∃ pre, reader_at data pre xml
              ∧ Forall (fun t => ∀ n a, t = StartElement n a →
                                        element_kind n ≠ group) pre).

(** A token of the body of a document: neither an error nor the end. *)
Definition body_token (t : Token) : Prop := t ≠ Invalid ∧ t ≠ EndDocument.

(** The parameter elements behind the reader have their entries. *)
Definition parameters_read (data : list Token) (g0 : MetaStore)
  (xml : QXmlStreamReader) (g : MetaStore) : Prop :=
  (∃ log, messages g = messages g0 ++ log)
  ∧ ∃ pre, reader_at data pre xml
           ∧ ∀ elem attrs, StartElement elem attrs ∈ pre →
                           element_kind elem = parameter →
                           is_Some (_mapParameterName2FactMetaData g
                                      !! attribute_value attrs "name").

(** *** A parameter element, item by item

    What stands between the start and the end of a parameter element:
    elements with a text the loop reads, the start and the end of the
    other elements (as [values], which wraps the [value] elements), and
    text between the elements. *)
Inductive MetaItem :=
| text_element (n : string) (a : list (string * string)) (text : string)
| open_element (n : string) (a : list (string * string))
| close_element (n : string)
| characters (text : string).

Definition item_tokens (i : MetaItem) : list Token :=
  match i with
  | text_element n a text => [StartElement n a; Characters text; EndElement n]
  | open_element n a => [StartElement n a]
  | close_element n => [EndElement n]
  | characters text => [Characters text]
  end.

Definition item_ok (i : MetaItem) : bool :=
  match i with
  | text_element n _ _ =>
      bool_decide (element_kind n = other_element) && reads_text n
  | open_element n _ =>
      bool_decide (element_kind n = other_element) && negb (reads_text n)
  | close_element n => bool_decide (element_kind n = other_element)
  | characters _ => true
  end.

(** The statics with the object at [p] replaced and messages added. *)
Definition with_object (p : ptr) (m : FactMetaData) (log : list LogMsg)
  (g : MetaStore) : MetaStore :=
  {| _parameterMetaDataLoaded := _parameterMetaDataLoaded g;
     _mapParameterName2FactMetaData := _mapParameterName2FactMetaData g;
     objects := <[p := m]> (objects g);
     allocated := allocated g;
     messages := messages g ++ log |}.

Section Items.

Context `{FactMetaDataOps}.

(** What the loop does to the object of the parameter for one item, and
    the messages it logs. *)
Definition apply_item (i : MetaItem) (m : FactMetaData)
  : FactMetaData * list LogMsg :=
  match i with
  | text_element n a text =>
      match meta_element n with
      | short_desc => (setShortDescription (replace_newlines text) m, [])
      | long_desc => (setLongDescription (replace_newlines text) m, [])
      | min_ =>
          match convertAndValidateRaw m (QStringV text) true with
          | inl varMin => (setRawMin varMin m, [])
          | inr errorString => (m, [InvalidMin (md_name m) text errorString])
          end
      | max_ =>
          match convertAndValidateRaw m (QStringV text) true with
          | inl varMax => (setRawMax varMax m, [])
          | inr errorString => (m, [InvalidMax (md_name m) text errorString])
          end
      | unit_ => (setRawUnits text m, [])
      | decimal =>
          match QVariant_toUInt text with
          | (varDecimals, true) => (setDecimalPlaces (to_int varDecimals) m, [])
          | (_, false) => (m, [InvalidDecimals (md_name m) text])
          end
      | reboot_required =>
          if equals_true_nocase text then (setRebootRequired true m, [])
          else (m, [])
      | value =>
          let enumValueStr := attribute_value a "code" in
          match convertAndValidateRaw m (QStringV enumValueStr) false with
          | inl enumValue => (addEnumInfo text enumValue m, [])
          | inr errorString =>
              (m, [InvalidEnumValue (md_name m) enumValueStr errorString])
          end
      | values | unknown_element => (m, [])
      end
  | open_element n a =>
      match meta_element n with
      | unknown_element => (m, [UnknownElement n])
      | _ => (m, [])
      end
  | close_element _ | characters _ => (m, [])
  end.

Fixpoint apply_items (items : list MetaItem) (m : FactMetaData)
  : FactMetaData * list LogMsg :=
  match items with
  | [] => (m, [])
  | i :: rest =>
      let '(m1, log1) := apply_item i m in
      let '(m2, log2) := apply_items rest m1 in
      (m2, log1 ++ log2)
  end.

(** The object a parameter element of a new name starts with, and the
    message when its default value is refused. *)
Definition new_parameter (attrs : list (string * string)) (type : ValueType_t)
  (factGroup : string) : FactMetaData * list LogMsg :=
  let name := attribute_value attrs "name" in
  let strDefault := attribute_value attrs "default" in
  let m := setGroup factGroup (setName name (FactMetaData_new type)) in
  if (hasAttribute attrs "default" && negb (bool_decide (strDefault = "")))%bool
  then
    match convertAndValidateRaw m (QStringV strDefault) false with
    | inl varDefault => (setRawDefaultValue varDefault m, [])
    | inr errorString => (m, [InvalidDefault name errorString])
    end
  else (m, []).

(** The message of the check of the default value at the end of the
    parameter element. *)
Definition end_parameter_log (m : FactMetaData) : list LogMsg :=
  match md_rawDefaultValue m with
  | Some d =>
      match convertAndValidateRaw m d false with
      | inl _ => []
      | inr errorString => [InvalidDefault (md_name m) errorString]
      end
  | None => []
  end.

End Items.

(** *** More of the sample

    Statics that hold an object before the load, and what the load of
    the sample file makes of them; the second parameter element of the
    sample file, item by item. *)
Definition sample_before : MetaStore :=
  {| _parameterMetaDataLoaded := false;
     _mapParameterName2FactMetaData := ∅;
     objects := {[ 0%nat := FactMetaData_new valueTypeFloat ]};
     allocated := 1; messages := [] |}.

Definition sample_after : MetaStore :=
  match @_loadParameterFactMetaData sample_ops sample_files sample_before with
  | Finished g => g
  | _ => sample_before
  end.

Definition sample_attrs : list (string * string) :=
  [("default", "7"); ("name", "ATT_B"); ("type", "INT32")].

Definition sample_items : list MetaItem :=
  [text_element "short_desc" [] "Second"; characters " ";
   text_element "max" [] "9";
   open_element "values" [];
   text_element "value" [("code", "1")] "On";
   close_element "values"].


(** *** A document, element by element

    The parameter elements of a group with the text between them, the
    groups of a document with the text between them, and what the
    loader makes of each: the locals and the statics after it. *)
Inductive GroupItem :=
| parameter_element (attrs : list (string * string)) (items : list MetaItem)
| group_text (text : string).

Inductive DocumentItem :=
| group_element (attrs : list (string * string)) (content : list GroupItem)
| document_text (text : string).

Definition group_item_tokens (gi : GroupItem) : list Token :=
  match gi with
  | parameter_element attrs items =>
      StartElement "parameter" attrs
      :: flat_map item_tokens items ++ [EndElement "parameter"]
  | group_text text => [Characters text]
  end.

Definition document_item_tokens (di : DocumentItem) : list Token :=
  match di with
  | group_element attrs content =>
      StartElement "group" attrs
      :: flat_map group_item_tokens content ++ [EndElement "group"]
  | document_text text => [Characters text]
  end.

(** The tokens of a document: the parameters element holds the version,
    then the groups. *)
Definition document_tokens (pads : list string) (strVersion : string)
  (content : list DocumentItem) : list Token :=
  StartDocument :: StartElement "parameters" []
  :: map Characters pads
  ++ StartElement "version" [] :: Characters strVersion :: EndElement "version"
  :: flat_map document_item_tokens content
  ++ [EndElement "parameters"; EndDocument].

(** The loop runs from one state to another in some iterations. *)
Definition runs_to `{FactMetaDataOps}
  (xml : QXmlStreamReader) (l : Locals) (g : MetaStore)
  (xml' : QXmlStreamReader) (l' : Locals) (g' : MetaStore) : Prop :=
  ∃ k, ∀ fuel,
    parse_loop (k + fuel) xml l g = parse_loop fuel xml' l' g'.

Section Document.

Context `{FactMetaDataOps}.

Definition group_item_ok (gi : GroupItem) : bool :=
  match gi with
  | parameter_element attrs items =>
      hasAttribute attrs "name" && hasAttribute attrs "type"
      && negb (stringToType (attribute_value attrs "type")).2
      && forallb item_ok items
  | group_text _ => true
  end.

Definition document_item_ok (di : DocumentItem) : bool :=
  match di with
  | group_element attrs content =>
      hasAttribute attrs "name" && forallb group_item_ok content
  | document_text _ => true
  end.

(** A parameter element: a duplicate gets the generic object of its
    type; a new name gets its object, with the meta data elements
    applied when the meta data are trusted. *)
Definition load_parameter (attrs : list (string * string))
  (items : list MetaItem) (s : Locals * MetaStore) : Locals * MetaStore :=
  let '(l, g) := s in
  let name := attribute_value attrs "name" in
  let foundType := (stringToType (attribute_value attrs "type")).1 in
  let p := allocated g in
  let l' :=
    {| factGroup := factGroup l; metaData := None;
       xmlState := XmlStateFoundGroup; badMetaData := false |} in
  if decide (is_Some (_mapParameterName2FactMetaData g !! name))
  then (l', duplicate_store name foundType g)
  else
    let start := new_parameter attrs foundType (factGroup l) in
    let final :=
      if badMetaData l then (start.1, []) else apply_items items start.1 in
    (l',
     {| _parameterMetaDataLoaded := _parameterMetaDataLoaded g;
        _mapParameterName2FactMetaData :=
          <[name := p]> (_mapParameterName2FactMetaData g);
        objects := <[p := final.1]> (objects g);
        allocated := S p;
        messages :=
          messages g ++ start.2 ++ final.2 ++ end_parameter_log final.1 |}).

Definition load_group_item (s : Locals * MetaStore) (gi : GroupItem)
  : Locals * MetaStore :=
  match gi with
  | parameter_element attrs items => load_parameter attrs items s
  | group_text _ => s
  end.

Definition load_group (attrs : list (string * string))
  (content : list GroupItem) (s : Locals * MetaStore) : Locals * MetaStore :=
  let '(l, g) := s in
  let l1 :=
    {| factGroup := attribute_value attrs "name"; metaData := metaData l;
       xmlState := XmlStateFoundGroup; badMetaData := badMetaData l |} in
  let '(l2, g2) := foldl load_group_item (l1, g) content in
  (set_xmlState XmlStateFoundVersion l2, g2).

Definition load_document_item (s : Locals * MetaStore) (di : DocumentItem)
  : Locals * MetaStore :=
  match di with
  | group_element attrs content => load_group attrs content s
  | document_text _ => s
  end.

(** The statics after the load of a document. *)
Definition load_document (content : list DocumentItem) (g : MetaStore)
  : MetaStore :=
  (foldl load_document_item
     (set_xmlState XmlStateFoundVersion Locals_init, g) content).2.

End Document.

(** The sample file as a document. *)
Definition sample_document : list DocumentItem :=
  [ group_element [("name", "Attitude")]
      [ parameter_element [("default", "5"); ("name", "ATT_A"); ("type", "INT32")]
          [text_element "short_desc" [] "First"; text_element "min" [] "0"];
        parameter_element [("default", "7"); ("name", "ATT_B"); ("type", "INT32")]
          [text_element "short_desc" [] "Second"; text_element "max" [] "9"];
        parameter_element [("name", "ATT_B"); ("type", "UINT8")]
          [text_element "short_desc" [] "Again"];
        parameter_element [("name", "ATT_C"); ("type", "INT32")]
          [text_element "unit" [] "deg"] ] ].

(* ===================================================================== *)
(** ** String to typed variant *)
(* ===================================================================== *)

Lemma to_uint_small z : 0 <= z < 2 ^ 32 → to_uint z = z.
Proof. intros Hz. unfold to_uint. apply Z.mod_small. lia. Qed.

Lemma to_int_small z : - 2 ^ 31 <= z < 2 ^ 31 → to_int z = z.
Proof.
  intros Hz. unfold to_int. rewrite Z.mod_small by lia. lia.
Qed.

Lemma read_digits_uint d :
  read_digits (NilEmpty.string_of_uint d) = (NilEmpty.string_of_uint d, "").
Proof. induction d; simpl; try done; by rewrite IHd. Qed.

Lemma string_of_uint_digits p :
  ∃ (a : ascii) r, NilEmpty.string_of_uint (Pos.to_uint p) = String a r
                   ∧ isDigit a = true.
Proof.
  pose proof (DecimalPos.Unsigned.to_uint_nonnil p) as Hn.
  destruct (Pos.to_uint p); try done; simpl; eauto.
Qed.

Lemma digits_read p :
  let s := NilEmpty.string_of_uint (Pos.to_uint p) in
  NilZero.string_of_uint (Pos.to_uint p) = s
  ∧ skip_spaces s = s ∧ read_sign s = (false, s)
  ∧ ∃ (a : ascii) r, s = String a r.
Proof.
  intros s. unfold s.
  destruct (string_of_uint_digits p) as (a & r & Hs & Ha).
  pose proof (DecimalPos.Unsigned.to_uint_nonnil p) as Hn.
  split_and!.
  - by destruct (Pos.to_uint p).
  - rewrite Hs. by destruct a as [[] [] [] [] [] [] [] []].
  - rewrite Hs. by destruct a as [[] [] [] [] [] [] [] []].
  - eauto.
Qed.

(** The decimal notation of an integer reads as its sign and its
    absolute value. *)
Lemma integer_text_of_Z z :
  integer_text (string_of_Z z) = Some (bool_decide (z < 0), Z.abs z).
Proof.
  unfold integer_text, string_of_Z.
  destruct z as [|p|p]; [done| |];
    cbn [Z.to_int NilZero.string_of_int];
    destruct (digits_read p) as (-> & Hsk & Hsg & a & r & Hs).
  - rewrite Hsk, Hsg, read_digits_uint. rewrite Hs at 1.
    simpl skip_spaces. cbv iota. rewrite NilEmpty.usu. simpl. do 2 f_equal.
    unfold Z.of_uint. by rewrite DecimalPos.Unsigned.of_to.
  - cbn [skip_spaces]. change (isSpace "-") with false. cbv iota.
    cbn [read_sign]. rewrite read_digits_uint. rewrite Hs at 1.
    simpl skip_spaces. cbv iota. rewrite NilEmpty.usu. simpl. do 2 f_equal.
    unfold Z.of_uint. by rewrite DecimalPos.Unsigned.of_to.
Qed.

Lemma integer_text_nonneg s minus n :
  integer_text s = Some (minus, n) → 0 <= n.
Proof.
  unfold integer_text. destruct (read_sign _) as [m s1].
  destruct (read_digits s1) as [digits rest].
  destruct digits; [done|]. destruct (skip_spaces rest); [|done].
  destruct (NilEmpty.uint_of_string _) as [d|]; [|done].
  intros [= _ <-]. unfold Z.of_uint. apply N2Z.is_nonneg.
Qed.

Lemma toLongLong_of_Z z :
  - 2 ^ 63 <= z < 2 ^ 63 → QString_toLongLong (string_of_Z z) = Some z.
Proof.
  intros Hz. unfold QString_toLongLong. rewrite integer_text_of_Z.
  assert ((if bool_decide (z < 0) then - Z.abs z else Z.abs z) = z) as ->
    by (case_bool_decide; lia).
  by rewrite decide_True.
Qed.

Lemma toULongLong_of_Z z :
  0 <= z < 2 ^ 64 → QString_toULongLong (string_of_Z z) = Some z.
Proof.
  intros Hz. unfold QString_toULongLong. rewrite integer_text_of_Z.
  rewrite bool_decide_eq_false_2 by lia.
  rewrite Z.abs_eq by lia. by rewrite decide_True by lia.
Qed.

Lemma toULongLong_negative z :
  z < 0 → QString_toULongLong (string_of_Z z) = None.
Proof.
  intros Hz. unfold QString_toULongLong. rewrite integer_text_of_Z.
  by rewrite bool_decide_eq_true_2.
Qed.

Lemma toULongLong_Some s z :
  QString_toULongLong s = Some z
  ↔ integer_text s = Some (false, z) ∧ z < 2 ^ 64.
Proof.
  unfold QString_toULongLong.
  destruct (integer_text s) as [[[|] n]|]; try (split; [done|by intros [[=] _]]).
  destruct (decide (n < 2 ^ 64)).
  - split; [by intros [= <-]|by intros [[= <-] _]].
  - split; [done|]. by intros [[= <-] ?].
Qed.

Lemma toLongLong_Some s z :
  QString_toLongLong s = Some z
  ↔ ∃ minus n, integer_text s = Some (minus, n)
               ∧ z = (if minus then - n else n) ∧ - 2 ^ 63 <= z < 2 ^ 63.
Proof.
  unfold QString_toLongLong.
  destruct (integer_text s) as [[minus n]|].
  - destruct (decide _) as [Hin|Hout].
    + split; [intros [= <-]; eauto|].
      by intros (m & k & [= <- <-] & -> & _).
    + split; [done|]. intros (m & k & [= <- <-] & -> & Hz). by destruct Hout.
  - split; [done|]. by intros (m & k & [=] & _).
Qed.

Lemma unsigned_convert (F : QtFloat) (s : string) (type : ValueType_t) :
  is_unsigned type = true →
  _stringToTypedVariant s type
  = match QString_toULongLong s with
    | Some z => (QUIntV (to_uint z), true)
    | None => (QUIntV 0, false)
    end.
Proof. by destruct type. Qed.

Lemma signed_convert (F : QtFloat) (s : string) (type : ValueType_t) :
  is_signed type = true →
  _stringToTypedVariant s type
  = match QString_toLongLong s with
    | Some z => (QIntV (to_int z), true)
    | None => (QIntV 0, false)
    end.
Proof. by destruct type. Qed.

(** C8, as stated: the conversion would report a failure for a value
    outside the range of the declared type. It does not: for a Uint8
    parameter the text 300 is converted, to 300, and the conversion is
    reported as done. *)
Lemma stringToTypedVariant_accepts_out_of_range :
  ¬ (∀ (F : QtFloat) (s : string) (type : ValueType_t) (z : Z),
       QString_toLongLong s = Some z → ¬ in_type_range type z →
       (_stringToTypedVariant s type).2 = false).
Proof.
  intros Hclaim.
  specialize (Hclaim QtFloat_none "300" valueTypeUint8 300).
  assert (Hconv : (@_stringToTypedVariant QtFloat_none "300" valueTypeUint8).2 = true)
    by (vm_compute; reflexivity).
  rewrite Hclaim in Hconv; [discriminate | vm_compute; reflexivity |].
  unfold in_type_range; simpl. lia.
Qed.

(** C8, amended: the conversion goes to the 32-bit carrier of the declared
    type, unsigned for the three unsigned types and signed for the three
    signed ones, and it reports a failure exactly when Qt cannot read the
    text as a 64-bit integer of that signedness: a text that is no
    integer, a text with a minus sign for an unsigned type, a number of
    more than 64 bits. A number it reads is narrowed to the carrier: one
    the carrier holds is returned as it is, never clamped to the range
    of a narrower declared type; one beyond the carrier is reduced
    modulo 2^32 without a report. The range of the declared type is the
    business of the validation at the write boundary, which refuses
    such a value: nothing is sent and the mirror stays as it is. *)
Theorem stringToTypedVariant_carrier
  (F : QtFloat) (s : string) (type : ValueType_t) :
  (is_unsigned type = true →
     ((_stringToTypedVariant s type).2 = true
      ↔ ∃ n, integer_text s = Some (false, n) ∧ n < 2 ^ 64)
     ∧ (∀ n, integer_text s = Some (false, n) → n < 2 ^ 64 →
          _stringToTypedVariant s type = (QUIntV (n mod 2 ^ 32), true))
     ∧ (∀ n, integer_text s = Some (false, n) → n < 2 ^ 32 →
          _stringToTypedVariant s type = (QUIntV n, true)))
  ∧ (is_signed type = true →
     ((_stringToTypedVariant s type).2 = true
      ↔ ∃ minus n, integer_text s = Some (minus, n)
                   ∧ - 2 ^ 63 <= (if minus then - n else n) < 2 ^ 63)
     ∧ (∀ minus n, integer_text s = Some (minus, n) →
          - 2 ^ 63 <= (if minus then - n else n) < 2 ^ 63 →
          _stringToTypedVariant s type
          = (QIntV (((if minus then - n else n) + 2 ^ 31) mod 2 ^ 32 - 2 ^ 31),
             true))
     ∧ (∀ minus n, integer_text s = Some (minus, n) →
          - 2 ^ 31 <= (if minus then - n else n) < 2 ^ 31 →
          _stringToTypedVariant s type
          = (QIntV (if minus then - n else n), true)))
  ∧ (∀ st c name fact z,
       facts st (_actualComponentId st c) !! name = Some fact →
       fact_type fact = type →
       _stringToTypedVariant s type = (QUIntV z, true)
       ∨ _stringToTypedVariant s type = (QIntV z, true) →
       ¬ in_type_range type z →
       writeParameterRaw st c name (_stringToTypedVariant s type).1
       = (st, [], Some (rejection (_actualComponentId st c) name))).
Proof.
  split_and!.
  - intros Hty. rewrite (unsigned_convert F s type Hty).
    split_and!.
    + destruct (QString_toULongLong s) as [z|] eqn:Hz.
      * apply toULongLong_Some in Hz. split; [eauto|done].
      * split; [done|]. intros (n & Hn & Hlt).
        assert (QString_toULongLong s = Some n) as Hc
          by (by apply toULongLong_Some).
        congruence.
    + intros n Hn Hlt.
      assert (QString_toULongLong s = Some n) as ->
        by (by apply toULongLong_Some).
      done.
    + intros n Hn Hlt.
      assert (QString_toULongLong s = Some n) as ->
        by (apply toULongLong_Some; split; [done|lia]).
      rewrite to_uint_small; [done|].
      apply integer_text_nonneg in Hn. lia.
  - intros Hty. rewrite (signed_convert F s type Hty).
    split_and!.
    + destruct (QString_toLongLong s) as [z|] eqn:Hz.
      * apply toLongLong_Some in Hz as (m & n & Hn & -> & Hin).
        split; [eauto|done].
      * split; [done|]. intros (m & n & Hn & Hin).
        assert (QString_toLongLong s = Some (if m then - n else n)) as Hc
          by (apply toLongLong_Some; eauto).
        congruence.
    + intros m n Hn Hin.
      assert (QString_toLongLong s = Some (if m then - n else n)) as ->
        by (apply toLongLong_Some; eauto).
      done.
    + intros m n Hn Hin.
      assert (QString_toLongLong s = Some (if m then - n else n)) as ->
        by (apply toLongLong_Some; exists m, n; split_and!; [done..|lia|lia]).
      by rewrite to_int_small.
  - intros st c name fact z Hf Hty Hconv Hout.
    unfold writeParameterRaw. unfold facts in Hf. rewrite Hf, Hty.
    assert (validRaw type (_stringToTypedVariant s type).1 = false) as ->;
      [|done].
    unfold in_type_range in Hout.
    destruct Hconv as [-> | ->]; cbn [fst validRaw];
      destruct (type_range type) as [[lo hi]|]; try done;
      rewrite bool_decide_eq_false_2 by done; apply andb_false_r.
Qed.

Lemma stringToTypedVariant_carrier_witness :
  (@_stringToTypedVariant QtFloat_none "300" valueTypeUint8 = (QUIntV 300, true))
  ∧ (@_stringToTypedVariant QtFloat_none "-0" valueTypeUint8).2 = false
  ∧ (@_stringToTypedVariant QtFloat_none "4294967301" valueTypeUint32
     = (QUIntV 5, true))
  ∧ writeParameterRaw sample_engine 1 "MC_ROLL_P"
      (@_stringToTypedVariant QtFloat_none "300" valueTypeUint8).1
    = (sample_engine, [], Some (rejection 1 "MC_ROLL_P")).
Proof.
  split_and!.
  - destruct (stringToTypedVariant_carrier QtFloat_none "300" valueTypeUint8)
      as (Hu & _ & _).
    destruct (Hu eq_refl) as (_ & _ & Hin). by apply (Hin 300).
  - destruct (stringToTypedVariant_carrier QtFloat_none "-0" valueTypeUint8)
      as (Hu & _ & _).
    destruct (Hu eq_refl) as (Hiff & _ & _).
    destruct (@_stringToTypedVariant QtFloat_none "-0" valueTypeUint8).2;
      [|reflexivity].
    destruct (proj1 Hiff eq_refl) as (n & Hn & _). discriminate Hn.
  - destruct (stringToTypedVariant_carrier QtFloat_none "4294967301"
                valueTypeUint32) as (Hu & _ & _).
    destruct (Hu eq_refl) as (_ & Hmod & _). by apply (Hmod 4294967301).
  - destruct (stringToTypedVariant_carrier QtFloat_none "300" valueTypeUint8)
      as (_ & _ & Hw).
    apply (Hw sample_engine 1 "MC_ROLL_P"
             {| fact_name := "MC_ROLL_P"; fact_type := valueTypeUint8;
                fact_rawValue := QUIntV 300; fact_metaData := None |} 300).
    + vm_compute. reflexivity.
    + reflexivity.
    + left. vm_compute. reflexivity.
    + unfold in_type_range. simpl. lia.
Defined.

(* ===================================================================== *)
(** ** The loop of the meta data loader *)
(* ===================================================================== *)

Section LoaderFacts.

Context `{FactMetaDataOps}.

Lemma readElementText_from_length acc ts text xml :
  readElementText_from acc ts = (text, xml) →
  (length (upcoming xml) ≤ length ts)%nat.
Proof.
  revert acc. induction ts as [|t ts IH]; intros acc Hr; simpl in Hr.
  - injection Hr as _ <-. simpl. lia.
  - destruct t; try (injection Hr as _ <-; simpl; lia);
      apply IH in Hr; simpl; lia.
Qed.

Lemma readElementText_length xml text xml' :
  readElementText xml = (text, xml') →
  (length (upcoming xml') ≤ length (upcoming xml))%nat.
Proof.
  unfold readElementText.
  destruct (tokenType xml); intros Hr;
    try (injection Hr as _ <-; lia).
  by eapply readElementText_from_length.
Qed.

Lemma bare_new type : bare (FactMetaData_new type).
Proof. by repeat split. Qed.

Lemma bare_setName n m : bare m → bare (setName n m).
Proof. by intros. Qed.

Lemma bare_setGroup n m : bare m → bare (setGroup n m).
Proof. by intros. Qed.

Lemma bare_setRawDefaultValue v m : bare m → bare (setRawDefaultValue v m).
Proof. by intros. Qed.

(** The branch of a parameter start element, when it goes on. *)
Lemma start_parameter_next xml a l g xml' l' g' :
  start_parameter xml a l g = Next xml' l' g' →
  xmlState l = XmlStateFoundGroup ∧ xml' = xml
  ∧ ∃ m bad,
      bare m
      ∧ objects g' = <[allocated g := m]> (objects g)
      ∧ allocated g' = S (allocated g)
      ∧ _parameterMetaDataLoaded g' = _parameterMetaDataLoaded g
      ∧ _mapParameterName2FactMetaData g'
        = <[attribute_value a "name" := allocated g]>
            (_mapParameterName2FactMetaData g)
      ∧ (bad = true ∨ bad = badMetaData l)
      ∧ l' = {| factGroup := factGroup l; metaData := Some (allocated g);
                xmlState := XmlStateFoundParameter; badMetaData := bad |}.
Proof.
  unfold start_parameter. intros Hs.
  destruct (decide (xmlState l ≠ XmlStateFoundGroup)) as [|Hst]; [done|].
  apply dec_stable in Hst. split; [done|].
  destruct (negb (hasAttribute a "name") || negb (hasAttribute a "type"))%bool;
    [done|].
  destruct (stringToType (attribute_value a "type")) as [foundType unknownType].
  destruct unknownType; [done|]. simpl in Hs.
  destruct (decide (is_Some (_mapParameterName2FactMetaData g
                               !! attribute_value a "name"))) as [Hdup|Hnew].
  - injection Hs as <- <- <-. split; [done|].
    exists (FactMetaData_new foundType), true. simpl.
    repeat split; auto.
  - rewrite !alter_insert_eq, lookup_insert_eq in Hs.
    set (m0 := setGroup (factGroup l)
                 (setName (attribute_value a "name")
                    (FactMetaData_new foundType))) in *.
    destruct (hasAttribute a "default"
              && negb (bool_decide (attribute_value a "default" = "")))%bool.
    + destruct (convertAndValidateRaw m0 _ false) as [v|e];
        injection Hs as <- <- <-; (split; [done|]).
      * exists (setRawDefaultValue v m0), (badMetaData l). simpl.
        rewrite !alter_insert_eq. repeat split; auto.
      * exists m0, (badMetaData l). simpl.
        rewrite !alter_insert_eq. repeat split; auto.
    + injection Hs as <- <- <-. split; [done|].
      exists m0, (badMetaData l). simpl.
      rewrite !alter_insert_eq. repeat split; auto.
Qed.

Lemma start_parameter_safe xml a l g : start_parameter xml a l g ≠ Abort.
Proof.
  unfold start_parameter.
  destruct (decide (xmlState l ≠ XmlStateFoundGroup)); [done|].
  destruct (negb (hasAttribute a "name") || negb (hasAttribute a "type"))%bool;
    [done|].
  destruct (stringToType (attribute_value a "type")) as [foundType unknownType].
  destruct unknownType; [done|]. simpl.
  destruct (decide (is_Some (_mapParameterName2FactMetaData g
                               !! attribute_value a "name"))); [done|].
  rewrite !alter_insert_eq, lookup_insert_eq.
  destruct (hasAttribute a "default"
            && negb (bool_decide (attribute_value a "default" = "")))%bool;
    [|done].
  by destruct (convertAndValidateRaw _ _ false).
Qed.

Lemma start_parameter_return xml a l g g' :
  start_parameter xml a l g = Return g' → ∃ msg, g' = say msg g.
Proof.
  unfold start_parameter.
  destruct (decide (xmlState l ≠ XmlStateFoundGroup));
    [intros [= <-]; eauto|].
  destruct (negb (hasAttribute a "name") || negb (hasAttribute a "type"))%bool;
    [intros [= <-]; eauto|].
  destruct (stringToType (attribute_value a "type")) as [foundType unknownType].
  destruct unknownType; [intros [= <-]; eauto|]. simpl.
  destruct (decide (is_Some (_mapParameterName2FactMetaData g
                               !! attribute_value a "name"))); [done|].
  rewrite !alter_insert_eq, lookup_insert_eq.
  destruct (hasAttribute a "default"
            && negb (bool_decide (attribute_value a "default" = "")))%bool;
    [|done].
  by destruct (convertAndValidateRaw _ _ false).
Qed.

(** [deref] runs its continuation on a live pointer only. *)
Lemma deref_inv l g k r :
  deref l g k = r → r ≠ Abort →
  ∃ p m, metaData l = Some p ∧ objects g !! p = Some m ∧ k p m = r.
Proof.
  unfold deref.
  destruct (metaData l) as [p|]; [|congruence].
  destruct (objects g !! p) as [m|] eqn:Hm; [|congruence].
  intros Hd _. by exists p, m.
Qed.

Lemma deref_live l g k p m :
  metaData l = Some p → objects g !! p = Some m → deref l g k = k p m.
Proof. unfold deref. by intros -> ->. Qed.

(** The branch of a meta data element, when it goes on. *)
Lemma start_other_next n xml a l g xml' l' g' :
  start_other n xml a l g = Next xml' l' g' →
  xmlState l = XmlStateFoundParameter ∧ l' = l
  ∧ (xml' = xml ∨ ∃ text, readElementText xml = (text, xml'))
  ∧ (g' = g ∨ (∃ msg, g' = say msg g)
     ∨ (badMetaData l = false
        ∧ ∃ p f, metaData l = Some p ∧ is_Some (objects g !! p)
                 ∧ g' = poke p f g)).
Proof.
  unfold start_other. intros Hs.
  destruct (decide (xmlState l ≠ XmlStateFoundParameter)) as [|Hst]; [done|].
  apply dec_stable in Hst. split; [done|].
  destruct (badMetaData l) eqn:Hbad.
  { injection Hs as <- <- <-. auto. }
  destruct (meta_element n);
    try (apply deref_inv in Hs as (p & m & Hp & Hm & Hs); [|done]);
    try (destruct (readElementText xml) as [text xml1] eqn:Hr);
    try (apply deref_inv in Hs as (p & m & Hp & Hm & Hs); [|done]).
  - injection Hs as <- <- <-. split; [done|]. split; [eauto|].
    right; right. split; [done|]. eauto 10.
  - injection Hs as <- <- <-. split; [done|]. split; [eauto|].
    right; right. split; [done|]. eauto 10.
  - destruct (convertAndValidateRaw m _ true); injection Hs as <- <- <-;
      (split; [done|]); (split; [eauto|]); [|eauto].
    right; right. split; [done|]. eauto 10.
  - destruct (convertAndValidateRaw m _ true); injection Hs as <- <- <-;
      (split; [done|]); (split; [eauto|]); [|eauto].
    right; right. split; [done|]. eauto 10.
  - injection Hs as <- <- <-. split; [done|]. split; [eauto|].
    right; right. split; [done|]. eauto 10.
  - destruct (QVariant_toUInt text) as [d [|]]; injection Hs as <- <- <-;
      (split; [done|]); (split; [eauto|]); [|eauto].
    right; right. split; [done|]. eauto 10.
  - destruct (equals_true_nocase text); injection Hs as <- <- <-;
      (split; [done|]); (split; [eauto|]); [|eauto].
    right; right. split; [done|]. eauto 10.
  - injection Hs as <- <- <-. auto.
  - destruct (convertAndValidateRaw m _ false); injection Hs as <- <- <-;
      (split; [done|]); (split; [eauto|]); [|eauto].
    right; right. split; [done|]. eauto 10.
  - injection Hs as <- <- <-. split; [done|]. split; [eauto|]. eauto.
Qed.

Lemma start_other_return n xml a l g g' :
  start_other n xml a l g = Return g' → ∃ msg, g' = say msg g.
Proof.
  unfold start_other. intros Hs.
  destruct (decide (xmlState l ≠ XmlStateFoundParameter));
    [injection Hs as <-; eauto|].
  destruct (badMetaData l); [done|]. exfalso.
  destruct (meta_element n);
    try (apply deref_inv in Hs as (p & m & Hp & Hm & Hs); [|done]);
    try (destruct (readElementText xml) as [text xml1] eqn:Hr);
    try (apply deref_inv in Hs as (p & m & Hp & Hm & Hs); [|done]);
    try done.
  - by destruct (convertAndValidateRaw m _ true).
  - by destruct (convertAndValidateRaw m _ true).
  - by destruct (QVariant_toUInt text) as [d [|]].
  - by destruct (equals_true_nocase text).
  - by destruct (convertAndValidateRaw m _ false).
Qed.

Lemma start_other_safe n xml a l g :
  ptr_ok l g → start_other n xml a l g ≠ Abort.
Proof.
  unfold start_other. intros [Hlive Hsome].
  destruct (decide (xmlState l ≠ XmlStateFoundParameter)) as [|Hst]; [done|].
  apply dec_stable in Hst.
  destruct (badMetaData l); [done|].
  destruct (Hsome Hst) as [p Hp]. destruct (Hlive p Hp) as [m Hm].
  destruct (meta_element n);
    try (destruct (readElementText xml) as [text xml1] eqn:Hr);
    rewrite ?(deref_live l g _ p m Hp Hm); try done.
  - by destruct (convertAndValidateRaw m _ true).
  - by destruct (convertAndValidateRaw m _ true).
  - by destruct (QVariant_toUInt text) as [d [|]].
  - by destruct (equals_true_nocase text).
  - by destruct (convertAndValidateRaw m _ false).
Qed.

(** One iteration that goes on is one of the steps of [body_step]. *)
Lemma loop_body_next xml l g xml' l' g' :
  loop_body xml l g = Next xml' l' g' → body_step xml l g xml' l' g'.
Proof.
  unfold loop_body. intros Hb.
  destruct (tokenType xml) as [| | | |n a|n| | | | |] eqn:Htok;
    try (injection Hb as <- <- <-; by apply step_skip; rewrite Htok).
  - unfold start_element in Hb.
    destruct (element_kind n) eqn:Hk.
    + destruct (decide (xmlState l ≠ XmlStateNone)) as [|Hst]; [done|].
      apply dec_stable in Hst. injection Hb as <- <- <-.
      by eapply step_parameters.
    + destruct (decide (xmlState l ≠ XmlStateFoundParameters)) as [|Hst];
        [done|].
      apply dec_stable in Hst.
      destruct (readElementText xml) as [text xml1] eqn:Hr.
      destruct (QString_toInt text) as [v|]; [|done].
      destruct (decide (v <= 2)); [done|]. injection Hb as <- <- <-.
      by eapply step_version.
    + destruct (decide (xmlState l ≠ XmlStateFoundVersion)) as [|Hst]; [done|].
      apply dec_stable in Hst.
      destruct (negb (hasAttribute a "name")); [done|].
      injection Hb as <- <- <-. simpl. by eapply step_group.
    + apply start_parameter_next in Hb
        as (Hst & -> & m & bad & Hm & Ho & Ha & Hl & Hmap & Hbad & ->).
      by eapply step_parameter.
    + apply start_other_next in Hb as (Hst & -> & Hx & Hg).
      by eapply step_other.
  - unfold end_element in Hb.
    destruct (element_kind n) eqn:Hk;
      try (injection Hb as <- <- <-).
    + by eapply step_end_parameters.
    + eapply step_end_other; eauto.
    + by eapply step_end_group.
    + apply deref_inv in Hb as (p & m & Hp & Hm & Hb); [|done].
      injection Hb as <- <- <-.
      eapply step_end_parameter; eauto.
      destruct (md_rawDefaultValue m) as [d|]; [|by left].
      destruct (convertAndValidateRaw m d false); eauto.
    + eapply step_end_other; eauto.
Qed.

Lemma loop_body_return xml l g g' :
  loop_body xml l g = Return g' → ∃ msg, g' = say msg g.
Proof.
  unfold loop_body. intros Hb.
  destruct (tokenType xml) as [| | | |n a|n| | | | |] eqn:Htok; try done.
  - unfold start_element in Hb.
    destruct (element_kind n) eqn:Hk.
    + destruct (decide (xmlState l ≠ XmlStateNone));
        [injection Hb as <-; eauto|done].
    + destruct (decide (xmlState l ≠ XmlStateFoundParameters));
        [injection Hb as <-; eauto|].
      destruct (readElementText xml) as [text xml1] eqn:Hr.
      destruct (QString_toInt text) as [v|]; [|injection Hb as <-; eauto].
      destruct (decide (v <= 2)); [injection Hb as <-; eauto|done].
    + destruct (decide (xmlState l ≠ XmlStateFoundVersion));
        [injection Hb as <-; eauto|].
      destruct (negb (hasAttribute a "name")); [injection Hb as <-; eauto|done].
    + by eapply start_parameter_return.
    + by eapply start_other_return.
  - unfold end_element in Hb.
    destruct (element_kind n) eqn:Hk; try done.
    apply deref_inv in Hb as (p & m & Hp & Hm & Hb); done.
Qed.

Lemma loop_body_safe xml l g :
  ptr_ok l g →
  (∀ n, tokenType xml = EndElement n → element_kind n = parameter →
        is_Some (metaData l)) →
  loop_body xml l g ≠ Abort.
Proof.
  unfold loop_body. intros Hp Hend.
  destruct (tokenType xml) as [| | | |n a|n| | | | |] eqn:Htok; try done.
  - unfold start_element.
    destruct (element_kind n) eqn:Hk.
    + by destruct (decide (xmlState l ≠ XmlStateNone)).
    + destruct (decide (xmlState l ≠ XmlStateFoundParameters)); [done|].
      destruct (readElementText xml) as [text xml1] eqn:Hr.
      destruct (QString_toInt text) as [v|]; [|done].
      by destruct (decide (v <= 2)).
    + destruct (decide (xmlState l ≠ XmlStateFoundVersion)); [done|].
      by destruct (negb (hasAttribute a "name")).
    + apply start_parameter_safe.
    + by apply start_other_safe.
  - unfold end_element.
    destruct (element_kind n) eqn:Hk; try done.
    destruct (Hend n eq_refl Hk) as [p Hptr].
    destruct Hp as [Hlive _]. destruct (Hlive p Hptr) as [m Hm].
    by rewrite (deref_live l g _ p m Hptr Hm).
Qed.

(** *** What a step keeps *)

Lemma heap_ok_say msg g : heap_ok g → heap_ok (say msg g).
Proof. by intros. Qed.

Lemma heap_ok_poke p f g : heap_ok g → heap_ok (poke p f g).
Proof.
  intros [Hmap Hlt]. split; simpl.
  - intros n q Hq. apply lookup_alter_is_Some. eauto.
  - intros q Hq. apply lookup_alter_is_Some in Hq. eauto.
Qed.

Lemma ptr_ok_leave l l' g :
  ptr_ok l g → metaData l' = metaData l →
  xmlState l' ≠ XmlStateFoundParameter → ptr_ok l' g.
Proof.
  intros [Hlive Hsome] Hm Hst. split; [|done].
  intros p. rewrite Hm. apply Hlive.
Qed.

Lemma body_step_store xml l g xml' l' g' :
  body_step xml l g xml' l' g' → heap_ok g → ptr_ok l g →
  heap_ok g' ∧ ptr_ok l' g'
  ∧ _parameterMetaDataLoaded g' = _parameterMetaDataLoaded g
  ∧ (length (upcoming xml') ≤ length (upcoming xml))%nat.
Proof.
  intros Hstep Hheap Hptr.
  destruct Hstep as
    [ ? ? | n a ? ? Hst | n a text xml' ? ? Hst Hr | n a ? ? Hst
    | n a m bad g' ? ? Hst Hm Ho Ha Hl Hmap Hbad
    | n a xml' g' ? ? Hst Hx Hg
    | n p g' ? ? Hp Hlive Hg | n ? ? | n ? ? | n ? ? ].
  - done.
  - split_and!; try done. by eapply ptr_ok_leave.
  - split_and!; try done; [by eapply ptr_ok_leave|].
    by eapply readElementText_length.
  - split_and!; try done. by eapply ptr_ok_leave.
  - destruct Hheap as [Hmapok Hlt]. split_and!; try done.
    + split.
      * intros k q. rewrite Hmap, Ho. intros Hq.
        destruct (decide (attribute_value a "name" = k)) as [Heq|Hne].
        -- subst k. rewrite lookup_insert_eq in Hq. injection Hq as <-.
           by rewrite lookup_insert_eq.
        -- rewrite lookup_insert_ne in Hq by done.
           apply lookup_insert_is_Some'. right. eauto.
      * intros q. rewrite Ho, Ha. intros Hq.
        apply lookup_insert_is_Some' in Hq as [->|Hq]; [lia|].
        apply Hlt in Hq. lia.
    + split; simpl.
      * intros q [= <-]. rewrite Ho, lookup_insert_eq. eauto.
      * eauto.
  - assert (Hobj : ∀ q, is_Some (objects g' !! q) ↔ is_Some (objects g !! q)).
    { intros q. destruct Hg as [->|[[msg ->]|(_ & p & f & _ & _ & ->)]];
        simpl; try done. apply lookup_alter_is_Some. }
    assert (heap_ok g').
    { destruct Hg as [->|[[msg ->]|(_ & p & f & _ & _ & ->)]];
        auto using heap_ok_say, heap_ok_poke. }
    assert (_parameterMetaDataLoaded g' = _parameterMetaDataLoaded g).
    { by destruct Hg as [->|[[msg ->]|(_ & p & f & _ & _ & ->)]]. }
    split_and!; try done.
    + split; [|apply Hptr].
      intros q Hq. apply Hobj. by apply Hptr.
    + destruct Hx as [->|[text Hr]]; [done|].
      by eapply readElementText_length.
  - assert (heap_ok g' ∧ _parameterMetaDataLoaded g' = _parameterMetaDataLoaded g)
      as [? ?] by (by destruct Hg as [->|[msg ->]]).
    split_and!; try done.
  - split_and!; try done. by eapply ptr_ok_leave.
  - split_and!; try done. by eapply ptr_ok_leave.
  - done.
Qed.

(** *** The walk over a well nested stream *)

Lemma readElementText_from_nested n open acc ts text xml' :
  well_nested (n :: open) ts = true →
  readElementText_from acc ts = (text, xml') →
  tokenType xml' = Invalid
  ∨ (∃ m, tokenType xml' = EndElement m)
    ∧ well_nested open (upcoming xml') = true.
Proof.
  revert acc. induction ts as [|t ts IH]; intros acc Hn Hr; simpl in Hr.
  - injection Hr as _ <-. by left.
  - destruct t; simpl in Hn;
      try (injection Hr as _ <-; by left); try by eapply IH.
    injection Hr as _ <-. right. simpl.
    apply andb_prop in Hn as [_ Hn]. split; [eauto|done].
Qed.

Lemma walk_inv_readNext open xml l :
  tokenType xml ≠ Invalid →
  well_nested open (upcoming xml) = true →
  shape_ok open = true →
  (has_param open = true → xmlState l = XmlStateFoundParameter) →
  walk_inv open (readNext xml) l.
Proof.
  intros Htok Hn Hs Hp. unfold walk_inv, readNext.
  destruct (tokenType xml); try done;
    (destruct (upcoming xml) as [|t ts]; [by left|by right]).
Qed.

Lemma has_param_cons n open :
  has_param (n :: open)
  = (bool_decide (element_kind n = parameter) || has_param open)%bool.
Proof. done. Qed.

Lemma walk_inv_step open xml l g xml' l' g' :
  walk_inv open xml l → atEnd xml = false →
  body_step xml l g xml' l' g' →
  ∃ open', walk_inv open' (readNext xml') l'.
Proof.
  intros [Hinv|(Hn & Hs & Hp)] Hend Hstep.
  { unfold atEnd in Hend. by rewrite Hinv in Hend. }
  assert (Hvalid : tokenType xml ≠ Invalid).
  { intros Hc. unfold atEnd in Hend. by rewrite Hc in Hend. }
  assert (Hstate : has_param open = true → xmlState l = XmlStateFoundParameter)
    by done.
  destruct Hstep as
    [ Hns Hne | n a Htok Hk Hst | n a text xml' Htok Hk Hst Hr | n a Htok Hk Hst
    | n a m bad g' Htok Hk Hst Hm Ho Ha Hl Hmap Hbad
    | n a xml' g' Htok Hk Hst Hx Hg
    | n p g' Htok Hk Hpt Hlive Hg | n Htok Hk | n Htok Hk | n Htok Hk ].
  - exists open. apply walk_inv_readNext; try done.
    destruct (tokenType xml); simpl in Hn; try done.
    + by destruct (Hns name attributes).
    + by destruct (Hne name).
  - assert (Hnp : has_param open = false).
    { destruct (has_param open); [|done]. rewrite Hst in Hstate.
      by specialize (Hstate eq_refl). }
    exists (n :: open). rewrite Htok in Hn. simpl in Hn.
    apply walk_inv_readNext; try done.
    + simpl. by rewrite Hk, Hnp.
    + rewrite has_param_cons, Hk, Hnp. done.
  - assert (Hnp : has_param open = false).
    { destruct (has_param open); [|done]. rewrite Hst in Hstate.
      by specialize (Hstate eq_refl). }
    rewrite Htok in Hn. simpl in Hn.
    unfold readElementText in Hr. rewrite Htok in Hr.
    eapply readElementText_from_nested in Hr as [Hinv|[[m Hm] Hn']]; [| |done].
    + exists open. left. unfold readNext. by rewrite Hinv.
    + exists open. apply walk_inv_readNext; try done.
      * by rewrite Hm.
      * by rewrite Hnp.
  - assert (Hnp : has_param open = false).
    { destruct (has_param open); [|done]. rewrite Hst in Hstate.
      by specialize (Hstate eq_refl). }
    exists (n :: open). rewrite Htok in Hn. simpl in Hn.
    apply walk_inv_readNext; try done.
    + simpl. by rewrite Hk, Hnp.
    + rewrite has_param_cons, Hk, Hnp. done.
  - assert (Hnp : has_param open = false).
    { destruct (has_param open); [|done]. rewrite Hst in Hstate.
      by specialize (Hstate eq_refl). }
    exists (n :: open). rewrite Htok in Hn. simpl in Hn.
    apply walk_inv_readNext; try done.
    simpl. by rewrite Hk, Hnp.
  - rewrite Htok in Hn. simpl in Hn.
    destruct Hx as [->|[text Hr]].
    + exists (n :: open). apply walk_inv_readNext; try done.
      simpl. by rewrite Hk.
    + unfold readElementText in Hr. rewrite Htok in Hr.
      eapply readElementText_from_nested in Hr as [Hinv|[[m Hm] Hn']];
        [| |done].
      * exists open. left. unfold readNext. by rewrite Hinv.
      * exists open. apply walk_inv_readNext; try done. by rewrite Hm.
  - rewrite Htok in Hn. simpl in Hn.
    destruct open as [|m open]; [done|].
    apply andb_prop in Hn as [Heq Hn]. apply bool_decide_eq_true in Heq as <-.
    simpl in Hs. rewrite Hk in Hs. apply andb_prop in Hs as [Hnp Hs].
    apply negb_true_iff in Hnp.
    exists open. apply walk_inv_readNext; try done. by rewrite Hnp.
  - rewrite Htok in Hn. simpl in Hn.
    destruct open as [|m open]; [done|].
    apply andb_prop in Hn as [Heq Hn]. apply bool_decide_eq_true in Heq as <-.
    simpl in Hs. rewrite Hk in Hs. apply andb_prop in Hs as [Hnp Hs].
    apply negb_true_iff in Hnp.
    exists open. apply walk_inv_readNext; try done. by rewrite Hnp.
  - rewrite Htok in Hn. simpl in Hn.
    destruct open as [|m open]; [done|].
    apply andb_prop in Hn as [Heq Hn]. apply bool_decide_eq_true in Heq as <-.
    simpl in Hs. rewrite Hk in Hs. apply andb_prop in Hs as [Hnp Hs].
    apply negb_true_iff in Hnp.
    exists open. apply walk_inv_readNext; try done. by rewrite Hnp.
  - rewrite Htok in Hn. simpl in Hn.
    destruct open as [|m open]; [done|].
    apply andb_prop in Hn as [Heq Hn]. apply bool_decide_eq_true in Heq as <-.
    exists open. apply walk_inv_readNext; try done.
    + simpl in Hs. destruct Hk as [Hk|Hk]; rewrite Hk in Hs; [|done].
      by apply andb_prop in Hs as [_ Hs].
    + intros Hpar. apply Hstate. rewrite has_param_cons, Hpar.
      by rewrite orb_true_r.
Qed.

(** At the end of a parameter element of a well nested stream the walk
    is inside that parameter. *)
Lemma walk_inv_end_parameter open xml l n :
  walk_inv open xml l → tokenType xml = EndElement n →
  element_kind n = parameter → xmlState l = XmlStateFoundParameter.
Proof.
  intros [Hinv|(Hn & Hs & Hp)] Htok Hk; [congruence|].
  rewrite Htok in Hn. simpl in Hn.
  destruct open as [|m open]; [done|].
  apply andb_prop in Hn as [Heq Hn]. apply bool_decide_eq_true in Heq as <-.
  apply Hp. rewrite has_param_cons, Hk. done.
Qed.

End LoaderFacts.

Section LoaderLoop.

Context `{FactMetaDataOps}.

Lemma body_step_length xml l g xml' l' g' :
  body_step xml l g xml' l' g' →
  (length (upcoming xml') ≤ length (upcoming xml))%nat.
Proof.
  intros Hstep.
  destruct Hstep as
    [ ? ? | n a ? ? Hst | n a text xml' ? ? Hst Hr | n a ? ? Hst
    | n a m bad g' ? ? Hst Hm Ho Ha Hl Hmap Hbad
    | n a xml' g' ? ? Hst Hx Hg
    | n p g' ? ? Hp Hlive Hg | n ? ? | n ? ? | n ? ? ]; try done.
  - by eapply readElementText_length.
  - destruct Hx as [->|[text Hr]]; [done|].
    by eapply readElementText_length.
Qed.

Lemma readNext_length xml :
  tokenType (readNext xml) = Invalid
  ∨ (S (length (upcoming (readNext xml))) = length (upcoming xml))%nat.
Proof.
  unfold readNext.
  destruct (tokenType xml) eqn:Htok; try (by left);
    (destruct (upcoming xml); [by left|by right]).
Qed.

(** The loop returns: the tokens bound the number of iterations. *)
Lemma parse_loop_total fuel xml l g :
  (length (upcoming xml) + 2 ≤ fuel)%nat →
  parse_loop fuel xml l g ≠ OutOfFuel.
Proof.
  revert xml l g. induction fuel as [|fuel IH]; intros xml l g Hfuel;
    [lia|].
  cbn [parse_loop]. destruct (atEnd xml) eqn:Hend; [done|].
  destruct (loop_body xml l g) as [xml' l' g'| |] eqn:Hb; try done.
  apply loop_body_next, body_step_length in Hb.
  destruct (atEnd (readNext xml')) eqn:Hend'.
  - destruct fuel; [lia|]. cbn [parse_loop]. rewrite Hend'. discriminate.
  - apply IH.
    destruct (readNext_length xml') as [Hinv|Hlen].
    + unfold atEnd in Hend'. by rewrite Hinv in Hend'.
    + lia.
Qed.

(** An invariant of the iterations holds of the statics the loop ends
    with. *)
Lemma parse_loop_invariant
  (I : QXmlStreamReader → Locals → MetaStore → Prop) (P : MetaStore → Prop) :
  (∀ xml l g, I xml l g → P g) →
  (∀ xml l g msg, I xml l g → P (say msg g)) →
  (∀ xml l g xml' l' g',
     I xml l g → atEnd xml = false → body_step xml l g xml' l' g' →
     I (readNext xml') l' g') →
  ∀ fuel xml l g g',
    I xml l g → parse_loop fuel xml l g = Finished g' → P g'.
Proof.
  intros Hend Hret Hstep.
  induction fuel as [|fuel IH]; intros xml l g g' HI Hrun; [done|].
  simpl in Hrun. destruct (atEnd xml) eqn:Hat.
  - injection Hrun as <-. eauto.
  - destruct (loop_body xml l g) as [xml1 l1 g1|g1|] eqn:Hb; [| |done].
    + apply loop_body_next in Hb. eauto.
    + injection Hrun as <-. apply loop_body_return in Hb as [msg ->]. eauto.
Qed.

Lemma parse_loop_no_crash
  (I : QXmlStreamReader → Locals → MetaStore → Prop) :
  (∀ xml l g, I xml l g → atEnd xml = false → loop_body xml l g ≠ Abort) →
  (∀ xml l g xml' l' g',
     I xml l g → atEnd xml = false → body_step xml l g xml' l' g' →
     I (readNext xml') l' g') →
  ∀ fuel xml l g, I xml l g → parse_loop fuel xml l g ≠ Crashed.
Proof.
  intros Hsafe Hstep.
  induction fuel as [|fuel IH]; intros xml l g HI; [done|].
  simpl. destruct (atEnd xml) eqn:Hat; [done|].
  destruct (loop_body xml l g) as [xml1 l1 g1|g1|] eqn:Hb; [|done|].
  - apply loop_body_next in Hb. eauto.
  - by destruct (Hsafe xml l g).
Qed.

Lemma safe_inv_step xml l g xml' l' g' :
  safe_inv xml l g → atEnd xml = false → body_step xml l g xml' l' g' →
  safe_inv (readNext xml') l' g'.
Proof.
  intros (Hheap & Hptr & open & Hwalk) Hat Hstep.
  destruct (body_step_store _ _ _ _ _ _ Hstep Hheap Hptr) as (? & ? & _).
  split_and!; try done. by eapply walk_inv_step.
Qed.

Lemma safe_inv_safe xml l g :
  safe_inv xml l g → atEnd xml = false → loop_body xml l g ≠ Abort.
Proof.
  intros (Hheap & Hptr & open & Hwalk) Hat.
  apply loop_body_safe; [done|].
  intros n Htok Hk. apply Hptr. by eapply walk_inv_end_parameter.
Qed.

Lemma safe_inv_init data g :
  heap_ok g → well_nested [] data = true →
  safe_inv (QXmlStreamReader_new data) Locals_init g.
Proof.
  intros Hheap Hn. split_and!; [done| |].
  - split; [done|]. done.
  - exists []. right. by split_and!.
Qed.

(** The three ways through [_loadParameterFactMetaData]. *)
Lemma load_cases fs g :
  (_parameterMetaDataLoaded g = true
   ∧ _loadParameterFactMetaData fs g = Finished g)
  ∨ (_parameterMetaDataLoaded g = false
     ∧ _mapParameterName2FactMetaData g ≠ ∅
     ∧ _loadParameterFactMetaData fs g = Crashed)
  ∨ (_parameterMetaDataLoaded g = false
     ∧ _mapParameterName2FactMetaData g = ∅
     ∧ _loadParameterFactMetaData fs g
       = parse_loop (2 + length (parameterFile fs))
           (QXmlStreamReader_new (parameterFile fs)) Locals_init
           (set_loaded g)).
Proof.
  unfold _loadParameterFactMetaData.
  destruct (_parameterMetaDataLoaded g) eqn:Hl; [by left|right].
  destruct (decide (size (_mapParameterName2FactMetaData (set_loaded g)) ≠ 0%nat))
    as [Hne|He].
  - left. split_and!; try done. intros Hc. apply Hne. simpl.
    rewrite Hc. apply map_size_empty.
  - right. split_and!; try done.
    apply dec_stable in He. by apply map_size_empty_inv in He.
Qed.

(** The load of a well nested stream finishes, and keeps the statics
    consistent. *)
Lemma load_finishes fs g :
  store_wf g → well_nested [] (parameterFile fs) = true →
  ∃ g1, _loadParameterFactMetaData fs g = Finished g1
        ∧ heap_ok g1 ∧ _parameterMetaDataLoaded g1 = true.
Proof.
  intros [Hempty Hheap] Hn.
  destruct (load_cases fs g) as [[Hl ->]|[(Hl & Hne & _)|(Hl & _ & ->)]].
  - by exists g.
  - by destruct Hne; apply Hempty.
  - set (fuel := (2 + length (parameterFile fs))%nat).
    set (xml := QXmlStreamReader_new (parameterFile fs)).
    assert (Hinv : safe_inv xml Locals_init (set_loaded g))
      by (by apply safe_inv_init).
    destruct (parse_loop fuel xml Locals_init (set_loaded g))
      as [g1| |] eqn:Hrun.
    + exists g1. split; [done|].
      eapply (parse_loop_invariant
                (fun xml l g => safe_inv xml l g
                                ∧ _parameterMetaDataLoaded g = true)
                (fun g => heap_ok g ∧ _parameterMetaDataLoaded g = true));
        [..|exact Hrun]; try done.
      * intros ? ? ? [(? & _) ?]. done.
      * intros ? ? ? ? [(? & _) ?]. done.
      * intros ? ? ? ? ? ? [Hs Hld] Hat Hstep.
        split; [by eapply safe_inv_step|].
        destruct Hs as (Hh & Hp & _).
        destruct (body_step_store _ _ _ _ _ _ Hstep Hh Hp) as (_ & _ & -> & _).
        done.
    + exfalso. eapply (parse_loop_no_crash safe_inv); [..|exact Hrun];
        eauto using safe_inv_safe, safe_inv_step.
    + exfalso. eapply parse_loop_total; [|exact Hrun].
      unfold fuel, xml. simpl. lia.
Qed.

Lemma body_step_loaded xml l g xml' l' g' :
  body_step xml l g xml' l' g' →
  _parameterMetaDataLoaded g' = _parameterMetaDataLoaded g.
Proof.
  intros Hstep.
  destruct Hstep as
    [ ? ? | n a ? ? Hst | n a text xml' ? ? Hst Hr | n a ? ? Hst
    | n a m bad g' ? ? Hst Hm Ho Ha Hl' Hmap Hbad
    | n a xml' g' ? ? Hst Hx Hg
    | n p g' ? ? Hp Hlive Hg | n ? ? | n ? ? | n ? ? ]; try done.
  - by destruct Hg as [->|[[msg ->]|(_ & p & f & _ & _ & ->)]].
  - by destruct Hg as [->|[msg ->]].
Qed.

(** A finished load leaves the class loaded. *)
Lemma load_sets_loaded fs g g1 :
  _loadParameterFactMetaData fs g = Finished g1 →
  _parameterMetaDataLoaded g1 = true.
Proof.
  destruct (load_cases fs g) as [[Hl ->]|[(Hl & Hne & ->)|(Hl & _ & ->)]].
  - by intros [= <-].
  - done.
  - apply (parse_loop_invariant
             (fun xml l g => _parameterMetaDataLoaded g = true)
             (fun g => _parameterMetaDataLoaded g = true)); try done.
    intros xml l g0 xml' l' g' Hld _ Hstep.
    by rewrite (body_step_loaded _ _ _ _ _ _ Hstep).
Qed.

End LoaderLoop.

(* ===================================================================== *)
(** ** Properties of the meta data loader *)
(* ===================================================================== *)

Section LoaderClaims.

Context `{FactMetaDataOps}.

(** *** C7: the load happens once *)

Lemma load_loaded fs g :
  _parameterMetaDataLoaded g = true →
  _loadParameterFactMetaData fs g = Finished g.
Proof. unfold _loadParameterFactMetaData. by intros ->. Qed.

Lemma load_all_loaded fss g :
  _parameterMetaDataLoaded g = true → load_all fss g = Finished g.
Proof.
  intros Hl. induction fss as [|fs fss IH]; [done|].
  simpl. by rewrite load_loaded.
Qed.

(** C7. The load is lazy and idempotent: [addMetaDataToFact] starts with
    the load and leaves the class loaded; once the class is loaded a
    further call of the load returns at once with the statics as they
    are, whatever the file now holds; so any number of calls, one after
    the other, ends as the first call does. *)
Theorem load_lazy_idempotent (fs : Files) (fss : list Files) (fact : Fact)
  (g : MetaStore) :
  load_all (fs :: fss) g = _loadParameterFactMetaData fs g
  ∧ match _loadParameterFactMetaData fs g with
    | Finished g1 =>
        _parameterMetaDataLoaded g1 = true
        ∧ ∀ fs', _loadParameterFactMetaData fs' g1 = Finished g1
    | _ => True
    end
  ∧ match addMetaDataToFact fs fact g with
    | Some (fact', g') =>
        _parameterMetaDataLoaded g' = true
        ∧ ∃ g1, _loadParameterFactMetaData fs g = Finished g1
                ∧ _mapParameterName2FactMetaData g'
                  = _mapParameterName2FactMetaData g1
    | None => ∀ g1, _loadParameterFactMetaData fs g ≠ Finished g1
    end.
Proof.
  split_and!.
  - simpl. destruct (_loadParameterFactMetaData fs g) as [g1| |] eqn:Hload;
      try done.
    apply load_all_loaded. by eapply load_sets_loaded.
  - destruct (_loadParameterFactMetaData fs g) as [g1| |] eqn:Hload;
      try done.
    apply load_sets_loaded in Hload. split; [done|].
    intros fs'. by apply load_loaded.
  - unfold addMetaDataToFact.
    destruct (_loadParameterFactMetaData fs g) as [g1| |] eqn:Hload;
      try done.
    pose proof (load_sets_loaded _ _ _ Hload) as Hl.
    destruct (_mapParameterName2FactMetaData g1 !! fact_name fact);
      simpl; (split; [done|]); by exists g1.
Qed.

(** *** C6: a fact always receives meta data *)

Lemma heap_ok_alloc m g : heap_ok g → heap_ok (alloc m g).2.
Proof.
  intros [Hmap Hlt]. split; simpl.
  - intros n p Hp. apply lookup_insert_is_Some'. right. eauto.
  - intros p Hp. apply lookup_insert_is_Some' in Hp as [->|Hp]; [lia|].
    apply Hlt in Hp. lia.
Qed.

(** C6. On consistent statics and a stream as the reader produces them,
    [addMetaDataToFact] returns and the fact leaves it with meta data:
    its meta data pointer is set, to a live object, and its name, type
    and value are as they were. The object is the entry of the loaded
    map when the name of the fact is in it, and else a new generic
    object of the type of the fact, as it is for every fact when
    nothing was loaded. *)
Theorem addMetaDataToFact_attaches (fs : Files) (fact : Fact) (g : MetaStore) :
  store_wf g → well_nested [] (parameterFile fs) = true →
  ∃ g1 g' fact' p m,
    _loadParameterFactMetaData fs g = Finished g1
    ∧ addMetaDataToFact fs fact g = Some (fact', g')
    ∧ fact_metaData fact' = Some p
    ∧ (fact_name fact', fact_type fact', fact_rawValue fact')
      = (fact_name fact, fact_type fact, fact_rawValue fact)
    ∧ objects g' !! p = Some m
    ∧ store_wf g'
    ∧ match _mapParameterName2FactMetaData g1 !! fact_name fact with
      | Some q => p = q ∧ g' = g1
      | None =>
          m = FactMetaData_new (fact_type fact)
          ∧ objects g1 !! p = None
          ∧ _mapParameterName2FactMetaData g'
            = _mapParameterName2FactMetaData g1
      end
    ∧ (_mapParameterName2FactMetaData g1 = ∅ →
       m = FactMetaData_new (fact_type fact)).
Proof.
  intros Hwf Hn.
  destruct (load_finishes fs g Hwf Hn) as (g1 & Hload & Hheap & Hl).
  assert (Hwf1 : store_wf g1) by (split; [congruence|done]).
  unfold addMetaDataToFact. rewrite Hload.
  destruct (_mapParameterName2FactMetaData g1 !! fact_name fact) as [q|] eqn:Hq.
  - destruct Hheap as [Hmap Hlt]. destruct (Hmap _ _ Hq) as [m Hm].
    exists g1, g1, (setMetaData q fact), q, m. rewrite Hq.
    split; [done|]. split; [done|]. split; [done|]. split; [done|].
    split; [done|]. split; [done|].
    split; [done|]. intros He. by rewrite He in Hq.
  - exists g1, (alloc (FactMetaData_new (fact_type fact)) g1).2,
      (setMetaData (allocated g1) fact),
      (allocated g1), (FactMetaData_new (fact_type fact)).
    rewrite Hq.
    split; [done|]. split; [done|]. split; [done|]. split; [done|].
    split; [simpl; by rewrite lookup_insert_eq|].
    split; [split; [simpl; congruence|by apply heap_ok_alloc]|].
    split; [|done].
    split; [done|]. split; [|done].
    destruct (objects g1 !! allocated g1) eqn:Ho; [|done].
    destruct Hheap as [_ Hlt].
    assert (allocated g1 < allocated g1)%nat by (apply Hlt; eauto). lia.
Qed.

(** *** C5: the first parameter *)

(** The invariant: [p0] is the first address handed out. *)
Lemma first_inv_step p0 xml l g xml' l' g' :
  first_inv p0 l g → body_step xml l g xml' l' g' → first_inv p0 l' g'.
Proof.
  intros (Hle & Hnone & Hsome) Hstep.
  destruct Hstep as
    [ ? ? | n a ? ? Hst | n a text xml' ? ? Hst Hr | n a ? ? Hst
    | n a m bad g' ? ? Hst Hm Ho Ha Hl Hmap Hbad
    | n a xml' g' ? ? Hst Hx Hg
    | n p g' ? ? Hp Hlive Hg | n ? ? | n ? ? | n ? ? ];
    try (by split_and!).
  - split_and!; [lia|lia|]. intros _. rewrite Ho. simpl.
    destruct (decide (allocated g = p0)) as [Heq|Hne].
    + rewrite Heq, lookup_insert_eq. split; [eauto|].
      left. destruct Hbad as [-> | ->]; [done|]. by apply Hnone.
    + rewrite lookup_insert_ne by done. split; [apply Hsome; lia|].
      right. congruence.
  - destruct Hg as [->|[[msg ->]|(Hb & p & f & Hp & Hlive & ->)]];
      try (by split_and!).
    split_and!; try done. intros Hlt. simpl.
    destruct (Hsome Hlt) as [Hobj [Hbad|Hptr]]; [congruence|].
    rewrite lookup_alter_ne by congruence. by split; [|right].
  - assert (Hlt : (p0 < allocated g)%nat).
    { destruct (decide (allocated g = p0)) as [Heq|]; [|lia].
      destruct (Hnone Heq) as [_ Hc]. congruence. }
    assert (allocated g' = allocated g ∧ objects g' = objects g) as [Ha Ho]
      by (by destruct Hg as [->|[msg ->]]).
    split_and!; [lia|lia|]. intros _. rewrite Ho. simpl.
    split; [by apply Hsome|by right].
Qed.

(** C5. The flag [badMetaData] starts [true] and only the end of a
    parameter element resets it, so the meta data elements of the
    first parameter element of the file are all skipped: the first
    object the loader creates, which is the one of that element, ends
    with nothing set on it but the name, the group and the default
    value. *)
Theorem first_parameter_elements_skipped (fs : Files) (g g1 : MetaStore) :
  _parameterMetaDataLoaded g = false →
  _loadParameterFactMetaData fs g = Finished g1 →
  (allocated g < allocated g1)%nat →
  ∃ m, objects g1 !! allocated g = Some m ∧ bare m.
Proof.
  intros Hl Hload.
  destruct (load_cases fs g) as [[Hc _]|[(_ & _ & Hc)|(_ & _ & Hrun)]];
    [congruence|congruence|].
  rewrite Hrun in Hload. revert Hload.
  apply (parse_loop_invariant
           (fun xml l g' => first_inv (allocated g) l g')
           (fun g' => (allocated g < allocated g')%nat →
                      ∃ m, objects g' !! allocated g = Some m ∧ bare m)).
  - intros xml l g' (_ & _ & Hsome) Hlt. by apply Hsome.
  - intros xml l g' msg (_ & _ & Hsome) Hlt. by apply Hsome.
  - intros. by eapply first_inv_step.
  - split_and!; simpl; [lia|done|lia].
Qed.

(** *** C4: a duplicate parameter *)

Lemma meta_token_body t ts l g :
  meta_token t → xmlState l = XmlStateFoundParameter →
  badMetaData l = true →
  loop_body {| tokenType := t; upcoming := ts |} l g
  = Next {| tokenType := t; upcoming := ts |} l g.
Proof.
  intros Ht Hst Hbad. unfold loop_body. simpl.
  destruct t as [| | | |n a|n| | | | |]; try done; simpl in Ht.
  - unfold start_element. apply dec_stable in Ht.
    rewrite Ht. unfold start_other.
    rewrite decide_False by (intros Hc; by apply Hc). by rewrite Hbad.
  - unfold end_element. apply dec_stable in Ht. by rewrite Ht.
Qed.

Lemma skip_meta_tokens subs fuel t0 tk rest l g :
  t0 ≠ Invalid → Forall meta_token subs →
  xmlState l = XmlStateFoundParameter → badMetaData l = true →
  parse_loop (length subs + fuel)
    (readNext {| tokenType := t0; upcoming := subs ++ tk :: rest |}) l g
  = parse_loop fuel {| tokenType := tk; upcoming := rest |} l g.
Proof.
  intros Ht0 Hsubs Hst Hbad. revert t0 Ht0.
  induction Hsubs as [|s subs Hs Hsubs IH]; intros t0 Ht0.
  - simpl. unfold readNext. simpl. by destruct t0.
  - replace (readNext {| tokenType := t0; upcoming := (s :: subs) ++ tk :: rest |})
      with {| tokenType := s; upcoming := subs ++ tk :: rest |}
      by (unfold readNext; simpl; by destruct t0).
    cbn [length Nat.add parse_loop].
    assert (atEnd {| tokenType := s; upcoming := subs ++ tk :: rest |} = false)
      as -> by (by destruct s).
    rewrite meta_token_body by done.
    apply IH. by destruct s.
Qed.


End LoaderClaims.

(** *** The sample file *)

Lemma store_wf_init : store_wf MetaStore_init.
Proof.
  split; [done|]. split; simpl.
  - intros n p Hp. by rewrite lookup_empty in Hp.
  - intros p [m Hm]. by rewrite lookup_empty in Hm.
Qed.

Lemma sample_load :
  @_loadParameterFactMetaData sample_ops sample_files MetaStore_init
  = Finished sample_loaded.
Proof. vm_compute. reflexivity. Qed.

Lemma addMetaDataToFact_attaches_witness :
  ∃ g1 g' fact' p m,
    @_loadParameterFactMetaData sample_ops sample_files MetaStore_init
    = Finished g1
    ∧ @addMetaDataToFact sample_ops sample_files sample_unknown_fact
        MetaStore_init
      = Some (fact', g')
    ∧ fact_metaData fact' = Some p
    ∧ (fact_name fact', fact_type fact', fact_rawValue fact')
      = (fact_name sample_unknown_fact, fact_type sample_unknown_fact,
         fact_rawValue sample_unknown_fact)
    ∧ objects g' !! p = Some m
    ∧ store_wf g'
    ∧ match _mapParameterName2FactMetaData g1 !! fact_name sample_unknown_fact with
      | Some q => p = q ∧ g' = g1
      | None =>
          m = FactMetaData_new (fact_type sample_unknown_fact)
          ∧ objects g1 !! p = None
          ∧ _mapParameterName2FactMetaData g'
            = _mapParameterName2FactMetaData g1
      end
    ∧ (_mapParameterName2FactMetaData g1 = ∅ →
       m = FactMetaData_new (fact_type sample_unknown_fact)).
Proof.
  apply (@addMetaDataToFact_attaches sample_ops sample_files
           sample_unknown_fact MetaStore_init).
  - exact store_wf_init.
  - reflexivity.
Defined.

Lemma first_parameter_elements_skipped_witness :
  ∃ m, objects sample_loaded !! allocated MetaStore_init = Some m ∧ bare m.
Proof.
  apply (@first_parameter_elements_skipped sample_ops sample_files
           MetaStore_init sample_loaded).
  - reflexivity.
  - exact sample_load.
  - vm_compute. lia.
Defined.

(** The second parameter of the sample file keeps its description and its
    maximum; the first one, read while the flag was still set, lost its
    description and its minimum. *)
Example sample_first_and_second :
  (md_shortDescription <$> (objects sample_loaded !! 0%nat),
   md_rawMin <$> (objects sample_loaded !! 0%nat),
   md_shortDescription <$> (objects sample_loaded !! 1%nat),
   md_rawMax <$> (objects sample_loaded !! 1%nat))
  = (Some "", Some None, Some "Second", Some (Some (QIntV 9))).
Proof. vm_compute. reflexivity. Qed.



(* ===================================================================== *)
(** ** The engine: the effect of each operation on the maps *)
(* ===================================================================== *)

#[local] Set Warnings "-clear-no-such-hyp".

Section EngineViews.

Lemma per_component_lookup {V} `{Inhabited V} (keys : gset Z) (f : Z → V) c :
  (per_component keys f : gmap Z V) !!! c
  = if decide (c ∈ keys) then f c else inhabitant.
Proof.
  rewrite lookup_total_alt.
  destruct (per_component keys f !! c) as [x|] eqn:Hl.
  - apply lookup_set_to_map in Hl as (y & Hy & Heq); [|naive_solver].
    injection Heq as -> ->. by rewrite decide_True.
  - destruct (decide (c ∈ keys)) as [Hin|]; [|done].
    assert (per_component keys f !! c = Some (f c)) as Hs.
    { apply lookup_set_to_map; [naive_solver|]. by exists c. }
    rewrite Hl in Hs. done.
Qed.

Lemma lookup_total_absent {V} `{Inhabited V} (m : gmap Z V) c :
  c ∉ dom m → m !!! c = inhabitant.
Proof.
  intros Hc. apply not_elem_of_dom in Hc.
  by rewrite lookup_total_alt, Hc.
Qed.

(** *** The retry step on one map *)

Lemma bump_lookup_Some {K} `{Countable K} (m : gmap K Z) k r :
  bump m !! k = Some r
  ↔ ∃ r0, m !! k = Some r0 ∧ r = r0 + 1 ∧ r <= _maxInitialLoadRetry.
Proof.
  unfold bump. rewrite map_lookup_filter_Some, lookup_fmap. simpl.
  destruct (m !! k) as [r0|]; simpl; split.
  - intros [[= <-] Hle]. exists r0. split_and!; [done|lia|done].
  - intros (r1 & [= <-] & -> & Hle). split; [f_equal; lia|done].
  - by intros [? _].
  - by intros (? & ? & _).
Qed.

Lemma exhausted_lookup_Some {K} `{Countable K} (m : gmap K Z) k r :
  exhausted m !! k = Some r
  ↔ ∃ r0, m !! k = Some r0 ∧ r = r0 + 1 ∧ _maxInitialLoadRetry < r.
Proof.
  unfold exhausted. rewrite map_lookup_filter_Some, lookup_fmap. simpl.
  destruct (m !! k) as [r0|]; simpl; split.
  - intros [[= <-] Hle]. exists r0. split_and!; [done|lia|done].
  - intros (r1 & [= <-] & -> & Hle). split; [f_equal; lia|done].
  - by intros [? _].
  - by intros (? & ? & _).
Qed.

Lemma bump_empty {K} `{Countable K} : bump (∅ : gmap K Z) = ∅.
Proof. unfold bump. by rewrite fmap_empty, map_filter_empty. Qed.

Lemma exhausted_empty {K} `{Countable K} : exhausted (∅ : gmap K Z) = ∅.
Proof. unfold exhausted. by rewrite fmap_empty, map_filter_empty. Qed.


Lemma within_budget_bump {K} `{Countable K} (m : gmap K Z) :
  within_budget m → within_budget (bump m).
Proof.
  intros Hm k r (r0 & Hk & -> & Hle)%bump_lookup_Some.
  apply Hm in Hk. lia.
Qed.

Lemma within_budget_empty {K} `{Countable K} : within_budget (∅ : gmap K Z).
Proof. intros k r Hk. by rewrite lookup_empty in Hk. Qed.

Lemma within_budget_delete {K} `{Countable K} (m : gmap K Z) k :
  within_budget m → within_budget (delete k m).
Proof.
  intros Hm k' r Hk. apply lookup_delete_Some in Hk as [_ Hk]. eauto.
Qed.

Lemma within_budget_insert {K} `{Countable K} (m : gmap K Z) k :
  within_budget m → within_budget (<[k := 0]> m).
Proof.
  intros Hm k' r Hk. apply lookup_insert_Some in Hk as [[_ <-]|[_ Hk]].
  - unfold _maxInitialLoadRetry. lia.
  - eauto.
Qed.

Lemma all_pending_lookup count i r :
  all_pending count !! i = Some r ↔ r = 0 ∧ 0 <= i < count.
Proof.
  unfold all_pending. rewrite lookup_gset_to_gmap_Some, elem_of_list_to_set,
    elem_of_seqZ. naive_solver lia.
Qed.

Lemma all_pending_zero : all_pending 0 = ∅.
Proof. done. Qed.

Lemma within_budget_all_pending count : within_budget (all_pending count).
Proof.
  intros k r [-> _]%all_pending_lookup. unfold _maxInitialLoadRetry. lia.
Qed.

(** *** The completion check touches no map *)

Lemma check_maps st :
  let st' := (_checkInitialLoadComplete st).1 in
  _mapParameterName2Variant st' = _mapParameterName2Variant st
  ∧ _mapParameterId2Name st' = _mapParameterId2Name st
  ∧ _paramCountMap st' = _paramCountMap st
  ∧ _waitingReadParamIndexMap st' = _waitingReadParamIndexMap st
  ∧ _waitingReadParamNameMap st' = _waitingReadParamNameMap st
  ∧ _waitingWriteParamNameMap st' = _waitingWriteParamNameMap st
  ∧ _failedReadParamIndexMap st' = _failedReadParamIndexMap st.
Proof.
  unfold _checkInitialLoadComplete.
  destruct (_initialLoadComplete st); [done|].
  by destruct (all_complete st).
Qed.

Lemma check_views st c :
  let st' := (_checkInitialLoadComplete st).1 in
  pending_index st' c = pending_index st c
  ∧ pending_name st' c = pending_name st c
  ∧ pending_write st' c = pending_write st c
  ∧ failed st' c = failed st c
  ∧ id2name st' c = id2name st c
  ∧ facts st' c = facts st c
  ∧ expected_count st' c = expected_count st c.
Proof.
  destruct (check_maps st) as (H1 & H2 & H3 & H4 & H5 & H6 & H7).
  unfold pending_index, pending_name, pending_write, failed, id2name, facts,
    expected_count. simpl.
  by rewrite H1, H2, H3, H4, H5, H6, H7.
Qed.

(** *** A notification *)

Lemma update_views st c0 n count idx ty v c :
  let st' := update_state st c0 n count idx ty v in
  (c ≠ c0 →
   pending_index st' c = pending_index st c
   ∧ pending_name st' c = pending_name st c
   ∧ pending_write st' c = pending_write st c
   ∧ id2name st' c = id2name st c
   ∧ facts st' c = facts st c
   ∧ expected_count st' c = expected_count st c)
  ∧ failed st' c = failed st c
  ∧ pending_index st' c0
    = delete idx (match _paramCountMap st !! c0 with
                  | Some _ => pending_index st c0
                  | None => all_pending count
                  end)
  ∧ pending_name st' c0 = delete n (pending_name st c0)
  ∧ pending_write st' c0 = delete n (pending_write st c0)
  ∧ id2name st' c0
    = match id2name st c0 !! idx with
      | Some _ => id2name st c0
      | None => <[idx := n]> (id2name st c0)
      end
  ∧ facts st' c0
    = <[n := updated_fact (facts st c0) n ty v]> (facts st c0)
  ∧ expected_count st' c0
    = match _paramCountMap st !! c0 with
      | Some known => known
      | None => count
      end.
Proof.
  unfold pending_index, pending_name, pending_write, failed, id2name, facts,
    expected_count, update_state. simpl. split_and!.
  - intros Hne. rewrite !lookup_total_insert_ne by done.
    split_and!; try done.
    destruct (_paramCountMap st !! c0); [done|].
    by rewrite lookup_insert_ne.
  - done.
  - by rewrite lookup_total_insert_eq.
  - by rewrite lookup_total_insert_eq.
  - by rewrite lookup_total_insert_eq.
  - by rewrite lookup_total_insert_eq.
  - by rewrite lookup_total_insert_eq.
  - destruct (_paramCountMap st !! c0) as [known|] eqn:Hk.
    + by rewrite Hk.
    + by rewrite lookup_insert_eq.
Qed.

(** *** A timeout *)

Lemma keys_sorted_elem {V} (m : gmap Z V) k :
  k ∈ keys_sorted m ↔ is_Some (m !! k).
Proof.
  unfold keys_sorted. rewrite merge_sort_Permutation, elem_of_elements.
  apply elem_of_dom.
Qed.

Lemma keys_sorted_empty {V} : keys_sorted (∅ : gmap Z V) = [].
Proof. unfold keys_sorted. by rewrite dom_empty_L, elements_empty. Qed.

Lemma add_failed_elem l i x : x ∈ add_failed l i ↔ x ∈ l ∨ x = i.
Proof.
  unfold add_failed. destruct (decide (i ∈ l)).
  - naive_solver.
  - rewrite elem_of_app, list_elem_of_singleton. done.
Qed.


Lemma add_all_failed_elem idxs l x :
  x ∈ add_all_failed l idxs ↔ x ∈ l ∨ x ∈ idxs.
Proof.
  unfold add_all_failed. revert l.
  induction idxs as [|i idxs IH]; intros l; simpl.
  - rewrite elem_of_nil. naive_solver.
  - rewrite IH, add_failed_elem, elem_of_cons. naive_solver.
Qed.


Lemma indices_of_name_elem (m : gmap Z string) n i :
  i ∈ indices_of_name m n ↔ m !! i = Some n.
Proof.
  unfold indices_of_name.
  rewrite list_elem_of_filter, merge_sort_Permutation, elem_of_elements,
    elem_of_dom.
  naive_solver.
Qed.

Lemma elem_of_flat_map {A B} (f : A → list B) (l : list A) (x : B) :
  x ∈ flat_map f l ↔ ∃ y, y ∈ l ∧ x ∈ f y.
Proof.
  induction l as [|a l IH]; simpl.
  - rewrite elem_of_nil. split; [done|]. intros (y & Hy & _).
    by apply elem_of_nil in Hy.
  - rewrite elem_of_app, IH. setoid_rewrite elem_of_cons. naive_solver.
Qed.

Lemma failed_after_elem st c x :
  x ∈ failed_after st c
  ↔ x ∈ failed st c
    ∨ is_Some (exhausted (pending_index st c) !! x)
    ∨ ∃ n, is_Some (exhausted (pending_name st c) !! n)
           ∧ id2name st c !! x = Some n.
Proof.
  unfold failed_after. fold (failed st c) (pending_index st c)
    (pending_name st c) (id2name st c).
  rewrite add_all_failed_elem, elem_of_app, keys_sorted_elem.
  rewrite elem_of_flat_map.
  setoid_rewrite indices_of_name_elem.
  setoid_rewrite list_elem_of_fmap.
  split.
  - intros [?|[?|(n & ([n' r] & -> & Hn) & Hx)]]; [auto..|].
    right; right. exists n'. split; [|done].
    apply elem_of_map_to_list in Hn. eauto.
  - intros [?|[?|(n & [r Hn] & Hx)]]; [auto..|].
    right; right. exists n. split; [|done].
    exists (n, r). split; [done|]. by apply elem_of_map_to_list.
Qed.

Lemma timeout_views st c :
  let st' := timeout_state st in
  pending_index st' c = bump (pending_index st c)
  ∧ pending_name st' c = bump (pending_name st c)
  ∧ pending_write st' c = bump (pending_write st c)
  ∧ failed st' c = failed_after st c
  ∧ id2name st' c = id2name st c
  ∧ facts st' c = facts st c
  ∧ expected_count st' c = expected_count st c.
Proof.
  unfold pending_index, pending_name, pending_write, failed, id2name, facts,
    expected_count, timeout_state. simpl. split_and!; try done.
  - rewrite lookup_total_fmap, lookup_total_alt.
    destruct (_waitingReadParamIndexMap st !! c); [done|].
    simpl. by rewrite bump_empty.
  - rewrite lookup_total_fmap, lookup_total_alt.
    destruct (_waitingReadParamNameMap st !! c); [done|].
    simpl. by rewrite bump_empty.
  - rewrite lookup_total_fmap, lookup_total_alt.
    destruct (_waitingWriteParamNameMap st !! c); [done|].
    simpl. by rewrite bump_empty.
  - rewrite per_component_lookup.
    destruct (decide (c ∈ waiting_components st)) as [|Hc]; [done|].
    unfold waiting_components in Hc.
    unfold failed_after.
    rewrite (lookup_total_absent (_waitingReadParamIndexMap st) c) by set_solver.
    rewrite (lookup_total_absent (_waitingReadParamNameMap st) c) by set_solver.
    rewrite (lookup_total_absent (_failedReadParamIndexMap st) c) by set_solver.
    change (@inhabitant (gmap Z Z) _) with (∅ : gmap Z Z).
    change (@inhabitant (gmap string Z) _) with (∅ : gmap string Z).
    rewrite !exhausted_empty, (@keys_sorted_empty Z), map_to_list_empty.
    done.
Qed.

(** *** A refresh of the whole set *)

Lemma refresh_views st cid c :
  let st' := (refreshAllParameters st cid).1 in
  pending_index st' c
  = (if targeted cid c then all_pending (expected_count st c)
     else pending_index st c)
  ∧ pending_name st' c = (if targeted cid c then ∅ else pending_name st c)
  ∧ pending_write st' c = (if targeted cid c then ∅ else pending_write st c)
  ∧ failed st' c = (if targeted cid c then [] else failed st c)
  ∧ id2name st' c = id2name st c
  ∧ facts st' c = facts st c
  ∧ expected_count st' c = expected_count st c.
Proof.
  unfold pending_index, pending_name, pending_write, failed, id2name, facts,
    refreshAllParameters. simpl. rewrite !per_component_lookup.
  destruct (decide (c ∈ dom (_paramCountMap st) ∪ waiting_components st))
    as [|Hc]; [done|].
  unfold waiting_components in Hc.
  rewrite (lookup_total_absent (_waitingReadParamIndexMap st) c) by set_solver.
  rewrite (lookup_total_absent (_waitingReadParamNameMap st) c) by set_solver.
  rewrite (lookup_total_absent (_waitingWriteParamNameMap st) c) by set_solver.
  rewrite (lookup_total_absent (_failedReadParamIndexMap st) c) by set_solver.
  assert (expected_count st c = 0) as Hzero.
  { unfold expected_count.
    assert (c ∉ dom (_paramCountMap st)) as Hd by set_solver.
    apply not_elem_of_dom in Hd. by rewrite Hd. }
  split_and!; try done.
  - rewrite Hzero, all_pending_zero. by destruct (targeted cid c).
  - by destruct (targeted cid c).
  - by destruct (targeted cid c).
  - by destruct (targeted cid c).
Qed.

(** *** A load of the cached set *)

Lemma cache_views st (set : gmap Z (list CachedParameter)) c :
  let st' := cache_state st set in
  pending_index st' c = ∅ ∧ pending_name st' c = ∅
  ∧ pending_write st' c = ∅ ∧ failed st' c = []
  ∧ id2name st' c = map_seqZ 0 (cached_name <$> default [] (set !! c))
  ∧ expected_count st' c = Z.of_nat (length (default [] (set !! c))).
Proof.
  unfold pending_index, pending_name, pending_write, failed, id2name,
    expected_count, cache_state. simpl.
  rewrite !lookup_total_empty, lookup_total_alt, !lookup_fmap.
  split_and!; try done; by destruct (set !! c).
Qed.

Lemma tryCacheHashLoad_cases st (h : QVariant) (stored : option CacheEntry) :
  (∃ entry, stored = Some entry ∧ cache_hash entry = h
            ∧ _tryCacheHashLoad st h stored
              = _checkInitialLoadComplete (cache_state st (cache_set entry)))
  ∨ _tryCacheHashLoad st h stored = (st, [RequestParameterList MAV_COMP_ID_ALL]).
Proof.
  unfold _tryCacheHashLoad. destruct stored as [entry|]; [|by right].
  destruct (decide _); [left; eauto|by right].
Qed.

End EngineViews.

Section EngineInvariants.

Implicit Types (e : Event).

(** *** The calls of the clients *)

Lemma refreshParameter_views st c0 n c :
  let st' := (refreshParameter st c0 n).1 in
  pending_index st' c = pending_index st c
  ∧ pending_write st' c = pending_write st c
  ∧ failed st' c = failed st c
  ∧ id2name st' c = id2name st c
  ∧ facts st' c = facts st c
  ∧ expected_count st' c = expected_count st c
  ∧ pending_name st' c
    = if decide (c = _actualComponentId st c0)
      then <[n := 0]> (pending_name st c) else pending_name st c.
Proof.
  unfold pending_name, refreshParameter. simpl. split_and!; try done.
  destruct (decide (c = _actualComponentId st c0)) as [->|Hne].
  - by rewrite lookup_total_insert_eq.
  - by rewrite lookup_total_insert_ne.
Qed.

Lemma refreshParametersPrefix_views st c0 p c :
  let st' := (refreshParametersPrefix st c0 p).1 in
  pending_index st' c = pending_index st c
  ∧ pending_write st' c = pending_write st c
  ∧ failed st' c = failed st c
  ∧ id2name st' c = id2name st c
  ∧ facts st' c = facts st c
  ∧ expected_count st' c = expected_count st c
  ∧ ∃ names : gset string,
      pending_name st' c
      = if decide (c = _actualComponentId st c0)
        then gset_to_gmap 0 names ∪ pending_name st c
        else pending_name st c.
Proof.
  unfold pending_name, refreshParametersPrefix. simpl. split_and!; try done.
  eexists.
  destruct (decide (c = _actualComponentId st c0)) as [->|Hne].
  - by rewrite lookup_total_insert_eq.
  - by rewrite lookup_total_insert_ne.
Qed.

Lemma write_views st c0 n v c :
  let st' := (writeParameterRaw st c0 n v).1.1 in
  pending_index st' c = pending_index st c
  ∧ pending_name st' c = pending_name st c
  ∧ failed st' c = failed st c
  ∧ id2name st' c = id2name st c
  ∧ expected_count st' c = expected_count st c
  ∧ (pending_write st' c = pending_write st c
     ∨ pending_write st' c = <[n := 0]> (pending_write st c)).
Proof.
  unfold writeParameterRaw.
  destruct ((_mapParameterName2Variant st !!! _actualComponentId st c0) !! n)
    as [fact|]; [|by split_and!; auto].
  destruct (validRaw (fact_type fact) v); [|by split_and!; auto].
  unfold pending_write. simpl. split_and!; try done.
  destruct (decide (c = _actualComponentId st c0)) as [->|Hne].
  - right. by rewrite lookup_total_insert_eq.
  - left. by rewrite lookup_total_insert_ne.
Qed.

Lemma initialRequestTimeout_state st : (_initialRequestTimeout st).1 = st.
Proof. unfold _initialRequestTimeout. by destruct (decide _). Qed.

(** *** The retry counts stay within the budget *)

Lemma within_budget_union {K} `{Countable K} (names : gset K) (m : gmap K Z) :
  within_budget m → within_budget (gset_to_gmap 0 names ∪ m).
Proof.
  intros Hm k r Hk. apply lookup_union_Some_raw in Hk as [Hk|[_ Hk]].
  - apply lookup_gset_to_gmap_Some in Hk as [_ <-].
    unfold _maxInitialLoadRetry. lia.
  - eauto.
Qed.

Lemma retry_bounded_check st :
  retry_bounded st → retry_bounded (_checkInitialLoadComplete st).1.
Proof.
  intros Hb c. destruct (check_views st c) as (-> & -> & -> & _). apply Hb.
Qed.

Lemma retry_bounded_step st e :
  retry_bounded st → retry_bounded (step st e).1.
Proof.
  intros Hb. destruct e as [c0 n count idx ty v| | |cid|c0 n|c0 p|c0 n v|h stored|];
    cbn [step].
  - unfold _parameterUpdate.
    pose proof (retry_bounded_check (update_state st c0 n count idx ty v)) as Hc.
    destruct (_checkInitialLoadComplete _) as [st' out]. simpl in *.
    apply Hc. clear Hc. intros c.
    destruct (update_views st c0 n count idx ty v c)
      as (Hne & _ & Hi & Hn & Hw & _).
    destruct (decide (c = c0)) as [->|Hc].
    + rewrite Hi, Hn, Hw. destruct (Hb c0) as (Hbi & Hbn & Hbw).
      split_and!; apply within_budget_delete; try done.
      destruct (_paramCountMap st !! c0); [done|].
      apply within_budget_all_pending.
    + destruct (Hne Hc) as (-> & -> & -> & _). apply Hb.
  - unfold _waitingParamTimeout.
    pose proof (retry_bounded_check (timeout_state st)) as Hc.
    destruct (_checkInitialLoadComplete _) as [st' out]. simpl in *.
    apply Hc. clear Hc. intros c.
    destruct (timeout_views st c) as (-> & -> & -> & _).
    destruct (Hb c) as (Hbi & Hbn & Hbw).
    split_and!; by apply within_budget_bump.
  - by rewrite initialRequestTimeout_state.
  - intros c. destruct (refresh_views st cid c) as (-> & -> & -> & _).
    destruct (Hb c) as (Hbi & Hbn & Hbw).
    destruct (targeted cid c); split_and!; try done;
      auto using within_budget_all_pending, within_budget_empty.
  - intros c. destruct (refreshParameter_views st c0 n c)
      as (-> & -> & _ & _ & _ & _ & ->).
    destruct (Hb c) as (Hbi & Hbn & Hbw). split_and!; try done.
    destruct (decide _); [|done]. by apply within_budget_insert.
  - intros c. destruct (refreshParametersPrefix_views st c0 p c)
      as (-> & -> & _ & _ & _ & _ & names & ->).
    destruct (Hb c) as (Hbi & Hbn & Hbw). split_and!; try done.
    destruct (decide _); [|done]. by apply within_budget_union.
  - intros c. destruct (write_views st c0 n v c)
      as (-> & -> & _ & _ & _ & Hw).
    destruct (Hb c) as (Hbi & Hbn & Hbw). split_and!; try done.
    destruct Hw as [->| ->]; [done|]. by apply within_budget_insert.
  - destruct (tryCacheHashLoad_cases st h stored)
      as [(entry & _ & _ & ->)| ->]; [|done].
    apply retry_bounded_check. intros c.
    destruct (cache_views st (cache_set entry) c) as (-> & -> & -> & _).
    split_and!; apply within_budget_empty.
  - done.
Qed.

Lemma retry_bounded_new : retry_bounded ParameterLoader_new.
Proof.
  intros c. unfold pending_index, pending_name, pending_write. simpl.
  rewrite !lookup_total_empty. split_and!; apply within_budget_empty.
Qed.


Lemma run_cons st e evs :
  (run st (e :: evs)).1 = (run (step st e).1 evs).1.
Proof.
  cbn [run]. destruct (step st e) as [st1 out1]. cbn [fst].
  by destruct (run st1 evs).
Qed.

Lemma retry_bounded_run st evs :
  retry_bounded st → retry_bounded (run st evs).1.
Proof.
  revert st. induction evs as [|e evs IH]; intros st Hb; [done|].
  rewrite run_cons. by apply IH, retry_bounded_step.
Qed.

(** *** The bookkeeping of the indices stays consistent *)











End EngineInvariants.

Section EngineProgress.

Implicit Types (e : Event).

(** *** Completion *)






(** *** The completion check and the flag *)

Lemma check_done st :
  _initialLoadComplete st = true → _checkInitialLoadComplete st = (st, []).
Proof. unfold _checkInitialLoadComplete. by intros ->. Qed.







End EngineProgress.

Section EngineEpoch.

Implicit Types (e : Event).









(** *** One step of a load in progress *)






(** *** A load nobody answers *)




(** *** A load that was answered *)



(** *** A load from the cache *)




End EngineEpoch.

(* ===================================================================== *)
(** ** Properties of the synchronization engine *)
(* ===================================================================== *)

Section EngineClaims.

Implicit Types (e : Event).


Lemma timeout_state_views st c :
  let st' := (_waitingParamTimeout st).1 in
  pending_index st' c = bump (pending_index st c)
  ∧ pending_name st' c = bump (pending_name st c)
  ∧ pending_write st' c = bump (pending_write st c)
  ∧ failed st' c = failed_after st c.
Proof.
  unfold _waitingParamTimeout.
  pose proof (check_views (timeout_state st) c) as Hv.
  destruct (_checkInitialLoadComplete _) as [st' out]. cbn [fst snd] in *.
  destruct Hv as (-> & -> & -> & -> & _).
  by destruct (timeout_views st c) as (-> & -> & -> & -> & _).
Qed.

Lemma bump_step {K} `{Countable K} (m : gmap K Z) k r :
  within_budget m → m !! k = Some r →
  if decide (r < _maxInitialLoadRetry)
  then bump m !! k = Some (r + 1)
  else bump m !! k = None ∧ exhausted m !! k = Some (r + 1).
Proof.
  intros Hm Hk. destruct (decide (r < _maxInitialLoadRetry)) as [Hlt|Hge].
  - apply bump_lookup_Some. exists r. split_and!; [done..|lia].
  - split.
    + destruct (bump m !! k) as [r'|] eqn:Hb; [|done].
      apply bump_lookup_Some in Hb as (r0 & Hr0 & -> & Hle).
      rewrite Hk in Hr0. injection Hr0 as <-. lia.
    + apply exhausted_lookup_Some. exists r. split_and!; [done..|lia].
Qed.

Lemma abandoned_reported st c n :
  is_Some (exhausted (pending_write st c) !! n) →
  WriteAbandoned c n ∈ (_waitingParamTimeout st).2.
Proof.
  intros [r Hn]. unfold _waitingParamTimeout.
  destruct (_checkInitialLoadComplete _) as [st' out]. cbn [snd].
  apply elem_of_app. left. apply elem_of_flat_map. exists c. split.
  - rewrite merge_sort_Permutation, elem_of_elements.
    unfold waiting_components.
    assert (c ∈ dom (_waitingWriteParamNameMap st)); [|set_solver].
    apply elem_of_dom. unfold pending_write in Hn.
    rewrite lookup_total_alt in Hn.
    destruct (_waitingWriteParamNameMap st !! c); [eauto|].
    simpl in Hn. by rewrite exhausted_empty, lookup_empty in Hn.
  - unfold reissued. rewrite !elem_of_app. right; right; right.
    apply list_elem_of_fmap. exists n. split; [done|].
    apply list_elem_of_fmap. exists (n, r). split; [done|].
    by apply elem_of_map_to_list.
Qed.

(** C2. In every state the engine reaches, the retry count of every
    entry of the three waiting maps is at most the retry budget of 10.
    A waiting parameter timeout increments the count of an entry below
    the budget; an entry that has used the budget up leaves its
    pending map: the index of a read joins the failed set, a write is
    abandoned and reported. *)
Theorem retry_count_within_budget (history : list Event) :
  let st := (run ParameterLoader_new history).1 in
  let st' := (_waitingParamTimeout st).1 in
  let out := (_waitingParamTimeout st).2 in
  retry_bounded st
  ∧ ∀ c,
      (∀ i r, pending_index st c !! i = Some r →
         if decide (r < _maxInitialLoadRetry)
         then pending_index st' c !! i = Some (r + 1)
         else pending_index st' c !! i = None ∧ i ∈ failed st' c)
      ∧ (∀ n r, pending_name st c !! n = Some r →
           if decide (r < _maxInitialLoadRetry)
           then pending_name st' c !! n = Some (r + 1)
           else pending_name st' c !! n = None
                ∧ ∀ i, id2name st c !! i = Some n → i ∈ failed st' c)
      ∧ (∀ n r, pending_write st c !! n = Some r →
           if decide (r < _maxInitialLoadRetry)
           then pending_write st' c !! n = Some (r + 1)
           else pending_write st' c !! n = None ∧ WriteAbandoned c n ∈ out).
Proof.
  intros st st' out.
  assert (Hb : retry_bounded st)
    by (apply retry_bounded_run, retry_bounded_new).
  split; [done|]. intros c.
  destruct (timeout_state_views st c) as (Hi & Hn & Hw & Hf).
  fold st' in Hi, Hn, Hw, Hf. rewrite Hi, Hn, Hw, Hf.
  destruct (Hb c) as (Hbi & Hbn & Hbw).
  split_and!.
  - intros i r Hr. pose proof (bump_step _ i r Hbi Hr) as Hs.
    destruct (decide _); [done|]. destruct Hs as [Hnone Hex].
    split; [done|]. apply failed_after_elem. right; left. eauto.
  - intros n r Hr. pose proof (bump_step _ n r Hbn Hr) as Hs.
    destruct (decide _); [done|]. destruct Hs as [Hnone Hex].
    split; [done|]. intros i Hin.
    apply failed_after_elem. right; right. exists n. eauto.
  - intros n r Hr. pose proof (bump_step _ n r Hbw Hr) as Hs.
    destruct (decide _); [done|]. destruct Hs as [Hnone Hex].
    split; [done|]. apply abandoned_reported. eauto.
Qed.






End EngineClaims.

(** *** The sample engine *)

Example sample_scenario :
  let r := run sample_engine (replicate 11 WaitingParamTimeout) in
  (failed r.1 1, resolved_count r.1 1, failed_count r.1 1,
   _initialLoadComplete r.1, filter (λ s, is_ready s = true) r.2)
  = ([1], 2, 1, true, [parametersReady true]).
Proof. vm_compute. reflexivity. Qed.



(** A cached set of two parameters of component 1 whose hash matches:
    the engine is ready at once and sends no read. With another hash
    the parameter list is requested. *)
Example sample_cache_hit :
  let entry :=
    {| cache_hash := QUIntV 77;
       cache_set :=
         {[ 1 := [ {| cached_name := "BAT_N_CELLS"; cached_type := valueTypeInt32;
                      cached_value := QIntV 3 |};
                   {| cached_name := "MC_ROLL_P"; cached_type := valueTypeUint8;
                      cached_value := QUIntV 7 |} ] ]} |} in
  let r := step ParameterLoader_new (TryCacheHashLoad (QUIntV 77) (Some entry)) in
  (r.2, _initialLoadComplete r.1, resolved_count r.1 1,
   value_of r.1 1 "MC_ROLL_P",
   (step ParameterLoader_new (TryCacheHashLoad (QUIntV 78) (Some entry))).2)
  = ([parametersReady false; SaveToCache], true, 2, Some (QUIntV 7),
     [RequestParameterList MAV_COMP_ID_ALL]).
Proof. vm_compute. reflexivity. Qed.

(* ===================================================================== *)
(** ** Export and import of the mirror *)
(* ===================================================================== *)

Section TextFacts.


Lemma split_on_cons (sep : ascii) (s : string) :
  ∃ field fields, split_on sep s = field :: fields.
Proof.
  induction s as [|b s (field & fields & IH)]; [by eexists _, _|].
  cbn [split_on]. destruct (Ascii.eqb b sep); [by eexists _, _|].
  rewrite IH. by eexists _, _.
Qed.









End TextFacts.

Section RoundTrip.

Context `{QtFloat} `{QtFloatText}.




(** *** The text *)


(** *** One line *)

Lemma line_valid_imported l :
  line_valid l = true ↔ is_Some (imported (line_type l) (line_value l)).
Proof. unfold line_valid. apply bool_decide_eq_true. Qed.


(** *** A stream *)






End RoundTrip.



(** The sample: the text of the export; the value 3 of BAT_N_CELLS comes
    back; the value 300 of the Uint8 parameter MC_ROLL_P is rejected,
    reported, and the target keeps its 7. *)
Example sample_round_trip :
  let stream := @writeParametersToStream QtFloatText_none sample_engine in
  let r := @readParametersFromStream QtFloat_none sample_target stream in
  (text_lines stream,
   value_of sample_target 1 "BAT_N_CELLS", value_of r.1.1 1 "BAT_N_CELLS",
   value_of r.1.1 1 "MC_ROLL_P", r.2)
  = ([String.concat (String tab "") ["1"; "MC_ROLL_P"; "1"; "300"];
      String.concat (String tab "") ["1"; "BAT_N_CELLS"; "6"; "3"]],
     Some (QIntV 6), Some (QIntV 3), Some (QUIntV 7), "Rejected 1:MC_ROLL_P;").
Proof. vm_compute. reflexivity. Qed.

(* ===================================================================== *)
(** ** The walk of the loader, iteration by iteration *)
(* ===================================================================== *)

Section Walk.

Context `{FactMetaDataOps}.

#[local] Ltac said := eexists; (split; [|reflexivity]); reflexivity.

Lemma start_parameter_iteration n xml a l g xml' l' g' :
  tokenType xml = StartElement n a → element_kind n = parameter →
  start_parameter xml a l g = Next xml' l' g' →
  iteration xml l g xml' l' g'.
Proof.
  intros Htok Hk. unfold start_parameter. intros Hs.
  destruct (decide (xmlState l ≠ XmlStateFoundGroup)) as [|Hst]; [done|].
  apply dec_stable in Hst.
  destruct (negb (hasAttribute a "name") || negb (hasAttribute a "type"))%bool;
    [done|].
  destruct (stringToType (attribute_value a "type")) as [foundType unknownType]
    eqn:Hty.
  destruct unknownType; [done|]. simpl in Hs.
  destruct (decide (is_Some (_mapParameterName2FactMetaData g
                               !! attribute_value a "name"))) as [Hdup|Hnew].
  - injection Hs as <- <- <-.
    by eapply (iter_duplicate xml l g n a foundType).
  - assert (Hnone : _mapParameterName2FactMetaData g
                      !! attribute_value a "name" = None).
    { destruct (_ !! _) eqn:Hq; [|done]. destruct Hnew. eauto. }
    rewrite !alter_insert_eq, lookup_insert_eq in Hs.
    destruct (hasAttribute a "default"
              && negb (bool_decide (attribute_value a "default" = "")))%bool.
    + destruct (convertAndValidateRaw _ _ false) as [v|e];
        injection Hs as <- <- <-;
        eapply (iter_named xml l g n a foundType); try done.
      * right; left. exists v. unfold named_store, poke, map_set, alloc. simpl.
        by rewrite !alter_insert_eq.
      * right; right. exists e. unfold named_store, poke, map_set, alloc, say.
        simpl. by rewrite !alter_insert_eq.
    + injection Hs as <- <- <-.
      eapply (iter_named xml l g n a foundType); try done.
      left. unfold named_store, poke, map_set, alloc. simpl.
      by rewrite !alter_insert_eq.
Qed.

Lemma start_other_iteration n xml a l g xml' l' g' :
  tokenType xml = StartElement n a → element_kind n = other_element →
  start_other n xml a l g = Next xml' l' g' →
  iteration xml l g xml' l' g'.
Proof.
  intros Htok Hk. unfold start_other. intros Hs.
  destruct (decide (xmlState l ≠ XmlStateFoundParameter)) as [|Hst]; [done|].
  apply dec_stable in Hst.
  destruct (badMetaData l) eqn:Hbad.
  { injection Hs as <- <- <-. by eapply iter_meta_skipped. }
  destruct (meta_element n) eqn:Hme;
    try (assert (Hreads : reads_text n = true)
           by (unfold reads_text; by rewrite Hk, Hme));
    try (apply deref_inv in Hs as (p & m & Hp & Hm & Hs); [|done]);
    try (destruct (readElementText xml) as [text xml1] eqn:Hr;
         replace xml1 with (readElementText xml).2 in * by (by rewrite Hr));
    try (apply deref_inv in Hs as (p & m & Hp & Hm & Hs); [|done]).
  - injection Hs as <- <- <-. eapply iter_meta_set; eauto. constructor.
  - injection Hs as <- <- <-. eapply iter_meta_set; eauto. constructor.
  - destruct (convertAndValidateRaw m _ true); injection Hs as <- <- <-.
    + eapply iter_meta_set; eauto. constructor.
    + eapply iter_meta_noted; eauto. right. eexists. split; [|reflexivity]. done.
  - destruct (convertAndValidateRaw m _ true); injection Hs as <- <- <-.
    + eapply iter_meta_set; eauto. constructor.
    + eapply iter_meta_noted; eauto. right. eexists. split; [|reflexivity]. done.
  - injection Hs as <- <- <-. eapply iter_meta_set; eauto. constructor.
  - destruct (QVariant_toUInt text) as [d [|]]; injection Hs as <- <- <-.
    + eapply iter_meta_set; eauto. constructor.
    + eapply iter_meta_noted; eauto. right. eexists. split; [|reflexivity]. done.
  - destruct (equals_true_nocase text); injection Hs as <- <- <-.
    + eapply iter_meta_set; eauto. constructor.
    + eapply iter_meta_noted; eauto.
  - injection Hs as <- <- <-. eapply iter_meta_noted; eauto.
  - destruct (convertAndValidateRaw m _ false); injection Hs as <- <- <-.
    + eapply iter_meta_set; eauto. constructor.
    + eapply iter_meta_noted; eauto. right. eexists. split; [|reflexivity]. done.
  - injection Hs as <- <- <-. eapply iter_meta_noted; eauto.
    right. eexists. split; [|reflexivity]. done.
Qed.

(** An iteration that goes on is one of the cases of [iteration]. *)
Lemma loop_body_iteration xml l g xml' l' g' :
  loop_body xml l g = Next xml' l' g' → iteration xml l g xml' l' g'.
Proof.
  unfold loop_body. intros Hb.
  destruct (tokenType xml) as [| | | |n a|n| | | | |] eqn:Htok;
    try (injection Hb as <- <- <-; by apply iter_skip; rewrite Htok).
  - unfold start_element in Hb.
    destruct (element_kind n) eqn:Hk.
    + destruct (decide (xmlState l ≠ XmlStateNone)) as [|Hst]; [done|].
      apply dec_stable in Hst. injection Hb as <- <- <-.
      by eapply iter_parameters.
    + destruct (decide (xmlState l ≠ XmlStateFoundParameters)) as [|Hst];
        [done|].
      apply dec_stable in Hst.
      destruct (readElementText xml) as [text xml1] eqn:Hr.
      destruct (QString_toInt text) as [v|] eqn:Hv; [|done].
      destruct (decide (v <= 2)); [done|]. injection Hb as <- <- <-.
      replace xml1 with (readElementText xml).2 by (by rewrite Hr).
      eapply (iter_version xml l g n a v); try done.
      * by rewrite Hr.
      * lia.
    + destruct (decide (xmlState l ≠ XmlStateFoundVersion)) as [|Hst]; [done|].
      apply dec_stable in Hst.
      destruct (hasAttribute a "name") eqn:Hn; [|done].
      injection Hb as <- <- <-. simpl. by eapply iter_group.
    + by eapply start_parameter_iteration.
    + by eapply start_other_iteration.
  - unfold end_element in Hb.
    destruct (element_kind n) eqn:Hk;
      try (injection Hb as <- <- <-).
    + by eapply iter_end_parameters.
    + eapply iter_end_other; eauto.
    + by eapply iter_end_group.
    + apply deref_inv in Hb as (p & m & Hp & Hm & Hb); [|done].
      injection Hb as <- <- <-.
      eapply iter_end_parameter; eauto.
      destruct (md_rawDefaultValue m) as [d|]; [|by left].
      destruct (convertAndValidateRaw m d false); [by left|].
      right. eexists. split; [|reflexivity]. done.
    + eapply iter_end_other; eauto.
Qed.

(** An iteration that returns logs a structural message. *)
Lemma loop_body_return_structural xml l g g' :
  loop_body xml l g = Return g' →
  ∃ msg, is_structural_message msg = true ∧ g' = say msg g.
Proof.
  unfold loop_body. intros Hb.
  destruct (tokenType xml) as [| | | |n a|n| | | | |] eqn:Htok; try done.
  - unfold start_element in Hb.
    destruct (element_kind n) eqn:Hk.
    + destruct (decide (xmlState l ≠ XmlStateNone));
        [injection Hb as <-; said|done].
    + destruct (decide (xmlState l ≠ XmlStateFoundParameters));
        [injection Hb as <-; said|].
      destruct (readElementText xml) as [text xml1] eqn:Hr.
      destruct (QString_toInt text) as [v|]; [|injection Hb as <-; said].
      destruct (decide (v <= 2)); [injection Hb as <-; said|done].
    + destruct (decide (xmlState l ≠ XmlStateFoundVersion));
        [injection Hb as <-; said|].
      destruct (negb (hasAttribute a "name")); [injection Hb as <-; said|done].
    + revert Hb. unfold start_parameter.
      destruct (decide (xmlState l ≠ XmlStateFoundGroup));
        [intros [= <-]; said|].
      destruct (negb (hasAttribute a "name") || negb (hasAttribute a "type"))%bool;
        [intros [= <-]; said|].
      destruct (stringToType (attribute_value a "type"))
        as [foundType unknownType].
      destruct unknownType; [intros [= <-]; said|]. simpl.
      destruct (decide (is_Some (_mapParameterName2FactMetaData g
                                   !! attribute_value a "name"))); [done|].
      rewrite !alter_insert_eq, lookup_insert_eq.
      destruct (hasAttribute a "default"
                && negb (bool_decide (attribute_value a "default" = "")))%bool;
        [|done].
      by destruct (convertAndValidateRaw _ _ false).
    + revert Hb. unfold start_other.
      destruct (decide (xmlState l ≠ XmlStateFoundParameter));
        [intros [= <-]; said|].
      destruct (badMetaData l); [done|]. intros Hs. exfalso.
      destruct (meta_element n);
        try (apply deref_inv in Hs as (p & m & Hp & Hm & Hs); [|done]);
        try (destruct (readElementText xml) as [text xml1] eqn:Hrd);
        try (apply deref_inv in Hs as (p & m & Hp & Hm & Hs); [|done]);
        try done.
      * by destruct (convertAndValidateRaw m _ true).
      * by destruct (convertAndValidateRaw m _ true).
      * by destruct (QVariant_toUInt text) as [d [|]].
      * by destruct (equals_true_nocase text).
      * by destruct (convertAndValidateRaw m _ false).
  - unfold end_element in Hb.
    destruct (element_kind n) eqn:Hk; try done.
    apply deref_inv in Hb as (p & m & Hp & Hm & Hb); done.
Qed.

(** An invariant of the iterations holds of the statics the loop ends
    with, whether it ends at the end of the stream or on a return. *)
Lemma parse_loop_iterations
  (I : QXmlStreamReader → Locals → MetaStore → Prop) (P : MetaStore → Prop) :
  (∀ xml l g, I xml l g → atEnd xml = true → P g) →
  (∀ xml l g msg, I xml l g → atEnd xml = false →
     is_structural_message msg = true → P (say msg g)) →
  (∀ xml l g xml' l' g',
     I xml l g → atEnd xml = false → iteration xml l g xml' l' g' →
     I (readNext xml') l' g') →
  ∀ fuel xml l g g',
    I xml l g → parse_loop fuel xml l g = Finished g' → P g'.
Proof.
  intros Hend Hret Hstep.
  induction fuel as [|fuel IH]; intros xml l g g' HI Hrun; [done|].
  simpl in Hrun. destruct (atEnd xml) eqn:Hat.
  - injection Hrun as <-. eauto.
  - destruct (loop_body xml l g) as [xml1 l1 g1|g1|] eqn:Hb; [| |done].
    + apply loop_body_iteration in Hb. eauto.
    + injection Hrun as <-.
      apply loop_body_return_structural in Hb as (msg & Hmsg & ->). eauto.
Qed.

End Walk.

(** The cases of an iteration, with the names the proofs below use. *)
Ltac iteration_cases Hstep :=
  destruct Hstep as
    [ Hns Hne
    | n a Htok Hk Hst
    | n a v Htok Hk Hst Hv Hv2
    | n a Htok Hk Hst Hn
    | n a ty Htok Hk Hst Hty Hdup
    | n a ty g'' Htok Hk Hst Hty Hnew Hg
    | n a Htok Hk Hst Hbad
    | n a xml' g'' Htok Hk Hst Hbad Hx Hg
    | n a p m f Htok Hk Hst Hbad Hreads Hp Hm Hf
    | n p m g'' Htok Hk Hp Hm Hg
    | n Htok Hk
    | n Htok Hk
    | n Htok Hk ].

Section WalkStore.

Context `{FactMetaDataOps}.

Lemma named_store_objects name ty grp g :
  objects (named_store name ty grp g)
  = <[allocated g := setGroup grp (setName name (FactMetaData_new ty))]>
      (objects g).
Proof.
  unfold named_store, poke, map_set, alloc. simpl.
  by rewrite !alter_insert_eq.
Qed.

(** *** The loop terminates *)

Lemma parse_loop_more_fuel fuel k xml l g :
  parse_loop fuel xml l g ≠ OutOfFuel →
  parse_loop (fuel + k) xml l g = parse_loop fuel xml l g.
Proof.
  revert xml l g. induction fuel as [|fuel IH]; intros xml l g Hrun; [done|].
  cbn [Nat.add parse_loop] in *.
  destruct (atEnd xml); [done|].
  destruct (loop_body xml l g) as [xml' l' g'| |]; try done.
  by apply IH.
Qed.

(** X1. The loop of the loader ends on every token stream: two more
    iterations than the file has tokens always suffice, the load never
    stops for want of iterations, and more iterations than that change
    nothing of the outcome. *)
Theorem load_terminates (fs : Files) (g : MetaStore) (fuel : nat) :
  _loadParameterFactMetaData fs g ≠ OutOfFuel
  ∧ ((2 + length (parameterFile fs) ≤ fuel)%nat →
     parse_loop fuel (QXmlStreamReader_new (parameterFile fs)) Locals_init
       (set_loaded g)
     = parse_loop (2 + length (parameterFile fs))
         (QXmlStreamReader_new (parameterFile fs)) Locals_init (set_loaded g)).
Proof.
  assert (Hrun : parse_loop (2 + length (parameterFile fs))
                   (QXmlStreamReader_new (parameterFile fs)) Locals_init
                   (set_loaded g) ≠ OutOfFuel).
  { apply parse_loop_total. simpl. lia. }
  split.
  - destruct (load_cases fs g) as [[_ ->]|[(_ & _ & ->)|(_ & _ & ->)]];
      try done.
  - intros Hfuel.
    replace fuel
      with ((2 + length (parameterFile fs))
            + (fuel - (2 + length (parameterFile fs))))%nat by lia.
    by apply parse_loop_more_fuel.
Qed.

(** A load that runs is the loop over the file. *)
Lemma load_runs fs g g1 :
  _parameterMetaDataLoaded g = false →
  _loadParameterFactMetaData fs g = Finished g1 →
  _mapParameterName2FactMetaData g = ∅
  ∧ parse_loop (2 + length (parameterFile fs))
      (QXmlStreamReader_new (parameterFile fs)) Locals_init (set_loaded g)
    = Finished g1.
Proof.
  intros Hl Hload.
  destruct (load_cases fs g) as [[Hc _]|[(_ & _ & Hc)|(_ & He & Hrun)]];
    [congruence|congruence|].
  split; [done|]. by rewrite <- Hrun.
Qed.

(** *** The objects that were there before *)

(** X2. The load only allocates: the objects that exist when it is
    called, such as the generic objects handed to facts, are neither
    changed nor freed, whatever the file holds. *)
Theorem load_keeps_existing_objects (fs : Files) (g g1 : MetaStore) :
  _loadParameterFactMetaData fs g = Finished g1 →
  (allocated g ≤ allocated g1)%nat
  ∧ ∀ q, (q < allocated g)%nat → objects g1 !! q = objects g !! q.
Proof.
  intros Hload.
  destruct (_parameterMetaDataLoaded g) eqn:Hl.
  { rewrite load_loaded in Hload by done. by injection Hload as <-. }
  apply load_runs in Hload as [_ Hrun]; [|done]. revert Hrun.
  apply (parse_loop_iterations
           (fun xml l g' =>
              (allocated g ≤ allocated g')%nat
              ∧ (∀ p, metaData l = Some p → (allocated g ≤ p)%nat)
              ∧ ∀ q, (q < allocated g)%nat → objects g' !! q = objects g !! q)
           (fun g' =>
              (allocated g ≤ allocated g')%nat
              ∧ ∀ q, (q < allocated g)%nat → objects g' !! q = objects g !! q)).
  - intros xml l g' (? & _ & ?) _. done.
  - intros xml l g' msg (? & _ & ?) _ _. done.
  - intros xml l g' xml' l' g'' (Hle & Hptr & Hobj) _ Hstep.
    iteration_cases Hstep;
      try (by split_and!).
    + split_and!; simpl; [lia|by intros p [= <-]|].
      intros q Hq. rewrite lookup_insert_ne by lia. by apply Hobj.
    + assert (allocated g'' = S (allocated g')
              ∧ ∀ q, (q < allocated g)%nat → objects g'' !! q = objects g !! q)
        as [Ha Ho].
      { simpl in Hg.
        destruct Hg as [->|[[v ->]|[e ->]]]; simpl; (split; [done|]);
          intros q Hq; rewrite ?lookup_alter_ne by lia;
          rewrite lookup_insert_ne by lia; by apply Hobj. }
      split_and!; simpl; [lia|by intros p [= <-]|done].
    + destruct Hg as [->|(msg & _ & ->)]; by split_and!.
    + split_and!; simpl; try done.
      intros q Hq. rewrite lookup_alter_ne; [by apply Hobj|].
      apply Hptr in Hp. lia.
    + destruct Hg as [->|(msg & _ & ->)]; by split_and!.
  - split_and!; simpl; [lia|done|done].
Qed.

(** *** The log *)

(** X3. The load stops at the first structural error: what a load adds
    to the log holds at most one structural message (badly formed XML,
    version too old or not found, unknown type), and it is the last
    line. *)
Theorem load_log_shape (fs : Files) (g g1 : MetaStore) :
  _loadParameterFactMetaData fs g = Finished g1 →
  ∃ log tail,
    messages g1 = messages g ++ log ++ tail
    ∧ Forall (fun msg => is_structural_message msg = false) log
    ∧ (tail = [] ∨ ∃ e, tail = [e] ∧ is_structural_message e = true).
Proof.
  intros Hload.
  destruct (_parameterMetaDataLoaded g) eqn:Hl.
  { rewrite load_loaded in Hload by done. injection Hload as <-.
    exists [], []. rewrite !app_nil_r. split_and!; auto. }
  apply load_runs in Hload as [_ Hrun]; [|done]. revert Hrun.
  apply (parse_loop_iterations
           (fun xml l g' =>
              ∃ log, messages g' = messages g ++ log
                     ∧ Forall (fun msg => is_structural_message msg = false) log)
           (fun g' =>
              ∃ log tail,
                messages g' = messages g ++ log ++ tail
                ∧ Forall (fun msg => is_structural_message msg = false) log
                ∧ (tail = [] ∨ ∃ e, tail = [e] ∧ is_structural_message e = true))).
  - intros xml l g' (log & Hlog & Hlogs) _. exists log, [].
    rewrite app_nil_r. auto.
  - intros xml l g' msg (log & Hlog & Hlogs) _ Hmsg. exists log, [msg].
    simpl. rewrite Hlog, <- app_assoc. split_and!; eauto.
  - intros xml l g' xml' l' g'' (log & Hlog & Hlogs) _ Hstep.
    assert (Hsay : ∀ msg, is_structural_message msg = false →
              ∃ log', messages g' ++ [msg] = messages g ++ log'
                      ∧ Forall (fun msg => is_structural_message msg = false) log').
    { intros msg Hmsg. exists (log ++ [msg]).
      rewrite Hlog, <- app_assoc. split; [done|].
      apply Forall_app. split; [done|]. by constructor. }
    assert (Hnote : ∀ msg, is_note msg = true →
              is_structural_message msg = false).
    { intros msg. unfold is_note. by destruct (is_structural_message msg). }
    iteration_cases Hstep;
      try (by exists log).
    + simpl. by apply Hsay.
    + simpl in Hg. destruct Hg as [->|[[v ->]|[e ->]]]; simpl;
        [by exists log|by exists log|by apply Hsay].
    + destruct Hg as [->|(msg & Hmsg & ->)]; [by exists log|].
      simpl. apply Hsay. by apply Hnote.
    + destruct Hg as [->|(msg & Hmsg & ->)]; [by exists log|].
      simpl. apply Hsay. by apply Hnote.
  - exists []. by rewrite app_nil_r.
Qed.

(** *** Entries, duplicates and objects *)

Lemma duplicates_app log1 log2 :
  duplicates (log1 ++ log2) = (duplicates log1 + duplicates log2)%nat.
Proof. unfold duplicates. by rewrite List.filter_app, length_app. Qed.

(** X4. Every parameter element the load reads makes one object, and
    this object is either the entry of a new name or reported as a
    duplicate: the entries of the map and the duplicates of the log add
    up to the objects allocated. *)
Theorem load_counts_parameters (fs : Files) (g g1 : MetaStore) :
  _parameterMetaDataLoaded g = false →
  _loadParameterFactMetaData fs g = Finished g1 →
  (size (_mapParameterName2FactMetaData g1) + duplicates (messages g1)
   = (allocated g1 - allocated g) + duplicates (messages g))%nat.
Proof.
  intros Hl Hload.
  apply load_runs in Hload as [Hempty Hrun]; [|done]. revert Hrun.
  apply (parse_loop_iterations
           (fun xml l g' =>
              (allocated g ≤ allocated g')%nat
              ∧ (size (_mapParameterName2FactMetaData g')
                 + duplicates (messages g')
                 = (allocated g' - allocated g) + duplicates (messages g))%nat)
           (fun g' =>
              (size (_mapParameterName2FactMetaData g')
               + duplicates (messages g')
               = (allocated g' - allocated g) + duplicates (messages g))%nat)).
  - intros xml l g' [_ ?] _. done.
  - intros xml l g' msg [_ Hc] _ Hmsg. simpl.
    rewrite duplicates_app. destruct msg; try done; cbn; lia.
  - intros xml l g' xml' l' g'' [Hle Hc] _ Hstep.
    assert (Hnote : ∀ msg, is_note msg = true →
              duplicates (messages g' ++ [msg]) = duplicates (messages g')).
    { intros msg Hmsg. rewrite duplicates_app.
      destruct msg; try done; cbn; lia. }
    iteration_cases Hstep;
      try (by split_and!).
    + simpl. split; [lia|].
      rewrite map_size_insert_Some by done.
      rewrite duplicates_app. cbn. lia.
    + assert (allocated g'' = S (allocated g')
              ∧ _mapParameterName2FactMetaData g''
                = <[attribute_value a "name" := allocated g']>
                    (_mapParameterName2FactMetaData g')
              ∧ duplicates (messages g'') = duplicates (messages g'))
        as (Ha & Hmap & Hd).
      { simpl in Hg. destruct Hg as [->|[[v ->]|[e ->]]]; simpl;
          split_and!; try done. by apply Hnote. }
      rewrite Ha, Hmap, Hd, map_size_insert_None by done. lia.
    + destruct Hg as [->|(msg & Hmsg & ->)]; [done|].
      simpl. rewrite Hnote by done. done.
    + destruct Hg as [->|(msg & Hmsg & ->)]; [done|].
      simpl. rewrite Hnote by done. done.
  - simpl. rewrite Hempty, map_size_empty. lia.
Qed.

(** *** Descriptions *)

Lemma replace_newlines_single_line s : single_line (replace_newlines s) = true.
Proof.
  induction s as [|c s IH]; [done|]. simpl. rewrite IH.
  by destruct (Ascii.eqb c "010"%char) eqn:Hc; [|rewrite Hc].
Qed.

Lemma described_setter f m : meta_setter f → described m → described (f m).
Proof.
  intros Hf [Hs Hlong]. destruct Hf; split; simpl; try done;
    apply replace_newlines_single_line.
Qed.

(** X5. The descriptions of the objects a load creates hold no line
    feed: the loader stores a description with every line feed replaced
    by a space. *)
Theorem loaded_descriptions_single_line (fs : Files) (g g1 : MetaStore)
  (q : ptr) (m : FactMetaData) :
  _loadParameterFactMetaData fs g = Finished g1 →
  (allocated g ≤ q < allocated g1)%nat →
  objects g1 !! q = Some m →
  single_line (md_shortDescription m) = true
  ∧ single_line (md_longDescription m) = true.
Proof.
  intros Hload.
  destruct (_parameterMetaDataLoaded g) eqn:Hl.
  { rewrite load_loaded in Hload by done. injection Hload as <-. lia. }
  apply load_runs in Hload as [_ Hrun]; [|done]. revert q m. revert Hrun.
  apply (parse_loop_iterations
           (fun xml l g' =>
              ∀ q m, (allocated g ≤ q < allocated g')%nat →
                     objects g' !! q = Some m → described m)
           (fun g' =>
              ∀ q m, (allocated g ≤ q < allocated g')%nat →
                     objects g' !! q = Some m → described m)).
  - done.
  - done.
  - intros xml l g' xml' l' g'' Hinv _ Hstep.
    iteration_cases Hstep;
      try done.
    + simpl. intros q m Hq.
      destruct (decide (q = allocated g')) as [->|Hne].
      * rewrite lookup_insert_eq. by intros [= <-].
      * rewrite lookup_insert_ne by done. apply Hinv. lia.
    + assert (allocated g'' = S (allocated g')
              ∧ (∃ m0, described m0
                       ∧ objects g'' = <[allocated g' := m0]> (objects g')))
        as (Ha & m0 & Hm0 & Ho).
      { simpl in Hg. destruct Hg as [->|[[v ->]|[e ->]]]; cbn [allocated];
          (split; [done|]).
        - eexists. split; [|apply named_store_objects]. done.
        - eexists. split; [|cbn [poke objects];
            by rewrite named_store_objects, alter_insert_eq]. done.
        - eexists. split; [|cbn [say objects]; apply named_store_objects].
          done. }
      intros q m Hq. rewrite Ho.
      destruct (decide (q = allocated g')) as [->|Hne].
      * rewrite lookup_insert_eq. by intros [= <-].
      * rewrite lookup_insert_ne by done. apply Hinv. lia.
    + by destruct Hg as [->|(msg & Hmsg & ->)].
    + simpl. intros q m0 Hq.
      destruct (decide (q = p)) as [Heq|Hne].
      * subst q. unfold ptr in *. rewrite lookup_alter_eq, Hm. intros [= <-].
        apply described_setter; [done|]. by eapply Hinv.
      * rewrite lookup_alter_ne by done. by apply Hinv.
    + by destruct Hg as [->|(msg & Hmsg & ->)].
  - simpl. intros q m Hq. lia.
Qed.

End WalkStore.

(* ===================================================================== *)
(** ** The walk and the file *)
(* ===================================================================== *)

Section WalkFile.

Context `{FactMetaDataOps}.

(** [readElementText] ends on an error or on the end element that closes
    the text, with text only in between. *)
Lemma readElementText_from_split acc ts :
  let xml' := (readElementText_from acc ts).2 in
  tokenType xml' = Invalid
  ∨ ∃ mid e,
      ts = mid ++ EndElement e :: upcoming xml'
      ∧ tokenType xml' = EndElement e
      ∧ Forall (fun t => is_start t = false) mid.
Proof.
  revert acc. induction ts as [|t ts IH]; intros acc; simpl; [by left|].
  destruct t; try (by left).
  - right. exists [], name. by split_and!.
  - destruct (IH (acc +:+ text)) as [Hinv|(mid & e & Hts & Htok & Hmid)];
      [by left|right].
    exists (Characters text :: mid), e. split_and!; try done.
    + simpl. by rewrite <- Hts.
    + by constructor.
  - destruct (IH acc) as [Hinv|(mid & e & Hts & Htok & Hmid)];
      [by left|right].
    exists (Comment :: mid), e. split_and!; try done.
    + simpl. by rewrite <- Hts.
    + by constructor.
  - destruct (IH (acc +:+ text)) as [Hinv|(mid & e & Hts & Htok & Hmid)];
      [by left|right].
    exists (EntityReference text :: mid), e. split_and!; try done.
    + simpl. by rewrite <- Hts.
    + by constructor.
  - destruct (IH acc) as [Hinv|(mid & e & Hts & Htok & Hmid)];
      [by left|right].
    exists (ProcessingInstruction :: mid), e. split_and!; try done.
    + simpl. by rewrite <- Hts.
    + by constructor.
Qed.

Lemma closes_text_read acc ts :
  closes_text ts = true → tokenType (readElementText_from acc ts).2 ≠ Invalid.
Proof.
  revert acc. induction ts as [|t ts IH]; intros acc Hc; [done|].
  destruct t; simpl in *; try done; by apply IH.
Qed.

(** The reader of an iteration that goes on: where it was, or after the
    text of the element it stood on. *)
Lemma iteration_reader xml l g xml' l' g' :
  iteration xml l g xml' l' g' →
  xml' = xml
  ∨ (∃ n a, tokenType xml = StartElement n a ∧ reads_text n = true)
    ∧ xml' = (readElementText xml).2.
Proof.
  intros Hstep. iteration_cases Hstep; try (by left).
  - right. split; [|done]. exists n, a. split; [done|].
    unfold reads_text. by rewrite Hk.
  - destruct Hx as [->|[Hreads ->]]; [by left|right]. eauto.
  - right. eauto.
Qed.

(** The reader moves on in the file: after an iteration and
    [readNext] it stands further in the data, with no start element
    passed over, unless it stands on an error. *)
Lemma reader_at_next data pre xml xml' :
  reader_at data pre xml → tokenType xml ≠ Invalid →
  xml' = xml
  ∨ (∃ n a, tokenType xml = StartElement n a ∧ reads_text n = true)
    ∧ xml' = (readElementText xml).2 →
  tokenType (readNext xml') = Invalid
  ∨ ∃ mid, Forall (fun t => is_start t = false) mid
           ∧ reader_at data (pre ++ tokenType xml :: mid) (readNext xml').
Proof.
  unfold reader_at. intros Hat Hv [->|[(n & a & Htok & _) ->]].
  - unfold readNext. destruct (upcoming xml) as [|t ts] eqn:Hup.
    + left. by destruct (tokenType xml).
    + right. exists []. split; [done|].
      rewrite Hat.
      destruct (tokenType xml); try (by destruct Hv); simpl;
        rewrite <- app_assoc; reflexivity.
  - unfold readElementText. rewrite Htok.
    destruct (readElementText_from_split "" (upcoming xml))
      as [Hinv|(mid & e & Hts & Hend & Hmid)].
    + left. unfold readNext. by rewrite Hinv.
    + set (xml1 := (readElementText_from "" (upcoming xml)).2) in *.
      unfold readNext. rewrite Hend.
      destruct (upcoming xml1) as [|t ts] eqn:Hup; [by left|right].
      exists (mid ++ [EndElement e]). split.
      * apply Forall_app. split; [done|]. by constructor.
      * rewrite Hat, Hts, Htok. simpl.
        rewrite <- !app_assoc. simpl. rewrite <- !app_assoc. reflexivity.
Qed.

(** A reader that stands on a start element stands on a token of the
    file. *)
Lemma reader_at_start data pre xml n a :
  reader_at data pre xml → tokenType xml = StartElement n a →
  ∃ pre0, pre = NoToken :: pre0
          ∧ data = pre0 ++ StartElement n a :: upcoming xml.
Proof.
  unfold reader_at. intros Hat Htok. rewrite Htok in Hat.
  destruct pre as [|t pre0]; [done|].
  injection Hat as <- ->. by exists pre0.
Qed.

Lemma reader_at_end data pre xml n :
  reader_at data pre xml → tokenType xml = EndElement n →
  ∃ pre0, pre = NoToken :: pre0
          ∧ data = pre0 ++ EndElement n :: upcoming xml.
Proof.
  unfold reader_at. intros Hat Htok. rewrite Htok in Hat.
  destruct pre as [|t pre0]; [done|].
  injection Hat as <- ->. by exists pre0.
Qed.

Lemma reader_at_new data : reader_at data [] (QXmlStreamReader_new data).
Proof. done. Qed.

Lemma last_group_app acc pre mid :
  last_group acc (pre ++ mid) = last_group (last_group acc pre) mid.
Proof.
  revert acc. induction pre as [|t pre IH]; intros acc; [done|].
  destruct t; simpl; by rewrite ?IH.
Qed.

Lemma last_group_no_start acc mid :
  Forall (fun t => is_start t = false) mid → last_group acc mid = acc.
Proof.
  induction 1 as [|t mid Ht _ IH]; [done|]. by destruct t.
Qed.

End WalkFile.

Section WalkEntries.

Context `{FactMetaDataOps}.

(** The position of the walk after an iteration. *)
Lemma walk_at_step data xml l g xml' l' g' pre :
  iteration xml l g xml' l' g' → atEnd xml = false →
  reader_at data pre xml → factGroup l = last_group "" pre →
  tokenType (readNext xml') = Invalid
  ∨ ∃ mid, Forall (fun t => is_start t = false) mid
           ∧ reader_at data (pre ++ tokenType xml :: mid) (readNext xml')
           ∧ factGroup l' = last_group "" (pre ++ tokenType xml :: mid).
Proof.
  intros Hstep Hat Hpre Hgrp.
  assert (Hvalid : tokenType xml ≠ Invalid).
  { intros Hc. unfold atEnd in Hat. by rewrite Hc in Hat. }
  destruct (reader_at_next data pre xml xml' Hpre Hvalid
              (iteration_reader _ _ _ _ _ _ Hstep))
    as [Hinv|(mid & Hmid & Hnext)]; [by left|right].
  exists mid. split_and!; try done.
  rewrite last_group_app.
  assert (Hlast : ∀ acc t, last_group acc (t :: mid) = last_group acc [t]).
  { intros acc t.
    change (t :: mid) with ([t] ++ mid).
    by rewrite last_group_app, last_group_no_start. }
  rewrite Hlast, <- Hgrp.
  iteration_cases Hstep; simpl;
    try (rewrite Htok; simpl; rewrite ?Hk; by simpl).
  destruct (tokenType xml); try done. by destruct (Hns name attributes).
Qed.

Lemma meta_setter_keeps f m :
  meta_setter f →
  md_name (f m) = md_name m ∧ md_group (f m) = md_group m
  ∧ md_type (f m) = md_type m.
Proof. by intros []. Qed.

(** An entry keeps its origin when its object stays as it is. *)
Lemma entry_inv_frame data l l' g g' n p :
  entry_inv data l g n p →
  objects g' !! p = objects g !! p →
  (allocated g ≤ allocated g')%nat →
  (∀ msg, msg ∈ messages g → msg ∈ messages g') →
  (badMetaData l = true ∨ metaData l ≠ Some p →
   badMetaData l' = true ∨ metaData l' ≠ Some p) →
  entry_inv data l' g' n p.
Proof.
  intros (Hlt & m & Hm & pre & elem & attrs & post & Hd & Hk & Hn & Hty & Hcase)
    Ho Ha Hmsg Hl.
  split; [lia|]. exists m. split; [congruence|].
  exists pre, elem, attrs, post. split_and!; try done.
  destruct Hcase as [?|(? & ? & ?)]; [by left|right]. auto.
Qed.

(** An entry keeps its origin under a setter of the loop. *)
Lemma entry_inv_poke data l g n p q f :
  entry_inv data l g n p →
  badMetaData l = false → metaData l = Some q →
  (∀ m, md_name (f m) = md_name m ∧ md_group (f m) = md_group m
        ∧ md_type (f m) = md_type m) →
  entry_inv data l (poke q f g) n p.
Proof.
  intros Hinv Hbad Hq Hf.
  destruct (decide (p = q)) as [->|Hne].
  - destruct Hinv
      as (Hlt & m & Hm & pre & elem & attrs & post & Hd & Hk & Hn & Hty & Hcase).
    split; [done|]. exists (f m). split.
    { simpl. unfold ptr in *. by rewrite lookup_alter_eq, Hm. }
    destruct (Hf m) as (Hname & Hgroup & Htype).
    exists pre, elem, attrs, post. rewrite Hname, Hgroup, Htype.
    split_and!; try done.
    destruct Hcase as [?|(_ & _ & [Hc|Hc])]; [by left|congruence|congruence].
  - eapply entry_inv_frame; try done.
    simpl. by rewrite lookup_alter_ne.
Qed.

(** The entries of the map after an iteration. *)
Lemma entry_inv_step data xml l g xml' l' g' pre :
  iteration xml l g xml' l' g' →
  reader_at data pre xml → factGroup l = last_group "" pre →
  (∀ n p, _mapParameterName2FactMetaData g !! n = Some p →
          entry_inv data l g n p) →
  ∀ n p, _mapParameterName2FactMetaData g' !! n = Some p →
         entry_inv data l' g' n p.
Proof.
  intros Hstep Hpre Hgrp Hinv.
  iteration_cases Hstep; try done.
  - (* a duplicate *)
    destruct (reader_at_start _ _ _ _ _ Hpre Htok) as (pre0 & -> & Hdata).
    intros k q. simpl. intros Hq.
    destruct (decide (attribute_value a "name" = k)) as [Heq|Hne].
    + rewrite Heq, lookup_insert_eq in Hq. injection Hq as <-.
      split; [simpl; lia|]. exists (FactMetaData_new ty).
      split; [simpl; by rewrite lookup_insert_eq|].
      exists pre0, n, a, (upcoming xml). split_and!; try done.
      right. split_and!; [done| |by left].
      simpl. apply elem_of_app. right. rewrite Heq.
      by apply list_elem_of_singleton.
    + rewrite lookup_insert_ne in Hq by done.
      specialize (Hinv k q Hq). pose proof Hinv as [Hlt _].
      eapply entry_inv_frame; try done; simpl.
      * rewrite lookup_insert_ne; [done|lia].
      * lia.
      * intros msg Hmsg. apply elem_of_app. by left.
      * intros _. by left.
  - (* a new name *)
    destruct (reader_at_start _ _ _ _ _ Hpre Htok) as (pre0 & -> & Hdata).
    assert (Hstore :
      allocated g'' = S (allocated g)
      ∧ _mapParameterName2FactMetaData g''
        = <[attribute_value a "name" := allocated g]>
            (_mapParameterName2FactMetaData g)
      ∧ (∀ msg, msg ∈ messages g → msg ∈ messages g'')
      ∧ ∃ m0, objects g'' = <[allocated g := m0]> (objects g)
              ∧ md_name m0 = attribute_value a "name"
              ∧ md_group m0 = factGroup l ∧ md_type m0 = ty).
    { simpl in Hg. destruct Hg as [->|[[v ->]|[e ->]]].
      - split_and!; try done. eexists.
        split; [apply named_store_objects|done].
      - split_and!; try done. eexists.
        split; [cbn [poke objects];
                by rewrite named_store_objects, alter_insert_eq|done].
      - split_and!; try done.
        + intros msg Hmsg. simpl. apply elem_of_app. by left.
        + eexists. split; [cbn [say objects]; apply named_store_objects|done]. }
    destruct Hstore as (Ha & Hmap & Hmsg & m0 & Ho & Hname & Hgroup & Htype).
    intros k q. rewrite Hmap. intros Hq.
    destruct (decide (attribute_value a "name" = k)) as [Heq|Hne].
    + rewrite Heq, lookup_insert_eq in Hq. injection Hq as <-.
      split; [lia|]. exists m0.
      split; [by rewrite Ho, lookup_insert_eq|].
      exists pre0, n, a, (upcoming xml). rewrite Htype.
      split_and!; try done. left. split; [congruence|].
      by rewrite Hgroup, Hgrp.
    + rewrite lookup_insert_ne in Hq by done.
      specialize (Hinv k q Hq). pose proof Hinv as [Hlt _].
      eapply entry_inv_frame; try done.
      * rewrite Ho, lookup_insert_ne; [done|lia].
      * lia.
      * intros _. right. simpl. intros [= Hc]. lia.
  - intros k q Hq.
    destruct Hg as [->|(msg & Hmsg & ->)]; [by apply Hinv|].
    specialize (Hinv k q Hq).
    eapply entry_inv_frame; try done.
    intros msg' Hin. simpl. apply elem_of_app. by left.
  - intros k q Hq. apply entry_inv_poke; try done.
    + by apply Hinv.
    + intros m1. by apply meta_setter_keeps.
  - intros k q Hq.
    assert (_mapParameterName2FactMetaData g'' = _mapParameterName2FactMetaData g
            ∧ objects g'' = objects g ∧ allocated g'' = allocated g
            ∧ ∀ msg, msg ∈ messages g → msg ∈ messages g'')
      as (Hmap & Ho & Ha & Hmsg).
    { destruct Hg as [->|(msg & _ & ->)]; split_and!; try done.
      intros msg' Hin. simpl. apply elem_of_app. by left. }
    rewrite Hmap in Hq. specialize (Hinv k q Hq).
    eapply entry_inv_frame; try done; [congruence|lia|].
    intros _. by right.
Qed.

(** X6. Every entry of the map a load fills comes from a parameter
    element of the file: the key is the name of the element and the
    type of the object is the type the element declares; the object
    bears that name and the group of the last group element before the
    parameter, unless the name came more than once: then the object is
    the generic one of its type and the log reports the duplicate. *)
Theorem loaded_entries_come_from_file (fs : Files) (g g1 : MetaStore)
  (n : string) (p : ptr) :
  _parameterMetaDataLoaded g = false →
  _loadParameterFactMetaData fs g = Finished g1 →
  _mapParameterName2FactMetaData g1 !! n = Some p →
  ∃ m, objects g1 !! p = Some m
       ∧ entry_origin (parameterFile fs) (messages g1) n m.
Proof.
  intros Hl Hload.
  apply load_runs in Hload as [Hempty Hrun]; [|done]. revert n p. revert Hrun.
  set (data := parameterFile fs).
  assert (Hfinal : ∀ l g', 
            (∀ n p, _mapParameterName2FactMetaData g' !! n = Some p →
                    entry_inv data l g' n p) →
            ∀ n p, _mapParameterName2FactMetaData g' !! n = Some p →
                   ∃ m, objects g' !! p = Some m
                        ∧ entry_origin data (messages g') n m).
  { intros l g' Hinv n p Hp.
    destruct (Hinv n p Hp)
      as (_ & m & Hm & pre & elem & attrs & post & Hd & Hk & Hn & Hty & Hcase).
    exists m. split; [done|]. exists pre, elem, attrs, post.
    split_and!; try done.
    destruct Hcase as [?|(? & ? & _)]; auto. }
  apply (parse_loop_iterations
           (fun xml l g' =>
              walk_at data xml l
              ∧ ∀ n p, _mapParameterName2FactMetaData g' !! n = Some p →
                       entry_inv data l g' n p)
           (fun g' =>
              ∀ n p, _mapParameterName2FactMetaData g' !! n = Some p →
                     ∃ m, objects g' !! p = Some m
                          ∧ entry_origin data (messages g') n m)).
  - intros xml l g' [_ Hinv] _. by eapply Hfinal.
  - intros xml l g' msg [_ Hinv] _ _. apply (Hfinal l).
    intros n p Hp.
    eapply (entry_inv_frame data l l g' (say msg g'));
      [by apply Hinv|done|done| |done].
    intros msg' Hin. simpl. apply elem_of_app. by left.
  - intros xml l g' xml' l' g'' [Hwalk Hinv] Hat Hstep.
    destruct Hwalk as [Hc|(pre & Hpre & Hgrp)].
    { unfold atEnd in Hat. by rewrite Hc in Hat. }
    split.
    + destruct (walk_at_step _ _ _ _ _ _ _ _ Hstep Hat Hpre Hgrp)
        as [?|(mid & _ & ? & ?)]; [by left|right]. eauto.
    + by eapply entry_inv_step.
  - split.
    + right. exists []. split; [apply reader_at_new|done].
    + intros n p. simpl. by rewrite Hempty, lookup_empty.
Qed.

End WalkEntries.

Section WalkVersion.

Context `{FactMetaDataOps}.

(** In a well nested stream an end element has its start element
    before it. *)
Lemma well_nested_end open pre n post :
  well_nested open (pre ++ EndElement n :: post) = true →
  n ∈ open ∨ ∃ a, StartElement n a ∈ pre.
Proof.
  revert open. induction pre as [|t pre IH]; intros open Hn; simpl in Hn.
  - destruct open as [|m open]; [done|].
    apply andb_prop in Hn as [Heq _]. apply bool_decide_eq_true in Heq as ->.
    left. by left.
  - destruct t; try (destruct (IH open Hn) as [?|[a ?]];
                     [by left|right; exists a; by right]).
    + destruct (IH _ Hn) as [Hin|[a Ha]].
      * apply elem_of_cons in Hin as [->|Hin]; [|by left].
        right. exists attributes. by left.
      * right. exists a. by right.
    + destruct open as [|m open]; [done|].
      apply andb_prop in Hn as [_ Hn].
      destruct (IH _ Hn) as [Hin|[a Ha]].
      * left. by right.
      * right. exists a. by right.
Qed.

Lemma before_version_step data g0 xml l g xml' l' g' :
  well_nested [] data = true →
  before_version data g0 xml l g → atEnd xml = false →
  iteration xml l g xml' l' g' →
  accepted_version data ∨ before_version data g0 (readNext xml') l' g'.
Proof.
  intros Hnest (Hstate & Hnull & Hmap & Ha & Ho & Hpos) Hat Hstep.
  assert (Hvalid : tokenType xml ≠ Invalid).
  { intros Hc. unfold atEnd in Hat. by rewrite Hc in Hat. }
  destruct Hpos as [Hc|(pre & Hpre & Hgroups)]; [done|].
  assert (Hnext : ∀ l1,
    (xmlState l1 = XmlStateNone ∨ xmlState l1 = XmlStateFoundParameters) →
    metaData l1 = None →
    (∀ n a, tokenType xml = StartElement n a → element_kind n ≠ group) →
    before_version data g0 (readNext xml') l1 g).
  { intros l1 Hs1 Hn1 Htokg. split_and!; try done.
    destruct (reader_at_next data pre xml xml' Hpre Hvalid
                (iteration_reader _ _ _ _ _ _ Hstep))
      as [Hinv|(mid & Hmid & Hnx)]; [by left|right].
    eexists. split; [done|].
    apply Forall_app. split; [done|]. constructor; [done|].
    eapply Forall_impl; [exact Hmid|]. by intros t Ht n a ->. }
  iteration_cases Hstep.
  - right. apply Hnext; try done. intros n a Hc. by destruct (Hns n a).
  - right. apply Hnext; simpl; auto. intros n' a' Hc.
    rewrite Htok in Hc. injection Hc as <- <-. by rewrite Hk.
  - left. destruct (reader_at_start _ _ _ _ _ Hpre Htok) as (pre0 & -> & Hdata).
    exists pre0, n, a, (upcoming xml), v. split_and!; try done.
    revert Hv. unfold readElementText. by rewrite Htok.
  - destruct Hstate; congruence.
  - destruct Hstate; congruence.
  - destruct Hstate; congruence.
  - destruct Hstate; congruence.
  - destruct Hstate; congruence.
  - destruct Hstate; congruence.
  - congruence.
  - exfalso.
    destruct (reader_at_end _ _ _ _ Hpre Htok) as (pre0 & -> & Hdata).
    rewrite Hdata in Hnest.
    apply well_nested_end in Hnest as [Hin|[a Hin]];
      [by apply elem_of_nil in Hin|].
    apply Forall_cons in Hgroups as [_ Hgroups].
    rewrite Forall_forall in Hgroups.
    by apply (Hgroups _ Hin n a).
  - right. apply Hnext; simpl; auto. intros n' a' Hc. congruence.
  - right. apply Hnext; simpl; auto. intros n' a' Hc. congruence.
Qed.

(** X7. From a well nested file nothing is loaded before a version
    element is accepted: unless the file holds a version element whose
    text reads as an integer above 2, the load leaves the map empty and
    creates no object. *)
Theorem load_requires_version (fs : Files) (g g1 : MetaStore) :
  well_nested [] (parameterFile fs) = true →
  _parameterMetaDataLoaded g = false →
  _loadParameterFactMetaData fs g = Finished g1 →
  accepted_version (parameterFile fs)
  ∨ (_mapParameterName2FactMetaData g1 = ∅
     ∧ allocated g1 = allocated g ∧ objects g1 = objects g).
Proof.
  intros Hnest Hl Hload.
  apply load_runs in Hload as [Hempty Hrun]; [|done]. revert Hrun.
  set (data := parameterFile fs) in *.
  apply (parse_loop_iterations
           (fun xml l g' =>
              accepted_version data ∨ before_version data g xml l g')
           (fun g' =>
              accepted_version data
              ∨ (_mapParameterName2FactMetaData g' = ∅
                 ∧ allocated g' = allocated g ∧ objects g' = objects g))).
  - intros xml l g' [?|(_ & _ & ? & ? & ? & _)] _; auto.
  - intros xml l g' msg [?|(_ & _ & ? & ? & ? & _)] _ _; auto.
  - intros xml l g' xml' l' g'' [?|Hbefore] Hat Hstep; [by left|].
    by eapply before_version_step.
  - right. split_and!; try done; [by left|].
    right. exists []. split; [apply reader_at_new|done].
Qed.

End WalkVersion.

Section WalkComplete.

Context `{FactMetaDataOps}.

Lemma elem_before_last {A} (l pre : list A) (x y : A) (ups : list A) :
  ups ≠ [] → l ++ [x] = pre ++ y :: ups → y ∈ l.
Proof.
  intros Hups. revert l. induction pre as [|b pre IH]; intros [|a l] Heq;
    simpl in Heq.
  - injection Heq as _ Hc. by destruct ups.
  - injection Heq as -> _. by left.
  - injection Heq as _ Hc. by destruct pre.
  - injection Heq as _ Heq. right. by apply IH.
Qed.

Lemma closes_text_app ts tail :
  closes_text ts = true → closes_text (ts ++ tail) = true.
Proof.
  induction ts as [|t ts IH]; [done|]. by destruct t.
Qed.

Lemma text_elements_closed_app ts tail :
  text_elements_closed ts = true →
  Forall (fun t => is_start t = false) tail →
  text_elements_closed (ts ++ tail) = true.
Proof.
  intros Hts Htail. induction ts as [|t ts IH].
  - simpl. induction Htail as [|t tail Ht _ IH]; [done|]. by destruct t.
  - destruct t; simpl in *; try by apply IH.
    apply andb_prop in Hts as [Hc Hts]. rewrite IH by done.
    destruct (reads_text name); [|done].
    by rewrite closes_text_app.
Qed.

Lemma text_elements_closed_at pre n a ups :
  text_elements_closed (pre ++ StartElement n a :: ups) = true →
  reads_text n = true → closes_text ups = true.
Proof.
  intros Hc Hr. induction pre as [|t pre IH]; simpl in Hc.
  - rewrite Hr in Hc. by apply andb_prop in Hc as [? _].
  - destruct t; try by apply IH.
    apply andb_prop in Hc as [_ Hc]. by apply IH.
Qed.

(** The messages and the entries only grow, and the parameter element
    the walk stands on gets its entry. *)
Lemma iteration_grows xml l g xml' l' g' :
  iteration xml l g xml' l' g' →
  (∃ log, messages g' = messages g ++ log)
  ∧ (∀ k, is_Some (_mapParameterName2FactMetaData g !! k) →
          is_Some (_mapParameterName2FactMetaData g' !! k))
  ∧ (∀ elem attrs, tokenType xml = StartElement elem attrs →
       element_kind elem = parameter →
       is_Some (_mapParameterName2FactMetaData g'
                  !! attribute_value attrs "name")).
Proof.
  assert (Hsame : (∃ log, messages g = messages g ++ log)).
  { exists []. by rewrite app_nil_r. }
  intros Hstep. iteration_cases Hstep;
    try (split_and!; [done|done|intros elem attrs Hc Hkc; congruence]).
  - split_and!; simpl.
    + by eexists.
    + intros k Hk'. apply lookup_insert_is_Some'. by right.
    + intros elem attrs Hc _. rewrite Htok in Hc. injection Hc as <- <-.
      apply lookup_insert_is_Some'. by left.
  - assert (_mapParameterName2FactMetaData g''
            = <[attribute_value a "name" := allocated g]>
                (_mapParameterName2FactMetaData g)
            ∧ ∃ log, messages g'' = messages g ++ log) as [Hmap Hlog].
    { simpl in Hg. destruct Hg as [->|[[v ->]|[e ->]]]; simpl;
        (split; [done|]); try done. by eexists. }
    split_and!; [done| |]; rewrite Hmap.
    + intros k Hk'. apply lookup_insert_is_Some'. by right.
    + intros elem attrs Hc _. rewrite Htok in Hc. injection Hc as <- <-.
      apply lookup_insert_is_Some'. by left.
  - destruct Hg as [->|(msg & _ & ->)];
      (split_and!; [|done|intros elem attrs Hc Hkc; congruence]);
      [done|by eexists].
  - destruct Hg as [->|(msg & _ & ->)];
      (split_and!; [|done|intros elem attrs Hc Hkc; congruence]);
      [done|by eexists].
Qed.

Lemma parameters_read_step body g0 xml l g xml' l' g' :
  Forall body_token body → text_elements_closed body = true →
  parameters_read (body ++ [EndDocument]) g0 xml g → atEnd xml = false →
  iteration xml l g xml' l' g' →
  parameters_read (body ++ [EndDocument]) g0 (readNext xml') g'.
Proof.
  intros Hbody Hclosed ([log Hlog] & pre & Hpre & Hread) Hat Hstep.
  destruct (iteration_grows _ _ _ _ _ _ Hstep) as ([log' Hlog'] & Hgrow & Hnew).
  split.
  { exists (log ++ log'). by rewrite Hlog', Hlog, <- app_assoc. }
  assert (Hentries : ∀ mid, Forall (fun t => is_start t = false) mid →
    ∀ elem attrs, StartElement elem attrs ∈ pre ++ tokenType xml :: mid →
      element_kind elem = parameter →
      is_Some (_mapParameterName2FactMetaData g'
                 !! attribute_value attrs "name")).
  { intros mid Hmid elem attrs Hin Hk.
    apply elem_of_app in Hin as [Hin|Hin]; [by apply Hgrow, (Hread elem attrs)|].
    apply elem_of_cons in Hin as [Heq|Hin]; [by apply (Hnew elem attrs)|].
    rewrite Forall_forall in Hmid. by apply Hmid in Hin. }
  assert (Hvalid : tokenType xml ≠ Invalid).
  { intros Hc. unfold atEnd in Hat. by rewrite Hc in Hat. }
  assert (Hnotend : tokenType xml ≠ EndDocument).
  { intros Hc. unfold atEnd in Hat. by rewrite Hc in Hat. }
  destruct (iteration_reader _ _ _ _ _ _ Hstep)
    as [->|[(n & a & Htok & Hreads) ->]].
  - (* the reader stayed where it was *)
    unfold readNext. destruct (upcoming xml) as [|t ts] eqn:Hup.
    + exfalso. unfold reader_at in Hpre. rewrite Hup in Hpre.
      rewrite app_comm_cons in Hpre.
      apply app_inj_tail in Hpre as [_ Hc]. congruence.
    + exists (pre ++ [tokenType xml]). split.
      * unfold reader_at in *. rewrite Hpre, Hup.
        destruct (tokenType xml); try done; simpl;
          rewrite <- app_assoc; reflexivity.
      * intros elem attrs Hin. apply (Hentries []); [done|].
        by rewrite <- (app_nil_r [tokenType xml]), app_assoc in Hin |- *.
  - (* the reader read the text of the element *)
    destruct (reader_at_start _ _ _ _ _ Hpre Htok) as (pre0 & -> & Hdata).
    assert (Hc : closes_text (upcoming xml) = true).
    { eapply (text_elements_closed_at pre0 n a); [|done].
      rewrite <- Hdata. apply text_elements_closed_app; [done|].
      by constructor. }
    unfold readElementText. rewrite Htok.
    destruct (readElementText_from_split "" (upcoming xml))
      as [Hinv|(mid & e & Hts & Hend & Hmid)].
    { by apply (closes_text_read "") in Hc. }
    set (xml1 := (readElementText_from "" (upcoming xml)).2) in *.
    unfold readNext. rewrite Hend.
    destruct (upcoming xml1) as [|t ts] eqn:Hup.
    + exfalso. rewrite Hts in Hdata.
      change (body ++ [EndDocument]
              = pre0 ++ [StartElement n a] ++ mid ++ [EndElement e]) in Hdata.
      rewrite !app_assoc in Hdata.
      apply app_inj_tail in Hdata as [_ Hcontra]. congruence.
    + exists ((NoToken :: pre0) ++ tokenType xml :: mid ++ [EndElement e]).
      split.
      * unfold reader_at in *. rewrite Hpre, Hts, Htok. simpl.
        rewrite <- !app_assoc. simpl. rewrite <- !app_assoc. reflexivity.
      * apply Hentries. apply Forall_app. split; [done|]. by constructor.
Qed.

(** X8. A load that logs no structural error has an entry for every
    parameter element of the file, when the file is a document whose
    text elements hold text only: the walk goes through the whole file
    and skips no parameter. *)
Theorem load_reads_every_parameter (fs : Files) (g g1 : MetaStore)
  (body : list Token) (elem : string) (attrs : list (string * string)) :
  parameterFile fs = body ++ [EndDocument] →
  Forall body_token body → text_elements_closed body = true →
  _parameterMetaDataLoaded g = false →
  _loadParameterFactMetaData fs g = Finished g1 →
  Forall (fun msg => is_structural_message msg = false)
    (drop (length (messages g)) (messages g1)) →
  StartElement elem attrs ∈ body → element_kind elem = parameter →
  is_Some (_mapParameterName2FactMetaData g1 !! attribute_value attrs "name").
Proof.
  intros Hfile Hbody Hclosed Hl Hload.
  apply load_runs in Hload as [Hempty Hrun]; [|done].
  rewrite Hfile in Hrun. revert elem attrs. revert Hrun.
  apply (parse_loop_iterations
           (fun xml l g' => parameters_read (body ++ [EndDocument]) g xml g')
           (fun g' =>
              ∀ elem attrs,
                Forall (fun msg => is_structural_message msg = false)
                  (drop (length (messages g)) (messages g')) →
                StartElement elem attrs ∈ body →
                element_kind elem = parameter →
                is_Some (_mapParameterName2FactMetaData g'
                           !! attribute_value attrs "name"))).
  - intros xml l g' (_ & pre & Hpre & Hread) Hat elem attrs _ Hin Hk.
    apply (Hread elem attrs); [|done].
    unfold reader_at in Hpre.
    assert (Htok : tokenType xml = EndDocument).
    { unfold atEnd in Hat. destruct (tokenType xml) eqn:Htok; try done.
      exfalso.
      assert (Hc : Invalid ∈ NoToken :: body ++ [EndDocument]).
      { rewrite Hpre. apply elem_of_app. right. by left. }
      apply elem_of_cons in Hc as [Hc|Hc]; [done|].
      apply elem_of_app in Hc as [Hc|Hc].
      - rewrite Forall_forall in Hbody. by destruct (Hbody _ Hc).
      - by apply list_elem_of_singleton in Hc. }
    rewrite Htok in Hpre.
    destruct (upcoming xml) as [|t ts] eqn:Hup.
    + rewrite app_comm_cons in Hpre.
      apply app_inj_tail in Hpre as [<- _]. by right.
    + exfalso.
      assert (Hc : EndDocument ∈ NoToken :: body).
      { eapply (elem_before_last _ pre EndDocument EndDocument (t :: ts));
          [done|]. by rewrite <- Hpre. }
      apply elem_of_cons in Hc as [Hc|Hc]; [done|].
      rewrite Forall_forall in Hbody. by destruct (Hbody _ Hc).
  - intros xml l g' msg ([log Hlog] & _) _ Hmsg elem attrs Hns.
    exfalso. simpl in Hns. rewrite Hlog, <- app_assoc in Hns.
    rewrite drop_app_length in Hns.
    apply Forall_app in Hns as [_ Hns].
    apply Forall_cons in Hns as [Hns _]. congruence.
  - intros xml l g' xml' l' g'' Hread Hat Hstep.
    by eapply parameters_read_step.
  - split.
    + exists []. simpl. by rewrite app_nil_r.
    + exists []. split; [apply reader_at_new|].
      intros elem attrs Hin. by apply elem_of_nil in Hin.
Qed.

End WalkComplete.

(* ===================================================================== *)
(** ** Further properties of the conversion and of the attachment *)
(* ===================================================================== *)

(** X9. The decimal notation of every value of the 32-bit carrier of an
    integer type converts back to that value: a signed value for the
    three signed types, an unsigned one for the three unsigned types. *)
Theorem stringToTypedVariant_reads_back
  (F : QtFloat) (type : ValueType_t) (z : Z) :
  (is_signed type = true → - 2 ^ 31 <= z < 2 ^ 31 →
   _stringToTypedVariant (string_of_Z z) type = (QIntV z, true))
  ∧ (is_unsigned type = true → 0 <= z < 2 ^ 32 →
     _stringToTypedVariant (string_of_Z z) type = (QUIntV z, true)).
Proof.
  split; intros Hty Hz.
  - rewrite (signed_convert F _ type Hty), toLongLong_of_Z by lia.
    by rewrite to_int_small.
  - rewrite (unsigned_convert F _ type Hty), toULongLong_of_Z by lia.
    by rewrite to_uint_small.
Qed.

(** X10. An overflow of the carrier goes unnoticed: the decimal
    notations of two 64-bit values 2^32 apart convert, for an integer
    type, to the same variant, and both conversions are reported as
    done. *)
Theorem stringToTypedVariant_overflow_unnoticed
  (F : QtFloat) (type : ValueType_t) (z : Z) :
  (is_unsigned type = true ∧ 0 <= z ∧ z + 2 ^ 32 < 2 ^ 64)
  ∨ (is_signed type = true ∧ - 2 ^ 63 <= z ∧ z + 2 ^ 32 < 2 ^ 63) →
  _stringToTypedVariant (string_of_Z z) type
  = _stringToTypedVariant (string_of_Z (z + 2 ^ 32)) type
  ∧ (_stringToTypedVariant (string_of_Z z) type).2 = true
  ∧ (_stringToTypedVariant (string_of_Z (z + 2 ^ 32)) type).2 = true.
Proof.
  intros [(Hty & Hz)|(Hty & Hz)].
  - rewrite !(unsigned_convert F _ type Hty), !toULongLong_of_Z by lia.
    split_and!; [|done..]. unfold to_uint.
    by rewrite <- (Z.mul_1_l (2 ^ 32)) at 2; rewrite Z.mod_add.
  - rewrite !(signed_convert F _ type Hty), !toLongLong_of_Z by lia.
    split_and!; [|done..]. unfold to_int.
    replace (z + 2 ^ 32 + 2 ^ 31) with (z + 2 ^ 31 + 1 * 2 ^ 32) by lia.
    by rewrite Z.mod_add.
Qed.

Section Attachment.

Context `{FactMetaDataOps}.

(** X11. Facts of one name share their meta data when the name is in
    the loaded map: a second fact of the name receives the very same
    object and nothing changes. When the name is not in the map each
    fact receives a generic object of its own, and the map stays as it
    is: the generic objects are not entered in it. *)
Theorem addMetaDataToFact_shares (fs fs' : Files) (fact1 fact2 : Fact)
  (g g1 g2 : MetaStore) (fact1' fact2' : Fact) :
  addMetaDataToFact fs fact1 g = Some (fact1', g1) →
  addMetaDataToFact fs' fact2 g1 = Some (fact2', g2) →
  fact_name fact1 = fact_name fact2 →
  _mapParameterName2FactMetaData g2 = _mapParameterName2FactMetaData g1
  ∧ match _mapParameterName2FactMetaData g1 !! fact_name fact1 with
    | Some p =>
        fact_metaData fact1' = Some p ∧ fact_metaData fact2' = Some p
        ∧ g2 = g1
    | None =>
        fact_metaData fact1' ≠ fact_metaData fact2'
        ∧ is_Some (fact_metaData fact1') ∧ is_Some (fact_metaData fact2')
    end.
Proof.
  unfold addMetaDataToFact at 1.
  destruct (_loadParameterFactMetaData fs g) as [gl| |] eqn:Hload; try done.
  pose proof (load_sets_loaded _ _ _ Hload) as Hloaded.
  intros Hfirst Hsecond Hname.
  assert (Hl1 : _parameterMetaDataLoaded g1 = true
                ∧ _mapParameterName2FactMetaData g1
                  = _mapParameterName2FactMetaData gl).
  { destruct (_mapParameterName2FactMetaData gl !! fact_name fact1);
      simpl in Hfirst; by injection Hfirst as <- <-. }
  destruct Hl1 as [Hl1 Hmap1].
  unfold addMetaDataToFact in Hsecond.
  rewrite load_loaded in Hsecond by done.
  rewrite <- Hname in Hsecond. rewrite Hmap1 in *.
  destruct (_mapParameterName2FactMetaData gl !! fact_name fact1) as [p|].
  - injection Hfirst as <- <-. injection Hsecond as <- <-. by split_and!.
  - simpl in *. injection Hfirst as <- <-. injection Hsecond as <- <-.
    simpl. split_and!; eauto.
    intros [= Hc]. lia.
Qed.

End Attachment.

(* ===================================================================== *)
(** ** A parameter element of a new name *)
(* ===================================================================== *)

Section ParameterElement.

Context `{FactMetaDataOps}.

Lemma with_object_same p m g :
  objects g !! p = Some m → with_object p m [] g = g.
Proof.
  intros Hm. destruct g as [ld mp objs al msgs]. unfold with_object. simpl in *.
  by rewrite insert_id, app_nil_r.
Qed.

Lemma with_object_twice p m1 log1 m2 log2 g :
  with_object p m2 log2 (with_object p m1 log1 g)
  = with_object p m2 (log1 ++ log2) g.
Proof.
  unfold with_object. simpl. by rewrite insert_insert_eq, app_assoc.
Qed.

Lemma poke_with_object p f m g :
  objects g !! p = Some m → poke p f g = with_object p (f m) [] g.
Proof.
  intros Hm. unfold poke, with_object. rewrite app_nil_r. f_equal.
  apply map_eq. intros q. destruct (decide (p = q)) as [->|Hne].
  - unfold ptr in *. by rewrite lookup_alter_eq, lookup_insert_eq, Hm.
  - by rewrite lookup_alter_ne, lookup_insert_ne.
Qed.

Lemma say_with_object p m msg g :
  objects g !! p = Some m → say msg g = with_object p m [msg] g.
Proof.
  intros Hm. unfold say, with_object. by rewrite insert_id.
Qed.

Lemma readNext_record t0 tk rest :
  t0 ≠ Invalid →
  readNext {| tokenType := t0; upcoming := tk :: rest |}
  = {| tokenType := tk; upcoming := rest |}.
Proof. intros Ht. unfold readNext. simpl. by destruct t0. Qed.

Lemma readNext_any t t' ups :
  t ≠ Invalid → t' ≠ Invalid →
  readNext {| tokenType := t; upcoming := ups |}
  = readNext {| tokenType := t'; upcoming := ups |}.
Proof. intros Ht Ht'. unfold readNext. simpl. by destruct t, t'. Qed.

(** One item of a parameter element takes one iteration. *)
Lemma item_step (i : MetaItem) more fuel t0 l g p m :
  t0 ≠ Invalid → item_ok i = true →
  xmlState l = XmlStateFoundParameter → badMetaData l = false →
  metaData l = Some p → objects g !! p = Some m →
  parse_loop (S fuel)
    (readNext {| tokenType := t0; upcoming := item_tokens i ++ more |}) l g
  = parse_loop fuel
      (readNext {| tokenType := StartDocument; upcoming := more |}) l
      (with_object p (apply_item i m).1 (apply_item i m).2 g).
Proof.
  intros Ht0 Hok Hst Hbad Hp Hm.
  destruct i as [n a text|n a|n|text]; cbn [item_tokens app] in *;
    rewrite readNext_record by done; cbn [parse_loop atEnd tokenType].
  - apply andb_prop in Hok as [Hk Hreads].
    apply bool_decide_eq_true in Hk.
    unfold loop_body, start_element. cbn [tokenType]. rewrite Hk.
    unfold start_other. rewrite decide_False by (intros Hc; by apply Hc).
    rewrite Hbad. unfold reads_text in Hreads. rewrite Hk in Hreads.
    unfold apply_item.
    destruct (meta_element n); try discriminate;
      rewrite ?(deref_live l g _ p m Hp Hm); cbn [readElementText tokenType
        upcoming readElementText_from];
      change (String.append "" text) with text;
      rewrite ?(deref_live l g _ p m Hp Hm).
    + rewrite (readNext_any _ StartDocument) by done.
      by rewrite (poke_with_object p _ m).
    + rewrite (readNext_any _ StartDocument) by done.
      by rewrite (poke_with_object p _ m).
    + destruct (convertAndValidateRaw m (QStringV text) true);
        rewrite (readNext_any _ StartDocument) by done; cbn [fst snd].
      * by rewrite (poke_with_object p _ m).
      * by rewrite (say_with_object p m).
    + destruct (convertAndValidateRaw m (QStringV text) true);
        rewrite (readNext_any _ StartDocument) by done; cbn [fst snd].
      * by rewrite (poke_with_object p _ m).
      * by rewrite (say_with_object p m).
    + rewrite (readNext_any _ StartDocument) by done.
      by rewrite (poke_with_object p _ m).
    + destruct (QVariant_toUInt text) as [d [|]];
        rewrite (readNext_any _ StartDocument) by done; cbn [fst snd].
      * by rewrite (poke_with_object p _ m).
      * by rewrite (say_with_object p m).
    + destruct (equals_true_nocase text);
        rewrite (readNext_any _ StartDocument) by done; cbn [fst snd].
      * by rewrite (poke_with_object p _ m).
      * by rewrite with_object_same.
    + destruct (convertAndValidateRaw m _ false);
        rewrite (readNext_any _ StartDocument) by done; cbn [fst snd].
      * by rewrite (poke_with_object p _ m).
      * by rewrite (say_with_object p m).
  - apply andb_prop in Hok as [Hk Hreads].
    apply bool_decide_eq_true in Hk. apply negb_true_iff in Hreads.
    unfold loop_body, start_element. cbn [tokenType]. rewrite Hk.
    unfold start_other. rewrite decide_False by (intros Hc; by apply Hc).
    rewrite Hbad. unfold reads_text in Hreads. rewrite Hk in Hreads.
    unfold apply_item.
    destruct (meta_element n); try discriminate;
      rewrite (readNext_any _ StartDocument) by done; cbn [fst snd].
    + by rewrite with_object_same.
    + by rewrite (say_with_object p m).
  - apply bool_decide_eq_true in Hok.
    unfold loop_body, end_element. cbn [tokenType]. rewrite Hok.
    rewrite (readNext_any _ StartDocument) by done. cbn [apply_item fst snd].
    by rewrite with_object_same.
  - unfold loop_body. cbn [tokenType].
    rewrite (readNext_any _ StartDocument) by done. cbn [apply_item fst snd].
    by rewrite with_object_same.
Qed.

Lemma with_object_lookup p m log g : objects (with_object p m log g) !! p = Some m.
Proof. simpl. by rewrite lookup_insert_eq. Qed.

(** The items of a parameter element take one iteration each. *)
Lemma items_steps items more fuel t0 l g p m :
  t0 ≠ Invalid → forallb item_ok items = true →
  xmlState l = XmlStateFoundParameter → badMetaData l = false →
  metaData l = Some p → objects g !! p = Some m →
  parse_loop (length items + fuel)
    (readNext {| tokenType := t0;
                 upcoming := flat_map item_tokens items ++ more |}) l g
  = parse_loop fuel
      (readNext {| tokenType := StartDocument; upcoming := more |}) l
      (with_object p (apply_items items m).1 (apply_items items m).2 g).
Proof.
  intros Ht0 Hok Hst Hbad Hp. revert t0 g m Ht0.
  induction items as [|i items IH]; intros t0 g m Ht0 Hm.
  - cbn [flat_map app length Nat.add apply_items fst snd].
    rewrite (readNext_any t0 StartDocument) by done.
    by rewrite with_object_same.
  - cbn [forallb] in Hok. apply andb_prop in Hok as [Hi Hok].
    cbn [flat_map length Nat.add]. rewrite <- app_assoc.
    rewrite (item_step i _ _ t0 l g p m) by done.
    rewrite (IH Hok StartDocument _ (apply_item i m).1)
      by (done || apply with_object_lookup).
    rewrite with_object_twice. cbn [apply_items].
    destruct (apply_item i m) as [m1 log1]. cbn [fst snd].
    by destruct (apply_items items m1) as [m2 log2].
Qed.


End ParameterElement.

Section DecimalPlaces.

Context `{FactMetaDataOps}.

(** X13. The decimal places of a parameter, in the loop: on a decimal
    element whose text is the decimal notation of [z], inside a
    parameter whose meta data are trusted, a negative [z] is refused
    and noted; a [z] below 2^31 is stored as it is; a [z] from 2^31 up
    to 2^32 - 1 is read as an unsigned integer and stored as an [int],
    which makes it negative. *)
Theorem decimal_places_stored (a : list (string * string)) (z : Z)
  (rest : list Token) (l : Locals) (g : MetaStore) (p : ptr)
  (m : FactMetaData) :
  let xml := {| tokenType := StartElement "decimal" a;
                upcoming := Characters (string_of_Z z)
                            :: EndElement "decimal" :: rest |} in
  let after := {| tokenType := EndElement "decimal"; upcoming := rest |} in
  xmlState l = XmlStateFoundParameter → badMetaData l = false →
  metaData l = Some p → objects g !! p = Some m →
  (z < 0 →
   loop_body xml l g
   = Next after l (say (InvalidDecimals (md_name m) (string_of_Z z)) g))
  ∧ (0 <= z < 2 ^ 31 →
     loop_body xml l g = Next after l (poke p (setDecimalPlaces z) g))
  ∧ (2 ^ 31 <= z < 2 ^ 32 →
     loop_body xml l g
     = Next after l (poke p (setDecimalPlaces (z - 2 ^ 32)) g)).
Proof.
  intros xml after Hst Hbad Hp Hm.
  assert (Hbody : loop_body xml l g
                  = let '(varDecimals, convertOk) :=
                      QVariant_toUInt (string_of_Z z) in
                    if convertOk
                    then Next after l
                           (poke p (setDecimalPlaces (to_int varDecimals)) g)
                    else Next after l
                           (say (InvalidDecimals (md_name m) (string_of_Z z)) g)).
  { unfold loop_body, xml. cbn [tokenType]. unfold start_element.
    change (element_kind "decimal") with other_element. cbv iota.
    unfold start_other. rewrite decide_False by (intros Hc; by apply Hc).
    rewrite Hbad. change (meta_element "decimal") with decimal. cbv iota.
    rewrite (deref_live l g _ p m Hp Hm).
    cbn [readElementText tokenType upcoming readElementText_from].
    change (String.append "" (string_of_Z z)) with (string_of_Z z).
    reflexivity. }
  rewrite Hbody. unfold QVariant_toUInt. split_and!; intros Hz.
  - by rewrite toULongLong_negative.
  - rewrite toULongLong_of_Z by lia.
    by rewrite to_uint_small, to_int_small by lia.
  - rewrite toULongLong_of_Z by lia.
    rewrite to_uint_small by lia. do 3 f_equal. unfold to_int.
    replace (z + 2 ^ 31) with (z - 2 ^ 31 + 1 * 2 ^ 32) by lia.
    rewrite Z.mod_add by lia. rewrite Z.mod_small by lia. lia.
Qed.

End DecimalPlaces.

(* ===================================================================== *)
(** ** The sample file, again *)
(* ===================================================================== *)

Lemma sample_load_after :
  @_loadParameterFactMetaData sample_ops sample_files sample_before
  = Finished sample_after.
Proof. vm_compute. reflexivity. Qed.

Lemma load_keeps_existing_objects_witness :
  (allocated sample_before ≤ allocated sample_after)%nat
  ∧ ∀ q, (q < allocated sample_before)%nat →
         objects sample_after !! q = objects sample_before !! q.
Proof.
  apply (@load_keeps_existing_objects sample_ops sample_files).
  exact sample_load_after.
Defined.

Lemma load_log_shape_witness :
  ∃ log tail,
    messages sample_loaded = messages MetaStore_init ++ log ++ tail
    ∧ Forall (fun msg => is_structural_message msg = false) log
    ∧ (tail = [] ∨ ∃ e, tail = [e] ∧ is_structural_message e = true).
Proof.
  apply (@load_log_shape sample_ops sample_files). exact sample_load.
Defined.

Lemma load_counts_parameters_witness :
  (size (_mapParameterName2FactMetaData sample_loaded)
   + duplicates (messages sample_loaded)
   = (allocated sample_loaded - allocated MetaStore_init)
     + duplicates (messages MetaStore_init))%nat.
Proof.
  apply (@load_counts_parameters sample_ops sample_files).
  - reflexivity.
  - exact sample_load.
Defined.

Lemma loaded_descriptions_single_line_witness :
  ∃ m, objects sample_loaded !! 1%nat = Some m
       ∧ single_line (md_shortDescription m) = true
       ∧ single_line (md_longDescription m) = true.
Proof.
  eexists. split; [vm_compute; reflexivity|].
  apply (@loaded_descriptions_single_line sample_ops sample_files
           MetaStore_init sample_loaded 1%nat).
  - exact sample_load.
  - vm_compute. lia.
  - vm_compute. reflexivity.
Defined.

Lemma loaded_entries_come_from_file_witness :
  ∃ m, objects sample_loaded !! 2%nat = Some m
       ∧ @entry_origin sample_ops (parameterFile sample_files)
           (messages sample_loaded) "ATT_B" m.
Proof.
  apply (@loaded_entries_come_from_file sample_ops sample_files
           MetaStore_init sample_loaded "ATT_B" 2%nat).
  - reflexivity.
  - exact sample_load.
  - vm_compute. reflexivity.
Defined.

(** The file of the old format holds no version the loader accepts. *)
Lemma sample_old_no_version : ¬ accepted_version sample_old_xml.
Proof.
  intros (pre & elem & attrs & post & v & Hsplit & Hkind & Hv & Hlt).
  unfold sample_old_xml in Hsplit.
  do 11 (destruct pre as [|? pre];
         [ simpl in Hsplit; try discriminate Hsplit;
           injection Hsplit as <- <- <-;
           vm_compute in Hkind; try discriminate Hkind;
           vm_compute in Hv; injection Hv as <-; lia
         | simpl in Hsplit; injection Hsplit as <- Hsplit ]).
  by destruct pre.
Qed.

Lemma load_requires_version_witness :
  ∃ g1,
    @_loadParameterFactMetaData sample_ops sample_old_files MetaStore_init
    = Finished g1
    ∧ ¬ accepted_version (parameterFile sample_old_files)
    ∧ messages g1 = [VersionTooOld 2]
    ∧ _mapParameterName2FactMetaData g1 = ∅
    ∧ allocated g1 = allocated MetaStore_init
    ∧ objects g1 = objects MetaStore_init.
Proof.
  eexists. split; [vm_compute; reflexivity|].
  split; [exact sample_old_no_version|].
  split; [reflexivity|].
  destruct (@load_requires_version sample_ops sample_old_files MetaStore_init
              (say (VersionTooOld 2) (set_loaded MetaStore_init)))
    as [Hacc|Hnone].
  - reflexivity.
  - reflexivity.
  - vm_compute. reflexivity.
  - destruct (sample_old_no_version Hacc).
  - exact Hnone.
Defined.

Lemma load_reads_every_parameter_witness :
  is_Some (_mapParameterName2FactMetaData sample_loaded
             !! attribute_value [("name", "ATT_C"); ("type", "INT32")] "name").
Proof.
  apply (@load_reads_every_parameter sample_ops sample_files MetaStore_init
           sample_loaded (removelast sample_xml) "parameter"
           [("name", "ATT_C"); ("type", "INT32")]).
  - reflexivity.
  - repeat (constructor; [by split|]). constructor.
  - vm_compute. reflexivity.
  - reflexivity.
  - exact sample_load.
  - vm_compute. repeat constructor.
  - vm_compute. repeat constructor.
  - reflexivity.
Defined.

Lemma stringToTypedVariant_overflow_unnoticed_witness :
  @_stringToTypedVariant QtFloat_none (string_of_Z 5) valueTypeUint32
  = @_stringToTypedVariant QtFloat_none (string_of_Z (5 + 2 ^ 32)) valueTypeUint32
  ∧ (@_stringToTypedVariant QtFloat_none (string_of_Z 5) valueTypeUint32).2
    = true
  ∧ (@_stringToTypedVariant QtFloat_none (string_of_Z (5 + 2 ^ 32))
       valueTypeUint32).2 = true.
Proof.
  apply (stringToTypedVariant_overflow_unnoticed QtFloat_none
           valueTypeUint32 5).
  left. split_and!; [reflexivity|lia|lia].
Defined.

(** The two texts of that instance, and what both convert to. *)
Example sample_overflow :
  (string_of_Z 5, string_of_Z (5 + 2 ^ 32),
   @_stringToTypedVariant QtFloat_none "4294967301" valueTypeUint32)
  = ("5", "4294967301", (QUIntV 5, true)).
Proof. vm_compute. reflexivity. Qed.

Lemma addMetaDataToFact_shares_witness :
  _mapParameterName2FactMetaData sample_loaded
  = _mapParameterName2FactMetaData sample_loaded
  ∧ match _mapParameterName2FactMetaData sample_loaded
          !! fact_name sample_fact with
    | Some p =>
        fact_metaData (setMetaData 3%nat sample_fact) = Some p
        ∧ fact_metaData (setMetaData 3%nat sample_fact) = Some p
        ∧ sample_loaded = sample_loaded
    | None =>
        fact_metaData (setMetaData 3%nat sample_fact)
        ≠ fact_metaData (setMetaData 3%nat sample_fact)
        ∧ is_Some (fact_metaData (setMetaData 3%nat sample_fact))
        ∧ is_Some (fact_metaData (setMetaData 3%nat sample_fact))
    end.
Proof.
  apply (@addMetaDataToFact_shares sample_ops sample_files sample_files
           sample_fact sample_fact MetaStore_init sample_loaded sample_loaded).
  - vm_compute. reflexivity.
  - vm_compute. reflexivity.
  - reflexivity.
Defined.


(** The second parameter of the sample file, as the fold of its items
    leaves it. *)
Example sample_parameter_element :
  let start := @new_parameter sample_ops sample_attrs valueTypeInt32 "Attitude" in
  let final := (@apply_items sample_ops sample_items start.1).1 in
  (md_name final, md_group final, md_rawDefaultValue final,
   md_shortDescription final, md_rawMax final, md_enumInfo final)
  = ("ATT_B", "Attitude", Some (QIntV 7), "Second", Some (QIntV 9),
     [("On", QIntV 1)]).
Proof. vm_compute. reflexivity. Qed.

Lemma decimal_places_stored_witness :
  let l := {| factGroup := "Attitude"; metaData := Some 0%nat;
              xmlState := XmlStateFoundParameter; badMetaData := false |} in
  let after := {| tokenType := EndElement "decimal"; upcoming := [] |} in
  (∃ m, objects sample_store !! 0%nat = Some m
        ∧ @loop_body sample_ops
            {| tokenType := StartElement "decimal" [];
               upcoming := [Characters (string_of_Z (-1)); EndElement "decimal"] |}
            l sample_store
          = Next after l
              (say (InvalidDecimals (md_name m) (string_of_Z (-1))) sample_store))
  ∧ @loop_body sample_ops
      {| tokenType := StartElement "decimal" [];
         upcoming := [Characters (string_of_Z 2); EndElement "decimal"] |}
      l sample_store
    = Next after l (poke 0%nat (setDecimalPlaces 2) sample_store)
  ∧ @loop_body sample_ops
      {| tokenType := StartElement "decimal" [];
         upcoming := [Characters (string_of_Z 4294967295);
                      EndElement "decimal"] |}
      l sample_store
    = Next after l (poke 0%nat (setDecimalPlaces (-1)) sample_store).
Proof.
  intros l after. split_and!.
  - eexists. split; [vm_compute; reflexivity|].
    eapply (@decimal_places_stored sample_ops [] (-1) [] l sample_store 0%nat);
      [reflexivity..|lia].
  - eapply (@decimal_places_stored sample_ops [] 2 [] l sample_store 0%nat);
      [reflexivity| reflexivity| reflexivity| vm_compute; reflexivity| lia].
  - eapply (@decimal_places_stored sample_ops [] 4294967295 [] l sample_store
              0%nat);
      [reflexivity| reflexivity| reflexivity| vm_compute; reflexivity| lia].
Defined.

(** The texts of these instances. *)
Example sample_decimal_texts :
  (string_of_Z (-1), string_of_Z 2, string_of_Z 4294967295)
  = ("-1", "2", "4294967295").
Proof. vm_compute. reflexivity. Qed.

(* ===================================================================== *)
(** ** A document, from its first token to its last *)
(* ===================================================================== *)

Section DocumentWalk.

Context `{FactMetaDataOps}.

Lemma runs_to_trans xml1 l1 g1 xml2 l2 g2 xml3 l3 g3 :
  runs_to xml1 l1 g1 xml2 l2 g2 → runs_to xml2 l2 g2 xml3 l3 g3 →
  runs_to xml1 l1 g1 xml3 l3 g3.
Proof.
  intros [k1 H1] [k2 H2]. exists (k1 + k2)%nat. intros fuel.
  by rewrite <- Nat.add_assoc, H1, H2.
Qed.

(** One iteration, from a reader about to move to the next token. *)
Lemma loop_step t0 tok ups t1 more l g l' g' :
  t0 ≠ Invalid →
  atEnd {| tokenType := tok; upcoming := ups |} = false →
  loop_body {| tokenType := tok; upcoming := ups |} l g
  = Next {| tokenType := t1; upcoming := more |} l' g' →
  t1 ≠ Invalid →
  runs_to (readNext {| tokenType := t0; upcoming := tok :: ups |}) l g
    (readNext {| tokenType := StartDocument; upcoming := more |}) l' g'.
Proof.
  intros Ht0 Hat Hbody Ht1. exists 1%nat. intros fuel.
  rewrite readNext_record by done. cbn [Nat.add parse_loop].
  rewrite Hat, Hbody. by rewrite (readNext_any t1 StartDocument).
Qed.

Lemma characters_step t0 text more l g :
  t0 ≠ Invalid →
  runs_to (readNext {| tokenType := t0; upcoming := Characters text :: more |})
    l g (readNext {| tokenType := StartDocument; upcoming := more |}) l g.
Proof.
  intros Ht0.
  by apply (loop_step t0 (Characters text) more (Characters text) more).
Qed.

(** The start of a parameter element of a new name. *)
Lemma parameter_start_new attrs ups l g foundType :
  xmlState l = XmlStateFoundGroup →
  hasAttribute attrs "name" = true → hasAttribute attrs "type" = true →
  stringToType (attribute_value attrs "type") = (foundType, false) →
  _mapParameterName2FactMetaData g !! attribute_value attrs "name" = None →
  loop_body {| tokenType := StartElement "parameter" attrs; upcoming := ups |}
    l g
  = Next {| tokenType := StartElement "parameter" attrs; upcoming := ups |}
      {| factGroup := factGroup l; metaData := Some (allocated g);
         xmlState := XmlStateFoundParameter; badMetaData := badMetaData l |}
      {| _parameterMetaDataLoaded := _parameterMetaDataLoaded g;
         _mapParameterName2FactMetaData :=
           <[attribute_value attrs "name" := allocated g]>
             (_mapParameterName2FactMetaData g);
         objects :=
           <[allocated g := (new_parameter attrs foundType (factGroup l)).1]>
             (objects g);
         allocated := S (allocated g);
         messages :=
           messages g ++ (new_parameter attrs foundType (factGroup l)).2 |}.
Proof.
  intros Hst Hname Htype Hty Hnew.
  unfold loop_body, start_element. cbn [tokenType].
  change (element_kind "parameter") with parameter. cbv iota.
  unfold start_parameter.
  rewrite decide_False by (intros Hc; by apply Hc).
  rewrite Hname, Htype. cbn [negb orb]. rewrite Hty.
  cbn [alloc fst snd _mapParameterName2FactMetaData].
  rewrite decide_False by (rewrite Hnew; apply is_Some_None).
  unfold new_parameter.
  cbn [poke map_set objects]. rewrite !alter_insert_eq, lookup_insert_eq.
  destruct (hasAttribute attrs "default"
            && negb (bool_decide (attribute_value attrs "default" = "")))%bool.
  - destruct (convertAndValidateRaw _ _ false) as [v|e]; cbn [fst snd];
      unfold poke, say; cbn; by rewrite ?alter_insert_eq, ?app_nil_r.
  - cbn [fst snd]. unfold poke, map_set. cbn.
    by rewrite ?alter_insert_eq, ?app_nil_r.
Qed.

(** The start of a parameter element of a name the map holds. *)
Lemma parameter_start_duplicate attrs ups l g foundType :
  xmlState l = XmlStateFoundGroup →
  hasAttribute attrs "name" = true → hasAttribute attrs "type" = true →
  stringToType (attribute_value attrs "type") = (foundType, false) →
  is_Some (_mapParameterName2FactMetaData g !! attribute_value attrs "name") →
  loop_body {| tokenType := StartElement "parameter" attrs; upcoming := ups |}
    l g
  = Next {| tokenType := StartElement "parameter" attrs; upcoming := ups |}
      {| factGroup := factGroup l; metaData := Some (allocated g);
         xmlState := XmlStateFoundParameter; badMetaData := true |}
      (duplicate_store (attribute_value attrs "name") foundType g).
Proof.
  intros Hst Hname Htype Hty Hdup.
  unfold loop_body, start_element. cbn [tokenType].
  change (element_kind "parameter") with parameter. cbv iota.
  unfold start_parameter.
  rewrite decide_False by (intros Hc; by apply Hc).
  rewrite Hname, Htype. cbn [negb orb]. rewrite Hty.
  cbn [alloc fst snd _mapParameterName2FactMetaData].
  by rewrite decide_True.
Qed.

(** The end of a parameter element. *)
Lemma parameter_end ups l g p m :
  metaData l = Some p → objects g !! p = Some m →
  loop_body {| tokenType := EndElement "parameter"; upcoming := ups |} l g
  = Next {| tokenType := EndElement "parameter"; upcoming := ups |}
      {| factGroup := factGroup l; metaData := None;
         xmlState := XmlStateFoundGroup; badMetaData := false |}
      (with_object p m (end_parameter_log m) g).
Proof.
  intros Hp Hm. unfold loop_body, end_element. cbn [tokenType].
  change (element_kind "parameter") with parameter. cbv iota.
  rewrite (deref_live l g _ p m Hp Hm). f_equal.
  unfold end_parameter_log.
  destruct (md_rawDefaultValue m) as [d|]; [|by rewrite with_object_same].
  destruct (convertAndValidateRaw m d false); [by rewrite with_object_same|].
  by apply say_with_object.
Qed.

Lemma item_tokens_meta items :
  forallb item_ok items = true →
  Forall meta_token (flat_map item_tokens items).
Proof.
  induction items as [|it items IH]; intros Hok; [constructor|].
  cbn [forallb] in Hok. apply andb_prop in Hok as [Hit Hok].
  cbn [flat_map]. apply Forall_app. split; [|by apply IH].
  assert (Hplain : ∀ n, element_kind n = other_element → ¬ structural n).
  { intros n Hn Hs. by apply Hs. }
  destruct it as [n a text|n a|n|text]; cbn [item_tokens];
    repeat constructor; try done; apply Hplain;
    try (apply andb_prop in Hit as [Hit _]);
    by apply bool_decide_eq_true in Hit.
Qed.

(** A parameter element runs to its end as [load_parameter] says. *)
Lemma parameter_element_runs attrs items more t0 l g :
  t0 ≠ Invalid → xmlState l = XmlStateFoundGroup →
  group_item_ok (parameter_element attrs items) = true →
  runs_to
    (readNext {| tokenType := t0;
                 upcoming := group_item_tokens (parameter_element attrs items)
                             ++ more |}) l g
    (readNext {| tokenType := StartDocument; upcoming := more |})
    (load_parameter attrs items (l, g)).1
    (load_parameter attrs items (l, g)).2.
Proof.
  intros Ht0 Hst Hok. cbn [group_item_ok] in Hok.
  apply andb_prop in Hok as [Hok Hitems]. apply andb_prop in Hok as [Hok Hty].
  apply andb_prop in Hok as [Hname Htype]. apply negb_true_iff in Hty.
  destruct (stringToType (attribute_value attrs "type")) as [foundType unknown]
    eqn:Htypeof.
  cbn [snd] in Hty. subst unknown.
  cbn [group_item_tokens]. rewrite <- app_comm_cons, <- app_assoc.
  cbn [app]. unfold load_parameter. rewrite Htypeof. cbn [fst].
  set (name := attribute_value attrs "name").
  set (p := allocated g).
  destruct (decide (is_Some (_mapParameterName2FactMetaData g !! name)))
    as [Hdup|Hnew]; cbn [fst snd].
  - (* a duplicate: the items are skipped *)
    eapply runs_to_trans.
    { eapply (loop_step t0 (StartElement "parameter" attrs) _
                (StartElement "parameter" attrs) _ l g);
        [done|done| |done].
      by apply parameter_start_duplicate. }
    eapply runs_to_trans.
    { exists (length (flat_map item_tokens items)). intros fuel.
      apply skip_meta_tokens; try done. by apply item_tokens_meta. }
    destruct (loop_step StartDocument (EndElement "parameter") more
                (EndElement "parameter") more
                {| factGroup := factGroup l; metaData := Some p;
                   xmlState := XmlStateFoundParameter; badMetaData := true |}
                (duplicate_store name foundType g)
                {| factGroup := factGroup l; metaData := None;
                   xmlState := XmlStateFoundGroup; badMetaData := false |}
                (duplicate_store name foundType g)) as [k Hk]; try done.
    { rewrite (parameter_end more _ _ p (FactMetaData_new foundType));
        try done.
      - f_equal. apply with_object_same. simpl. by rewrite lookup_insert_eq.
      - simpl. by rewrite lookup_insert_eq. }
    exists k. intros fuel. rewrite <- Hk.
    by rewrite readNext_record.
  - (* a new name *)
    assert (Hnone : _mapParameterName2FactMetaData g !! name = None).
    { destruct (_ !! _) eqn:Hq; [|done]. destruct Hnew. eauto. }
    set (start := new_parameter attrs foundType (factGroup l)).
    set (g0 := {| _parameterMetaDataLoaded := _parameterMetaDataLoaded g;
                  _mapParameterName2FactMetaData :=
                    <[name := p]> (_mapParameterName2FactMetaData g);
                  objects := <[p := start.1]> (objects g);
                  allocated := S p;
                  messages := messages g ++ start.2 |}).
    set (l1 := {| factGroup := factGroup l; metaData := Some p;
                  xmlState := XmlStateFoundParameter;
                  badMetaData := badMetaData l |}).
    assert (Hlive : objects g0 !! p = Some start.1)
      by (simpl; by rewrite lookup_insert_eq).
    eapply runs_to_trans.
    { eapply (loop_step t0 (StartElement "parameter" attrs) _
                (StartElement "parameter" attrs) _ l g l1 g0);
        [done|done| |done].
      by apply parameter_start_new. }
    set (final := if badMetaData l then (start.1, [])
                  else apply_items items start.1).
    assert (Hrun :
      runs_to
        (readNext {| tokenType := StartDocument;
                     upcoming := flat_map item_tokens items
                                 ++ EndElement "parameter" :: more |}) l1 g0
        (readNext {| tokenType := StartDocument;
                     upcoming := EndElement "parameter" :: more |}) l1
        (with_object p final.1 final.2 g0)).
    { unfold final. destruct (badMetaData l) eqn:Hbad.
      - exists (length (flat_map item_tokens items)). intros fuel.
        rewrite skip_meta_tokens; try done; [|by apply item_tokens_meta].
        cbn [fst snd]. rewrite with_object_same by done.
        by rewrite readNext_record.
      - exists (length items). intros fuel.
        by apply items_steps. }
    eapply runs_to_trans; [exact Hrun|].
    destruct (loop_step StartDocument (EndElement "parameter") more
                (EndElement "parameter") more l1
                (with_object p final.1 final.2 g0)
                {| factGroup := factGroup l; metaData := None;
                   xmlState := XmlStateFoundGroup; badMetaData := false |}
                (with_object p final.1 (end_parameter_log final.1)
                   (with_object p final.1 final.2 g0))) as [k Hk];
      try done.
    { apply (parameter_end more l1 _ p final.1);
        [done|apply with_object_lookup]. }
    exists k. intros fuel. rewrite Hk. f_equal.
    rewrite with_object_twice. unfold with_object, g0.
    cbn [_parameterMetaDataLoaded _mapParameterName2FactMetaData objects
         allocated messages].
    by rewrite insert_insert_eq, <- !app_assoc.
Qed.

Lemma load_parameter_state attrs items s :
  xmlState (load_parameter attrs items s).1 = XmlStateFoundGroup.
Proof.
  destruct s as [l g]. unfold load_parameter.
  destruct (stringToType _) as [ty unknown]. cbn [fst].
  by destruct (decide _).
Qed.

(** The content of a group runs to its end as the fold of
    [load_group_item] says. *)
Lemma group_content_runs content more t0 l g :
  t0 ≠ Invalid → xmlState l = XmlStateFoundGroup →
  forallb group_item_ok content = true →
  runs_to
    (readNext {| tokenType := t0;
                 upcoming := flat_map group_item_tokens content ++ more |}) l g
    (readNext {| tokenType := StartDocument; upcoming := more |})
    (foldl load_group_item (l, g) content).1
    (foldl load_group_item (l, g) content).2.
Proof.
  intros Ht0 Hst Hok. revert t0 l g Ht0 Hst.
  induction content as [|gi content IH]; intros t0 l g Ht0 Hst.
  - exists 0%nat. intros fuel. cbn. by rewrite (readNext_any t0 StartDocument).
  - cbn [forallb] in Hok. apply andb_prop in Hok as [Hgi Hok].
    cbn [flat_map foldl]. rewrite <- app_assoc.
    destruct gi as [attrs items|text].
    + eapply runs_to_trans; [by apply parameter_element_runs|].
      cbn [load_group_item].
      destruct (load_parameter attrs items (l, g)) as [l1 g1] eqn:Hload.
      apply IH; try done.
      pose proof (load_parameter_state attrs items (l, g)) as Hs.
      by rewrite Hload in Hs.
    + eapply runs_to_trans; [by apply characters_step|].
      cbn [load_group_item]. by apply IH.
Qed.

(** A group runs to its end as [load_group] says. *)
Lemma group_element_runs attrs content more t0 l g :
  t0 ≠ Invalid → xmlState l = XmlStateFoundVersion →
  document_item_ok (group_element attrs content) = true →
  runs_to
    (readNext {| tokenType := t0;
                 upcoming := document_item_tokens (group_element attrs content)
                             ++ more |}) l g
    (readNext {| tokenType := StartDocument; upcoming := more |})
    (load_group attrs content (l, g)).1 (load_group attrs content (l, g)).2.
Proof.
  intros Ht0 Hst Hok. cbn [document_item_ok] in Hok.
  apply andb_prop in Hok as [Hname Hok].
  cbn [document_item_tokens]. rewrite <- app_comm_cons, <- app_assoc.
  cbn [app]. unfold load_group.
  set (l1 := {| factGroup := attribute_value attrs "name";
                metaData := metaData l; xmlState := XmlStateFoundGroup;
                badMetaData := badMetaData l |}).
  eapply runs_to_trans.
  { eapply (loop_step t0 (StartElement "group" attrs) _
              (StartElement "group" attrs) _ l g l1 g); [done|done| |done].
    unfold loop_body, start_element. cbn [tokenType].
    change (element_kind "group") with group. cbv iota.
    rewrite decide_False by (intros Hc; by apply Hc).
    by rewrite Hname. }
  eapply runs_to_trans.
  { by apply (group_content_runs content (EndElement "group" :: more)
                StartDocument l1 g). }
  destruct (foldl load_group_item (l1, g) content) as [l2 g2].
  cbn [fst snd].
  by eapply loop_step.
Qed.

Lemma load_group_state attrs content s :
  xmlState (load_group attrs content s).1 = XmlStateFoundVersion.
Proof.
  destruct s as [l g]. unfold load_group.
  by destruct (foldl load_group_item _ content).
Qed.

(** The content of a document runs to its end as the fold of
    [load_document_item] says. *)
Lemma document_content_runs content more t0 l g :
  t0 ≠ Invalid → xmlState l = XmlStateFoundVersion →
  forallb document_item_ok content = true →
  runs_to
    (readNext {| tokenType := t0;
                 upcoming := flat_map document_item_tokens content ++ more |})
    l g
    (readNext {| tokenType := StartDocument; upcoming := more |})
    (foldl load_document_item (l, g) content).1
    (foldl load_document_item (l, g) content).2.
Proof.
  intros Ht0 Hst Hok. revert t0 l g Ht0 Hst.
  induction content as [|di content IH]; intros t0 l g Ht0 Hst.
  - exists 0%nat. intros fuel. cbn. by rewrite (readNext_any t0 StartDocument).
  - cbn [forallb] in Hok. apply andb_prop in Hok as [Hdi Hok].
    cbn [flat_map foldl]. rewrite <- app_assoc.
    destruct di as [attrs items|text].
    + eapply runs_to_trans; [by apply group_element_runs|].
      cbn [load_document_item].
      destruct (load_group attrs items (l, g)) as [l1 g1] eqn:Hload.
      apply IH; try done.
      pose proof (load_group_state attrs items (l, g)) as Hs.
      by rewrite Hload in Hs.
    + eapply runs_to_trans; [by apply characters_step|].
      cbn [load_document_item]. by apply IH.
Qed.

Lemma pads_run pads more t0 l g :
  t0 ≠ Invalid →
  runs_to
    (readNext {| tokenType := t0; upcoming := map Characters pads ++ more |})
    l g (readNext {| tokenType := StartDocument; upcoming := more |}) l g.
Proof.
  intros Ht0. revert t0 Ht0.
  induction pads as [|text pads IH]; intros t0 Ht0.
  - exists 0%nat. intros fuel. cbn. by rewrite (readNext_any t0 StartDocument).
  - cbn [map app]. eapply runs_to_trans; [by apply characters_step|].
    by apply IH.
Qed.

(** Two runs of the loop that do not stop for want of iterations end
    alike. *)
Lemma parse_loop_agree fuel1 fuel2 xml l g g' :
  parse_loop fuel1 xml l g = Finished g' →
  parse_loop fuel2 xml l g ≠ OutOfFuel →
  parse_loop fuel2 xml l g = Finished g'.
Proof.
  intros H1 H2. destruct (decide (fuel1 ≤ fuel2)%nat) as [Hle|Hgt].
  - replace fuel2 with (fuel1 + (fuel2 - fuel1))%nat by lia.
    rewrite parse_loop_more_fuel; [done|]. by rewrite H1.
  - rewrite <- H1. replace fuel1 with (fuel2 + (fuel1 - fuel2))%nat by lia.
    by rewrite parse_loop_more_fuel.
Qed.

(** X14. The load of a whole document: a parameters element that holds
    a version above 2 and then groups of parameter elements, with text
    between the elements, loaded for the first time into an empty map.
    The load goes through the document from the first token to the
    last and ends with the statics that [load_document] computes group
    by group and parameter by parameter: the first parameter element
    and the duplicates without their meta data elements, every other
    parameter with them. *)
Theorem document_loaded (fs : Files) (g : MetaStore) (pads : list string)
  (strVersion : string) (intVersion : Z) (content : list DocumentItem) :
  parameterFile fs = document_tokens pads strVersion content →
  QString_toInt strVersion = Some intVersion → 2 < intVersion →
  forallb document_item_ok content = true →
  _parameterMetaDataLoaded g = false →
  _mapParameterName2FactMetaData g = ∅ →
  _loadParameterFactMetaData fs g
  = Finished (load_document content (set_loaded g)).
Proof.
  intros Hfile Hversion Hv Hok Hl Hempty.
  destruct (load_cases fs g) as [[Hc _]|[(_ & Hc & _)|(_ & _ & Hrun)]];
    [congruence|congruence|].
  rewrite Hrun, Hfile.
  apply (parse_loop_agree
           (S (S (length (document_tokens pads strVersion content)))));
    [|rewrite <- Hfile; apply parse_loop_total; simpl; lia].
  clear Hrun.
  set (l1 := set_xmlState XmlStateFoundParameters Locals_init).
  set (l2 := set_xmlState XmlStateFoundVersion Locals_init).
  set (g0 := set_loaded g).
  set (tail := [EndElement "parameters"; EndDocument]).
  assert (Hwalk :
    runs_to (QXmlStreamReader_new (document_tokens pads strVersion content))
      Locals_init g0
      {| tokenType := EndDocument; upcoming := [] |}
      (set_xmlState XmlStateFoundParameters
         (foldl load_document_item (l2, g0) content).1)
      (foldl load_document_item (l2, g0) content).2).
  { unfold document_tokens.
    (* the reader starts before the first token *)
    eapply runs_to_trans.
    { exists 1%nat. intros fuel. cbn [Nat.add parse_loop].
      unfold QXmlStreamReader_new. cbn [atEnd tokenType loop_body].
      reflexivity. }
    eapply runs_to_trans.
    { by eapply (loop_step NoToken StartDocument _ StartDocument _
                   Locals_init g0 Locals_init g0). }
    eapply runs_to_trans.
    { by eapply (loop_step StartDocument (StartElement "parameters" []) _
                   (StartElement "parameters" []) _ Locals_init g0 l1 g0). }
    eapply runs_to_trans; [by apply pads_run|].
    eapply runs_to_trans.
    { eapply (loop_step StartDocument (StartElement "version" []) _
                (EndElement "version") _ l1 g0 l2 g0); [done|done| |done].
      unfold loop_body, start_element. cbn [tokenType].
      change (element_kind "version") with version. cbv iota.
      rewrite decide_False by (intros Hc; by apply Hc).
      cbn [readElementText tokenType upcoming readElementText_from].
      change (String.append "" strVersion) with strVersion.
      rewrite Hversion. by rewrite decide_False by lia. }
    eapply runs_to_trans.
    { by apply (document_content_runs content tail StartDocument l2 g0). }
    destruct (foldl load_document_item (l2, g0) content) as [l3 g3].
    cbn [fst snd]. unfold tail.
    destruct (loop_step StartDocument (EndElement "parameters") [EndDocument]
                (EndElement "parameters") [EndDocument] l3 g3
                (set_xmlState XmlStateFoundParameters l3) g3) as [k Hk];
      try done.
    exists k. intros fuel. by rewrite Hk. }
  destruct Hwalk as [k Hk].
  assert (Hend : parse_loop (k + 1)
                   (QXmlStreamReader_new (document_tokens pads strVersion content))
                   Locals_init g0
                 = Finished (load_document content g0)).
  { by rewrite Hk. }
  apply (parse_loop_agree (k + 1)); [done|].
  apply parse_loop_total. simpl. lia.
Qed.

End DocumentWalk.

(** The sample file is the sample document, and its load is the fold
    over the document. *)
Lemma document_loaded_witness :
  @_loadParameterFactMetaData sample_ops sample_files MetaStore_init
  = Finished (@load_document sample_ops sample_document
                (set_loaded MetaStore_init)).
Proof.
  apply (@document_loaded sample_ops sample_files MetaStore_init [] "3" 3
           sample_document).
  - reflexivity.
  - reflexivity.
  - lia.
  - reflexivity.
  - reflexivity.
  - reflexivity.
Defined.

Example sample_document_load :
  @load_document sample_ops sample_document (set_loaded MetaStore_init)
  = sample_loaded.
Proof. vm_compute. reflexivity. Qed.
